(** * Ring attention (llama3 variant): sequence partitioning, online softmax
      merging, lse layout conversion and communication schedulers

    A shallow embedding of [src/nanotron/nn/llama3_ring_attention.py].
    Integer tensors are lists of [Z]; Python exceptions are the [Raise]
    results of an error monad; floating point values are taken as exact
    reals where arithmetic matters and as an abstract type elsewhere. *)

From Stdlib Require Import ZArith Lia String Reals Lra.
From stdpp Require Import base option list gmap.

Local Open Scope Z_scope.

(** ** Exceptions *)

Inductive exn : Type :=
| IndexError
| AssertionError
| ZeroDivisionError
| TypeError
| ShapeError
| RuntimeError (msg : string).

Inductive result (A : Type) : Type :=
| Ok (a : A)
| Raise (e : exn).
Arguments Ok {A} a.
Arguments Raise {A} e.

#[global] Instance result_ret : MRet result := fun _ a => Ok a.
#[global] Instance result_bind : MBind result := fun _ _ f m =>
  match m with
  | Ok a => f a
  | Raise e => Raise e
  end.

(** Runs a bind whose first computation is a value. *)
Tactic Notation "bind_step" := cbn [mbind result_bind mret result_ret].
Tactic Notation "bind_step" "in" hyp(H) :=
  cbn [mbind result_bind mret result_ret] in H.

(** Destructs the computation bound first in hypothesis [H : _ = Ok _]. *)
Ltac bind_ok H :=
  match type of H with
  | mbind _ ?m = Ok _ =>
      let E := fresh "E" in
      destruct m eqn:E; simpl in H; [ | discriminate H ]
  end.

(** ** Python sequences *)

Module Py.
Section Seq.
Context {A : Type}.

  (** [l[i]] for an integer [i]: negative indices count from the end. *)
Definition index_of (len : nat) (i : Z) : result nat :=
    if decide (0 <= i < Z.of_nat len) then Ok (Z.to_nat i)
    else if decide (- Z.of_nat len <= i < 0) then Ok (Z.to_nat (Z.of_nat len + i))
    else Raise IndexError.

Definition getitem (l : list A) (i : Z) : result A :=
    n ← index_of (length l) i;
    match l !! n with
    | Some x => Ok x
    | None => Raise IndexError
    end.

  (** [l[i] = x] *)
Definition setitem (l : list A) (i : Z) (x : A) : result (list A) :=
    n ← index_of (length l) i;
    Ok (<[n := x]> l).

  (** A slice bound, as [slice.indices] clamps it for a unit step. *)
Definition clamp (len : nat) (dflt : Z) (b : option Z) : nat :=
    match b with
    | None => Z.to_nat dflt
    | Some i =>
        if decide (i < 0) then Z.to_nat (Z.max 0 (Z.of_nat len + i))
        else Z.to_nat (Z.min i (Z.of_nat len))
    end.

  (** [l[start:stop]] *)
Definition slice (l : list A) (start stop : option Z) : list A :=
    let s := clamp (length l) 0 start in
    let e := clamp (length l) (Z.of_nat (length l)) stop in
    take (e - s) (drop s l).
End Seq.
End Py.

(** ** SequencePartitioner *)

Module Partition.

  (** [torch.searchsorted(a, v)] (left insertion point): on a sorted [a],
      the first index whose entry is [>= v], [len(a)] when there is none. *)
Fixpoint searchsorted (a : list Z) (v : Z) : nat :=
    match a with
    | [] => O
    | x :: a' => if decide (x < v) then S (searchsorted a' v) else O
    end.

  (** [t[1:] - t[:-1]] *)
Definition diffs (t : list Z) : list Z :=
    zip_with Z.sub (Py.slice t (Some 1) None) (Py.slice t None (Some (-1))).

  (** [t.max()]: torch refuses to reduce a tensor without elements. *)
Definition tensor_max (t : list Z) : result Z :=
    match t with
    | [] => Raise (RuntimeError "max(): Expected reduction dim to be specified for input.numel() == 0")
    | x :: t' => Ok (foldl Z.max x t')
    end.

Record RankShard : Type := {
    cu_seqlens_q : list Z;
    cu_seqlens_k : list Z;
    max_seqlen_q : Z;
    max_seqlen_k : Z;
    local_k_slice : Z * Z   (* slice(slice_left, slice_right) *)
  }.

Definition llama3_flash_attn_prepare_cu_seqlens
      (cu_seqlens : list Z) (causal : bool) (rank world_size : Z)
      : result RankShard :=
    total_length ← Py.getitem cu_seqlens (-1);
    r ← (if decide (world_size = 0) then Raise ZeroDivisionError
         else Ok (total_length mod world_size));
    _ ← (if decide (r = 0) then Ok () else Raise AssertionError);
    let length_per_rank := total_length / world_size in
    let left := Z.of_nat (searchsorted cu_seqlens (rank * length_per_rank)) in
    let right := Z.of_nat (searchsorted cu_seqlens ((rank + 1) * length_per_rank)) in
    at_left ← Py.getitem cu_seqlens left;
    let left := if decide (at_left ≠ rank * length_per_rank) then left - 1 else left in
    let cu_seqlens_q := Py.slice cu_seqlens (Some left) (Some (right + 1)) in
    let cu_seqlens_q := (fun x => x - rank * length_per_rank) <$> cu_seqlens_q in
    cu_seqlens_q ← Py.setitem cu_seqlens_q 0 0;
    cu_seqlens_q ← Py.setitem cu_seqlens_q (-1) length_per_rank;
    let cu_seqlens_k := Py.slice cu_seqlens (Some left) (Some (right + 1)) in
    '(slice_right, cu_seqlens_k) ←
      (if causal then
         let slice_right := (rank + 1) * length_per_rank in
         cu_seqlens_k ← Py.setitem cu_seqlens_k (-1) slice_right;
         Ok (slice_right, cu_seqlens_k)
       else
         slice_right ← Py.getitem cu_seqlens right;
         Ok (slice_right, cu_seqlens_k));
    slice_left ← Py.getitem cu_seqlens left;
    let cu_seqlens_k := (fun x => x - slice_left) <$> cu_seqlens_k in
    max_seqlen_q ← tensor_max (diffs cu_seqlens_q);
    max_seqlen_k ← tensor_max (diffs cu_seqlens_k);
    Ok {| cu_seqlens_q := cu_seqlens_q;
          cu_seqlens_k := cu_seqlens_k;
          max_seqlen_q := max_seqlen_q;
          max_seqlen_k := max_seqlen_k;
          local_k_slice := (slice_left, slice_right) |}.

  (** The global token range a shard's queries cover: the local range
      [cu_seqlens_q[0], cu_seqlens_q[-1]) moved back by the rank's offset. *)
Definition global_q_range (rank length_per_rank : Z) (s : RankShard)
      : result (Z * Z) :=
    lo ← Py.getitem (cu_seqlens_q s) 0;
    hi ← Py.getitem (cu_seqlens_q s) (-1);
    Ok (rank * length_per_rank + lo, rank * length_per_rank + hi).

  (** Entries never decrease from one boundary to the next. *)
Fixpoint nondecreasing (l : list Z) : Prop :=
    match l with
    | x :: l' =>
        match l' with
        | y :: _ => x <= y /\ nondecreasing l'
        | [] => True
        end
    | [] => True
    end.

  (** The inputs the partitioner is specified for: a boundary sequence
      that starts at 0 and never decreases, whose last entry [total] is a
      multiple of [world_size >= 1]. *)
Definition valid_layout (cu : list Z) (world_size total : Z) : Prop :=
    head cu = Some 0 /\ last cu = Some total /\ nondecreasing cu /\
    1 <= world_size /\ total mod world_size = 0.

  (** Token [t] lies in the global query range of the shard the function
      returns for [rank]. *)
Definition covers (cu : list Z) (causal : bool) (world_size total rank t : Z)
      : Prop :=
    exists s lo hi,
      llama3_flash_attn_prepare_cu_seqlens cu causal rank world_size = Ok s /\
      global_q_range rank (total / world_size) s = Ok (lo, hi) /\
      lo <= t < hi.

End Partition.


(** ** CommScheduler *)

(** The rotating point-to-point ring.  The transport ([dist.P2POp],
    [dist.batch_isend_irecv], a request's [wait]) is external: it acts on a
    state [World] of its own. *)
Module RingComm.
Section WithTransport.
Context {Tensor Req World : Type}.

Inductive P2POp : Type :=
  | isend (t : Tensor) (peer : Z)
  | irecv (t : Tensor) (peer : Z).

Variable batch_isend_irecv : list P2POp -> World -> result (list Req * World).
Variable req_wait : Req -> World -> result World.
Variable empty_like : Tensor -> Tensor.

Record t : Type := {
    _ops : list P2POp;
    rank : Z;
    world_size : Z;
    _reqs : option (list Req);
    send_rank : Z;
    recv_rank : Z
  }.

  (** [__init__]; [get_global_rank] is [None] when no process group is
      given, and the group's rank translation otherwise. *)
Definition init (rank world_size : Z) (get_global_rank : option (Z -> Z))
      : result t :=
    if decide (world_size = 0) then Raise ZeroDivisionError
    else
      let send_rank := (rank + 1) mod world_size in
      let recv_rank := (rank - 1) mod world_size in
      Ok {| _ops := [];
            rank := rank;
            world_size := world_size;
            _reqs := None;
            send_rank := from_option (fun g => g send_rank) send_rank get_global_rank;
            recv_rank := from_option (fun g => g recv_rank) recv_rank get_global_rank |}.

Definition set_ops (c : t) (ops : list P2POp) : t :=
    {| _ops := ops; rank := rank c; world_size := world_size c;
       _reqs := _reqs c; send_rank := send_rank c; recv_rank := recv_rank c |}.

Definition set_reqs (c : t) (reqs : option (list Req)) : t :=
    {| _ops := _ops c; rank := rank c; world_size := world_size c;
       _reqs := reqs; send_rank := send_rank c; recv_rank := recv_rank c |}.

Definition send_recv (c : t) (to_send : Tensor) (recv_tensor : option Tensor)
      : t * Tensor :=
    let res := match recv_tensor with
               | None => empty_like to_send
               | Some r => r
               end in
    let send_op := isend to_send (send_rank c) in
    let recv_op := irecv res (recv_rank c) in
    (set_ops c ((_ops c ++ [send_op]) ++ [recv_op]), res).

Definition commit (c : t) (w : World) : result (t * World) :=
    match _reqs c with
    | Some _ => Raise (RuntimeError "commit called twice")
    | None =>
        '(reqs, w) ← batch_isend_irecv (_ops c) w;
        Ok (set_reqs c (Some reqs), w)
    end.

Fixpoint wait_all (reqs : list Req) (w : World) : result World :=
    match reqs with
    | [] => Ok w
    | req :: reqs' => w ← req_wait req w; wait_all reqs' w
    end.

Definition wait (c : t) (w : World) : result (t * World) :=
    match _reqs c with
    | None => Raise (RuntimeError "wait called before commit")
    | Some reqs =>
        w ← wait_all reqs w;
        Ok (set_ops (set_reqs c None) [], w)
    end.

Definition send_recv_kv (c : t) (k v : Tensor) (k_buffer v_buffer : option Tensor)
      (w : World) : result (t * (Tensor * Tensor) * World) :=
    let '(c, next_k) := send_recv c k k_buffer in
    let '(c, next_v) := send_recv c v v_buffer in
    '(c, w) ← commit c w;
    Ok (c, (next_k, next_v), w).
End WithTransport.
End RingComm.

(** The windowed all-gather.  [dist.all_gather_into_tensor(..., async_op=True)]
    is external; it names its output by a reference [Ref]. *)
Module AllGatherComm.
Section WithTransport.
Context {Ref Tensor Handle World Group : Type}.

Variable all_gather_into_tensor :
    Ref -> Tensor -> option Group -> World -> result (Handle * World).
Variable handle_wait : Handle -> World -> result World.

Record t : Type := {
    group : option Group;
    handles : list Handle
  }.

Definition init (group : option Group) : t :=
    {| group := group; handles := [] |}.

Definition all_gather (c : t) (output_tensor : Ref) (input_tensor : Tensor)
      (w : World) : result (t * World) :=
    '(handle, w) ← all_gather_into_tensor output_tensor input_tensor (group c) w;
    Ok ({| group := group c; handles := handles c ++ [handle] |}, w).

Fixpoint wait_all (hs : list Handle) (w : World) : result World :=
    match hs with
    | [] => Ok w
    | handle :: hs' => w ← handle_wait handle w; wait_all hs' w
    end.

Definition wait (c : t) (w : World) : result (t * World) :=
    w ← wait_all (handles c) w;
    Ok ({| group := group c; handles := [] |}, w).
End WithTransport.
End AllGatherComm.

(** ** Tensors as nested lists *)

Module Torch.

Fixpoint collect {A : Type} (l : list (result A)) : result (list A) :=
  match l with
  | [] => Ok []
  | m :: l' => x ← m; xs ← collect l'; Ok (x :: xs)
  end.

(** One dimension of torch's broadcasting of a binary operation: equal
    sizes pair up, a size of 1 is repeated, anything else is an error. *)
Definition bzip {A B C : Type} (f : A -> B -> result C)
    (l1 : list A) (l2 : list B) : result (list C) :=
  if decide (length l1 = length l2) then collect (zip_with f l1 l2)
  else
    match l1, l2 with
    | [x], _ => collect (f x <$> l2)
    | _, [y] => collect ((fun a => f a y) <$> l1)
    | _, _ => Raise ShapeError
    end.

(** One dimension of the copy behind [dst[...] = src]: [src] is broadcast
    to the shape of [dst], never the other way round. *)
Definition bcopy {A B : Type} (f : A -> B -> result A)
    (dst : list A) (src : list B) : result (list A) :=
  if decide (length src = length dst) then collect (zip_with f dst src)
  else
    match src with
    | [y] => collect ((fun d => f d y) <$> dst)
    | _ => Raise ShapeError
    end.

(** [t.transpose(-2, -1)] of a rank-2 tensor.  (A tensor without rows
    keeps no column count in this representation.) *)
Fixpoint transpose {A : Type} (m : list (list A)) : list (list A) :=
  match m with
  | [] => []
  | row :: m' =>
      match m' with
      | [] => (fun x => [x]) <$> row
      | _ :: _ => zip_with cons row (transpose m')
      end
  end.

(** [t.unsqueeze(dim=-1)] *)
Definition unsqueeze {A : Type} (m : list (list A)) : list (list (list A)) :=
  (fun row : list A => (fun x => [x]) <$> row) <$> m.

(** [torch.cat(ts, dim=1)]: per row, the pieces of all tensors joined; all
    tensors need the same number of rows. *)
Fixpoint cat_dim1 {A : Type} (ts : list (list (list A))) : result (list (list A)) :=
  match ts with
  | [] => Raise (RuntimeError "torch.cat(): expected a non-empty list of Tensors")
  | t :: ts' =>
      match ts' with
      | [] => Ok t
      | _ :: _ =>
          r ← cat_dim1 ts';
          if decide (length t = length r) then Ok (zip_with app t r)
          else Raise ShapeError
      end
  end.

(** A matrix of shape [(h, n)]. *)
Definition shape2 {A : Type} (m : list (list A)) (h n : nat) : Prop :=
  length m = h /\ Forall (fun row => length row = n) m.

(** An entry of a rank-3 tensor. *)
Definition entry {A : Type} (t : list (list (list A))) (i j k : nat) : option A :=
  row ← t !! i; e ← row !! j; e !! k.

(** A tensor of shape [(n, h, d)]. *)
Definition shape3 {A : Type} (t : list (list (list A))) (n h d : nat) : Prop :=
  length t = n /\
  Forall (fun row => length row = h /\ Forall (fun e => length e = d) row) t.

End Torch.

(** ** OnlineSoftmaxMerger *)

(** Floating point values are taken as exact reals, so [.to(torch.float32)]
    is the identity.  A tensor of rank 3 is a list of rows (tokens), each a
    list of heads, each a list of entries; [out] has [head_dim] entries per
    head and [lse] has one. *)
Module Merge.
Import Torch.
Local Open Scope R_scope.

Abbreviation tensor2 := (list (list R)).
Abbreviation tensor3 := (list (list (list R))).

(** [F.sigmoid] and [F.logsigmoid] *)
Definition sigmoid (x : R) : R := 1 / (1 + exp (- x)).
Definition logsigmoid (x : R) : R := ln (sigmoid x).

(** An elementwise binary operation on two rank-3 tensors. *)
Definition binop3 (op : R -> R -> R) (a b : tensor3) : result tensor3 :=
  bzip (bzip (bzip (fun x y => Ok (op x y)))) a b.

Definition map3 (f : R -> R) (a : tensor3) : tensor3 :=
  (fun row : list (list R) => (fun e : list R => f <$> e) <$> row) <$> a.

Definition _update_out_and_lse (out lse block_out : tensor3) (block_lse : tensor2)
    : result (tensor3 * tensor3) :=
  let block_lse := unsqueeze (transpose block_lse) in
  d ← binop3 Rminus block_lse lse;
  e ← binop3 Rminus out block_out;
  p ← binop3 Rmult (map3 sigmoid d) e;
  out' ← binop3 Rminus out p;
  g ← binop3 Rminus lse block_lse;
  lse' ← binop3 Rminus lse (map3 logsigmoid g);
  Ok (out', lse').

Definition copy3 (dst src : tensor3) : result tensor3 :=
  bcopy (bcopy (bcopy (fun _ y => Ok y))) dst src.

(** A basic slice [slice(start, stop)] over the leading dimension. *)
Abbreviation pyslice := (option Z * option Z)%type.

Definition slice_start {A : Type} (t : list A) (s : pyslice) : nat :=
  Py.clamp (length t) 0 s.1.
Definition slice_stop {A : Type} (t : list A) (s : pyslice) : nat :=
  Py.clamp (length t) (Z.of_nat (length t)) s.2.

(** [t[slice_]] *)
Definition getslice (t : tensor3) (s : pyslice) : tensor3 := Py.slice t s.1 s.2.

(** [t[slice_] = v], giving the new contents of [t]. *)
Definition setslice (t : tensor3) (s : pyslice) (v : tensor3) : result tensor3 :=
  let a := slice_start t s in
  let n := (slice_stop t s - a)%nat in
  new ← copy3 (take n (drop a t)) v;
  Ok (take a t ++ new ++ drop (a + n) t).

(** Tensors are objects of a store; an accumulator is the address of one.
    The blocks are only read and are passed by value. *)
Abbreviation loc := nat (only parsing).

(** Reading the tensor an accumulator names. *)
Definition deref (σ : gmap loc tensor3) (p : loc) : result tensor3 :=
  match σ !! p with
  | Some t => Ok t
  | None => Raise TypeError
  end.

Definition update_out_and_lse (σ : gmap loc tensor3) (out lse : option loc)
    (block_out : tensor3) (block_lse : tensor2) (slice_ : option pyslice)
    : result (gmap loc tensor3 * (loc * loc)) :=
  match out with
  | None =>
      match slice_ with
      | Some _ => Raise (RuntimeError "first update_out_and_lse should not pass slice_ args")
      | None =>
          let out := fresh (dom σ) in
          let σ := <[out := block_out]> σ in
          let lse := fresh (dom σ) in
          let σ := <[lse := unsqueeze (transpose block_lse)]> σ in
          Ok (σ, (out, lse))
      end
  | Some out =>
      match lse with
      | None => Raise TypeError   (* [lse] is subscripted, or typed as a tensor *)
      | Some lse =>
          match slice_ with
          | Some slice_ =>
              t_out ← deref σ out;
              t_lse ← deref σ lse;
              let slice_out := getslice t_out slice_ in
              let slice_lse := getslice t_lse slice_ in
              '(slice_out, slice_lse) ←
                _update_out_and_lse slice_out slice_lse block_out block_lse;
              t_out ← setslice t_out slice_ slice_out;
              let σ := <[out := t_out]> σ in
              t_lse ← deref σ lse;
              t_lse ← setslice t_lse slice_ slice_lse;
              let σ := <[lse := t_lse]> σ in
              Ok (σ, (out, lse))
          | None =>
              t_out ← deref σ out;
              t_lse ← deref σ lse;
              '(t_out, t_lse) ← _update_out_and_lse t_out t_lse block_out block_lse;
              let out := fresh (dom σ) in
              let σ := <[out := t_out]> σ in
              let lse := fresh (dom σ) in
              let σ := <[lse := t_lse]> σ in
              Ok (σ, (out, lse))
          end
      end
  end.

(** The two entrywise formulas of lines 696-697. *)
Definition out_entry (out lse block_out block_lse : R) : R :=
  out - sigmoid (block_lse - lse) * (out - block_out).
Definition lse_entry (lse block_lse : R) : R :=
  lse - logsigmoid (lse - block_lse).

(** The accumulator of one output entry together with its lse: seeded from
    the first block (line 712-713), then merged block after block (line
    719). *)
Definition merge_entry (acc blk : R * R) : R * R :=
  (out_entry acc.1 acc.2 blk.1 blk.2, lse_entry acc.2 blk.2).

Definition merge_blocks (first : R * R) (rest : list (R * R)) : R * R :=
  foldl merge_entry first rest.

(** What the external attention primitive computes for one query row and
    one output coordinate over the keys it is given, each key with its
    score [s] and its value [v]: the softmax-weighted mean of the values,
    and the logarithm of the softmax normaliser. *)
Definition softmax_mass (kv : list (R * R)) : R :=
  foldr (fun p acc => exp p.1 + acc) 0 kv.
Definition weighted_values (kv : list (R * R)) : R :=
  foldr (fun p acc => exp p.1 * p.2 + acc) 0 kv.
Definition attention (kv : list (R * R)) : R * R :=
  (weighted_values kv / softmax_mass kv, ln (softmax_mass kv)).

(** The results of [binop3] spelled out for operands of one shape, and for
    a left operand whose last dimension has size 1. *)
Definition zip3 (op : R -> R -> R) (a b : tensor3) : tensor3 :=
  zip_with (zip_with (zip_with op)) a b.
Definition scale3 (op : R -> R -> R) (s x : tensor3) : tensor3 :=
  zip_with (zip_with (fun sv xs =>
    match sv with
    | [v] => op v <$> xs
    | _ => []
    end)) s x.

End Merge.

(** ** VarlenLseLayoutConverter *)

(** The two [torch.jit.script] converters at the end of the file (they
    replace the triton pair of the same names defined before them).  Values
    are of an arbitrary type [V]. *)
Module VarlenLse.
Import Torch.
Section WithValues.
Context {V : Type}.

(** The body of the loop of [flatten_varlen_lse]: [lse[i, :, : end - start]]. *)
Definition flatten_body (lse : list (list (list V))) (cu_seqlens : list Z) (i : nat)
    : result (list (list V)) :=
  start ← Py.getitem cu_seqlens (Z.of_nat i);
  end_ ← Py.getitem cu_seqlens (Z.of_nat i + 1);
  lse_i ← Py.getitem lse (Z.of_nat i);
  Ok ((fun row : list V => Py.slice row None (Some (end_ - start)))
        <$> (lse_i : list (list V))).

(** [lse] is padded: [(num_seq, nheads, max_seqlen)]; the result is packed:
    [(nheads, total_tokens)]. *)
Definition flatten_varlen_lse (lse : list (list (list V))) (cu_seqlens : list Z)
    : result (list (list V)) :=
  new_lse ← collect (flatten_body lse cu_seqlens <$> seq 0 (length cu_seqlens - 1));
  cat_dim1 new_lse.

(** The argument of [unflatten_varlen_lse] is read through [shape[-2]]
    and [lse[start:end]] only, which exist for any rank from 2 on; ranks 2
    and 3 are modelled. *)
Inductive packed : Type :=
| Rank2 (m : list (list V))
| Rank3 (m : list (list (list V))).

(** [lse.shape[-2]].  (A rank-3 tensor without rows keeps no head count in
    this representation; 0 is taken.) *)
Definition shape_m2 (lse : packed) : nat :=
  match lse with
  | Rank2 m => length m
  | Rank3 m =>
      match m with
      | row :: _ => length row
      | [] => O
      end
  end.

(** [lse[start:end]], aligned to rank 3 the way broadcasting aligns it. *)
Definition rows (lse : packed) (start end_ : Z) : list (list (list V)) :=
  match lse with
  | Rank2 m => [Py.slice m (Some start) (Some end_)]
  | Rank3 m => Py.slice m (Some start) (Some end_)
  end.

(** [torch.empty((num_seq, max_seqlen, num_head, 1))]: the entries are
    whatever the allocator left there, [uninit].  The trailing dimension of
    size 1 is left implicit. *)
Variable uninit : nat -> nat -> nat -> V.

Definition torch_empty (num_seq max_seqlen num_head : nat) : list (list (list V)) :=
  (fun s => (fun p => (fun h => uninit s p h) <$> seq 0 num_head)
              <$> seq 0 max_seqlen)
    <$> seq 0 num_seq.

(** The copy behind [new_lse[i, :n] = lse[start:end]]: the destination has
    a last dimension of size 1, so must the source. *)
Definition copy_rows (dst : list (list V)) (src : list (list (list V)))
    : result (list (list V)) :=
  bcopy (bcopy (fun (_ : V) (e : list V) =>
    match e with
    | [y] => Ok y
    | _ => Raise ShapeError
    end)) dst src.

(** The body of the loop of [unflatten_varlen_lse]; iteration [i] writes
    into [new_lse[i]] only, whose contents it gets and gives back:
    [new_lse[i, : end - start] = lse[start:end]]. *)
Definition unflatten_body (lse : packed) (cu_seqlens : list Z)
    (i : nat) (new_lse_i : list (list V)) : result (list (list V)) :=
  start ← Py.getitem cu_seqlens (Z.of_nat i);
  end_ ← Py.getitem cu_seqlens (Z.of_nat i + 1);
  let n := Py.clamp (length new_lse_i) (Z.of_nat (length new_lse_i))
             (Some (end_ - start)) in
  new ← copy_rows (take n new_lse_i) (rows lse start end_);
  Ok (new ++ drop n new_lse_i).

Definition unflatten_varlen_lse (lse : packed) (cu_seqlens : list Z) (max_seqlen : Z)
    : result (list (list (list V))) :=
  match cu_seqlens with
  | [] => Raise (RuntimeError "Trying to create tensor with negative dimension -1")
  | _ :: _ =>
      if decide (max_seqlen < 0)
      then Raise (RuntimeError "Trying to create tensor with negative dimension")
      else
        let num_seq := (length cu_seqlens - 1)%nat in
        let num_head := shape_m2 lse in
        let new_lse := torch_empty num_seq (Z.to_nat max_seqlen) num_head in
        new_lse ← collect (imap (unflatten_body lse cu_seqlens) new_lse);
        Ok ((fun m : list (list V) => transpose m)
              <$> (new_lse : list (list (list V))))
  end.

(** The layout change [update_out_and_lse] applies to a packed block lse
    (lines 690 and 713) before it is accumulated. *)
Definition to_accumulator_layout (block_lse : list (list V)) : packed :=
  Rank3 (unsqueeze (transpose block_lse)).

(** The length of sequence [i] of a layout. *)
Definition seq_len (cu_seqlens : list Z) (i : nat) : Z :=
  default 0 (cu_seqlens !! S i) - default 0 (cu_seqlens !! i).

End WithValues.

(** The boundary at [i], as a natural number. *)
Definition boundary (cu_seqlens : list Z) (i : nat) : nat :=
  Z.to_nat (default 0 (cu_seqlens !! i)).

(** Block [i] of [flatten_varlen_lse]: the valid prefix of every head of
    sequence [i]; and row [h] of the packed result before it is joined. *)
Definition block {V : Type} (lse : list (list (list V))) (cu_seqlens : list Z)
    (i : nat) : list (list V) :=
  (fun row : list V => take (Z.to_nat (seq_len cu_seqlens i)) row)
    <$> default [] (lse !! i).
Definition pieces {V : Type} (lse : list (list (list V))) (cu_seqlens : list Z)
    (h : nat) : list (list V) :=
  (fun i => default [] (block lse cu_seqlens i !! h)) <$> seq 0 (length lse).

(** What iteration [i] of [unflatten_varlen_lse] leaves in [new_lse[i]]
    when the shapes agree: the rows of sequence [i] of the accumulator
    [acc], followed by the rows it does not touch. *)
Definition single_or {V : Type} (d : V) (e : list V) : V :=
  match e with
  | [y] => y
  | _ => d
  end.
Definition written {V : Type} (acc : list (list (list V))) (cu_seqlens : list Z)
    (i : nat) (new_lse_i : list (list V)) : list (list V) :=
  let n := Z.to_nat (seq_len cu_seqlens i) in
  zip_with (zip_with single_or) (take n new_lse_i)
    (take n (drop (boundary cu_seqlens i) acc))
  ++ drop n new_lse_i.

(** The batches the converters are specified for: a layout that starts at
    0 and never decreases, one padded block of shape [(nheads, max_len)]
    per sequence, at least one sequence and one head, and no sequence
    longer than the padding. *)
Definition valid_batch {V : Type} (lse : list (list (list V))) (cu_seqlens : list Z)
    (nheads max_len : nat) : Prop :=
  head cu_seqlens = Some 0 /\ Partition.nondecreasing cu_seqlens /\
  length cu_seqlens = S (length lse) /\ lse <> [] /\
  Torch.shape3 lse (length lse) nheads max_len /\ (0 < nheads)%nat /\
  forall i : nat, (i < length lse)%nat -> seq_len cu_seqlens i <= Z.of_nat max_len.

End VarlenLse.

(** ** AttentionStepEngine *)

(** Tensors [q], [k], [v], [out] and the gradients have shape
    [(tokens, heads, head_dim)]; the kernel's [lse] has shape
    [(heads, tokens)] (with the padded layout [(batch, heads, seqlen)] of
    older kernels [dim=-2] is the head dimension as well; the backward pass
    slices heads out of either).  The attention kernels and the collectives
    are external: the kernels are functions of their arguments, a
    collective is a function of its position in the sequence of
    collectives of the group and of what this rank contributes. *)
Module Engine.
Import Torch.
Local Open Scope nat_scope.
Section WithKernels.
Context {V Hyper Group : Type}.

Abbreviation tensor3 := (list (list (list V))).
Abbreviation tensor2 := (list (list V)).

(** [t.shape[1]].  (A tensor without rows keeps no head count in this
    representation; 0 is taken.) *)
Definition dim1 (t : tensor3) : nat :=
  match t with
  | row :: _ => length row
  | [] => O
  end.

(** [t[:, a:b]] *)
Definition heads (t : tensor3) (a b : nat) : tensor3 :=
  (fun row : list (list V) => take (b - a) (drop a row)) <$> t.

(** [torch.cat(ts, dim=-2)] of rank-2 tensors, that is along their rows:
    the rows of all tensors one after the other; all rows need one length. *)
Definition cat_dim_m2 (ts : list tensor2) : result tensor2 :=
  match ts with
  | [] => Raise (RuntimeError "torch.cat(): expected a non-empty list of Tensors")
  | _ :: _ =>
      let rows := concat ts in
      match rows with
      | [] => Ok []
      | r :: _ =>
          if decide (Forall (fun r' : list V => length r' = length r) rows) then Ok rows
          else Raise ShapeError
      end
  end.

(** The two gather buffers of lines 89 and 95 are two objects; the
    variables [kv_buffer] and [kv_buffer_copy] name one each and are
    swapped.  Slot 0 of a buffer holds keys, slot 1 values. *)
Inductive buffer : Type := BufferA | BufferB.
Inductive slot : Type := Slot0 | Slot1.

Record world : Type := {
  buffers : buffer -> slot -> tensor3;
  collectives : nat          (* collectives issued on the group so far *)
}.

#[global] Instance buffer_eq_dec : EqDecision buffer.
Proof. solve_decision. Defined.
#[global] Instance slot_eq_dec : EqDecision slot.
Proof. solve_decision. Defined.

Definition store (w : world) (b : buffer) (s : slot) (t : tensor3) : world :=
  {| buffers := fun b' s' =>
       if decide (b' = b /\ s' = s) then t else buffers w b' s';
     collectives := collectives w |}.

(** What the [n]-th collective of the group delivers to this rank. *)
Variable all_gathered : nat -> tensor3 -> tensor3.
Variable reduce_scattered : nat -> tensor3 -> tensor3.

(** [dist.all_gather_into_tensor(output, input, group, async_op=True)]: the
    handle is the pending write; waiting on it performs the write. *)
Definition all_gather_into_tensor (output : buffer * slot) (input : tensor3)
    (_ : option Group) (w : world)
    : result ((buffer * slot * tensor3) * world) :=
  Ok ((output, all_gathered (collectives w) input),
      {| buffers := buffers w; collectives := S (collectives w) |}).

Definition handle_wait (h : buffer * slot * tensor3) (w : world) : result world :=
  Ok (store w h.1.1 h.1.2 h.2).

Abbreviation Comm := (@AllGatherComm.t (buffer * slot * tensor3) Group).
Abbreviation comm_all_gather :=
  (AllGatherComm.all_gather (Tensor := tensor3) all_gather_into_tensor).
Abbreviation comm_wait := (AllGatherComm.wait (Group := Group) handle_wait).

(** [_flash_attn_varlen_forward(q, k, v, cu_seqlens_q, cu_seqlens_k,
    max_seqlen_q, max_seqlen_k, ...)], giving [(out, lse)]. *)
Variable _flash_attn_varlen_forward :
  tensor3 -> tensor3 -> tensor3 -> list Z -> list Z -> Z -> Z -> Hyper
  -> tensor3 * tensor2.

Record forward_state : Type := {
  f_comm : Comm;
  f_world : world;
  f_kv_buffer : buffer;
  f_kv_buffer_copy : buffer;
  out_list : list tensor3;
  lse_list : list tensor2
}.

(** The windows [range(0, nheads_k, heads_k_stride)], after the assertion
    that the stride divides the number of key heads. *)
Definition windows (nheads_k heads_k_stride : nat) : result (list nat) :=
  if decide (heads_k_stride = O) then Raise ZeroDivisionError
  else if decide (nheads_k mod heads_k_stride = O)
  then Ok ((fun j => j * heads_k_stride)%nat <$> seq 0 (nheads_k / heads_k_stride))
  else Raise AssertionError.

(** Issuing the gathers of the window that starts at [left]. *)
Definition gather_window (c : Comm) (w : world) (target : buffer)
    (k v : tensor3) (left heads_k_stride : nat) : result (Comm * world) :=
  let send_k := heads k left (left + heads_k_stride) in
  let send_v := heads v left (left + heads_k_stride) in
  '(c, w) ← comm_all_gather c (target, Slot0) send_k w;
  comm_all_gather c (target, Slot1) send_v w.

Definition forward_body (q k v : tensor3) (cu_seqlens_q cu_seqlens_k : list Z)
    (max_seqlen_q max_seqlen_k : Z) (heads_k_stride : nat) (local_k_slice : Z * Z)
    (hyper : Hyper) (s : forward_state) (i : nat) : result forward_state :=
  let nheads := dim1 q in
  let nheads_k := dim1 k in
  '(c, w) ← comm_wait (f_comm s) (f_world s);
  let kv_buffer := f_kv_buffer_copy s in
  let kv_buffer_copy := f_kv_buffer s in
  '(c, w) ← (if decide (i + heads_k_stride < nheads_k)%nat
             then gather_window c w kv_buffer_copy k v (i + heads_k_stride) heads_k_stride
             else Ok (c, w));
  let q_i := heads q (i * nheads / nheads_k) ((i + heads_k_stride) * nheads / nheads_k) in
  let k_i := Py.slice (buffers w kv_buffer Slot0)
               (Some local_k_slice.1) (Some local_k_slice.2) in
  let v_i := Py.slice (buffers w kv_buffer Slot1)
               (Some local_k_slice.1) (Some local_k_slice.2) in
  let '(out, lse) := _flash_attn_varlen_forward q_i k_i v_i cu_seqlens_q cu_seqlens_k
                       max_seqlen_q max_seqlen_k hyper in
  Ok {| f_comm := c; f_world := w;
        f_kv_buffer := kv_buffer; f_kv_buffer_copy := kv_buffer_copy;
        out_list := out_list s ++ [out];
        lse_list := lse_list s ++ [lse] |}.

Fixpoint for_each {S I : Type} (body : S -> I -> result S) (s : S) (l : list I)
    : result S :=
  match l with
  | [] => Ok s
  | i :: l' => s ← body s i; for_each body s l'
  end.

(** The loop of the forward pass, up to line 154.  [w] holds the two
    buffers as [torch.empty] left them. *)
Definition forward_loop (process_group : option Group) (w : world)
    (q k v : tensor3) (cu_seqlens_q cu_seqlens_k : list Z)
    (max_seqlen_q max_seqlen_k : Z) (heads_k_stride : nat) (local_k_slice : Z * Z)
    (hyper : Hyper) : result forward_state :=
  let nheads_k := dim1 k in
  ws ← windows nheads_k heads_k_stride;
  let comm := AllGatherComm.init process_group in
  '(comm, w) ← gather_window comm w BufferB k v 0 heads_k_stride;
  for_each
    (forward_body q k v cu_seqlens_q cu_seqlens_k max_seqlen_q max_seqlen_k
       heads_k_stride local_k_slice hyper)
    {| f_comm := comm; f_world := w;
       f_kv_buffer := BufferA; f_kv_buffer_copy := BufferB;
       out_list := []; lse_list := [] |}
    ws.

Definition llama3_flash_attn_varlen_forward (process_group : option Group) (w : world)
    (q k v : tensor3) (cu_seqlens_q cu_seqlens_k : list Z)
    (max_seqlen_q max_seqlen_k : Z) (heads_k_stride : nat) (local_k_slice : Z * Z)
    (hyper : Hyper) : result (tensor3 * tensor2) :=
  s ← forward_loop process_group w q k v cu_seqlens_q cu_seqlens_k
        max_seqlen_q max_seqlen_k heads_k_stride local_k_slice hyper;
  out ← cat_dim1 (out_list s);
  lse ← cat_dim_m2 (lse_list s);
  Ok (out, lse).

(** *** The backward pass *)

Variable zero : V.

(** [t.zero_()] *)
Definition zero_ (t : tensor3) : tensor3 :=
  (fun row : list (list V) => (fun e : list V => (fun _ => zero) <$> e) <$> row) <$> t.

(** Writing through a view leaves the viewed tensor's extent alone: entry
    [j] of the view takes entry [j] of [new] where there is one. *)
Definition overwrite {A : Type} (view new : list A) : list A :=
  imap (fun j old => default old (new !! j)) view.

(** The contents of [t] after its view [t[slice(a, b)]] was written. *)
Definition write_rows (t : tensor3) (sl : Z * Z) (new : tensor3) : tensor3 :=
  let a := Py.clamp (length t) 0 (Some sl.1) in
  let n := Py.clamp (length t) (Z.of_nat (length t)) (Some sl.2) - a in
  take a t ++ overwrite (take n (drop a t)) new ++ drop (a + n) t.

(** The contents of [t] after its view [t[:, a:b]] was written. *)
Definition write_heads (t : tensor3) (a b : nat) (new : tensor3) : tensor3 :=
  imap (fun j (row : list (list V)) =>
    take a row ++ overwrite (take (b - a) (drop a row)) (default [] (new !! j))
    ++ drop (a + (b - a)) row) t.

(** The arguments of [_flash_attn_varlen_backward]; [b_dq], [b_dk] and
    [b_dv] are the views it writes, given by their contents at the call. *)
Record backward_args : Type := {
  b_dout : tensor3;
  b_q : tensor3;
  b_k : tensor3;
  b_v : tensor3;
  b_out : tensor3;
  b_softmax_lse : tensor2;
  b_dq : tensor3;
  b_dk : tensor3;
  b_dv : tensor3;
  b_cu_seqlens_q : list Z;
  b_cu_seqlens_k : list Z;
  b_max_seqlen_q : Z;
  b_max_seqlen_k : Z;
  b_hyper : Hyper
}.

(** The kernel, as the contents it leaves in [dq], [dk] and [dv]. *)
Variable _flash_attn_varlen_backward : backward_args -> tensor3 * tensor3 * tensor3.

(** The calls to the external primitives a run makes, in order: the kernel
    for the window starting at [i], with the gradient buffer [dkv_buffer]
    as it is at that moment, and the reduce-scatters with their input. *)
Inductive event : Type :=
| KernelCall (i : nat) (dkv_buffer : tensor3 * tensor3)
| ReduceScatter (i : nat) (input : tensor3).

Record backward_state : Type := {
  b_comm : Comm;
  b_world : world;
  b_kv_buffer : buffer;
  b_kv_buffer_copy : buffer;
  dkv_buffer : tensor3 * tensor3;
  kv_contiguous_buffer : tensor3 * tensor3;
  dq : tensor3;
  dk : tensor3;
  dv : tensor3;
  trace : list event
}.

Definition reduce_scatter_tensor (input : tensor3) (w : world) : tensor3 * world :=
  (reduce_scattered (collectives w) input,
   {| buffers := buffers w; collectives := S (collectives w) |}).

Definition backward_body (dout q k v out : tensor3) (softmax_lse : tensor2)
    (cu_seqlens_q cu_seqlens_k : list Z) (max_seqlen_q max_seqlen_k : Z)
    (heads_k_stride : nat) (local_k_slice : Z * Z) (hyper : Hyper)
    (s : backward_state) (i : nat) : result backward_state :=
  let nheads := dim1 q in
  let nheads_k := dim1 k in
  let dkv_buffer := (zero_ (dkv_buffer s).1, zero_ (dkv_buffer s).2) in
  let q_left := i * nheads / nheads_k in
  let q_right := (i + heads_k_stride) * nheads / nheads_k in
  let q_i := heads q q_left q_right in
  let dout_i := heads dout q_left q_right in
  let out_i := heads out q_left q_right in
  let dq_i := heads (dq s) q_left q_right in
  let lse_i := take (q_right - q_left) (drop q_left softmax_lse) in
  '(c, w) ← comm_wait (b_comm s) (b_world s);
  let kv_buffer := b_kv_buffer_copy s in
  let kv_buffer_copy := b_kv_buffer s in
  '(c, w) ← (if decide (i + heads_k_stride < nheads_k)
             then gather_window c w kv_buffer_copy k v (i + heads_k_stride) heads_k_stride
             else Ok (c, w));
  let k_i := Py.slice (buffers w kv_buffer Slot0)
               (Some local_k_slice.1) (Some local_k_slice.2) in
  let v_i := Py.slice (buffers w kv_buffer Slot1)
               (Some local_k_slice.1) (Some local_k_slice.2) in
  let dk_i := Py.slice dkv_buffer.1 (Some local_k_slice.1) (Some local_k_slice.2) in
  let dv_i := Py.slice dkv_buffer.2 (Some local_k_slice.1) (Some local_k_slice.2) in
  let called := KernelCall i dkv_buffer in
  let '(dq_i, dk_i, dv_i) :=
    _flash_attn_varlen_backward
      {| b_dout := dout_i; b_q := q_i; b_k := k_i; b_v := v_i; b_out := out_i;
         b_softmax_lse := lse_i; b_dq := dq_i; b_dk := dk_i; b_dv := dv_i;
         b_cu_seqlens_q := cu_seqlens_q; b_cu_seqlens_k := cu_seqlens_k;
         b_max_seqlen_q := max_seqlen_q; b_max_seqlen_k := max_seqlen_k;
         b_hyper := hyper |} in
  let dq := write_heads (dq s) q_left q_right dq_i in
  let dkv_buffer := (write_rows dkv_buffer.1 local_k_slice dk_i,
                     write_rows dkv_buffer.2 local_k_slice dv_i) in
  let '(dk_i, w) := reduce_scatter_tensor dkv_buffer.1 w in
  let '(dv_i, w) := reduce_scatter_tensor dkv_buffer.2 w in
  let scattered := [ReduceScatter i dkv_buffer.1; ReduceScatter i dkv_buffer.2] in
  Ok (if decide (heads_k_stride ≠ nheads_k)
      then
        {| b_comm := c; b_world := w;
           b_kv_buffer := kv_buffer; b_kv_buffer_copy := kv_buffer_copy;
           dkv_buffer := dkv_buffer;
           kv_contiguous_buffer := (dk_i, dv_i);
           dq := dq;
           dk := write_heads (dk s) i (i + heads_k_stride) dk_i;
           dv := write_heads (dv s) i (i + heads_k_stride) dv_i;
           trace := trace s ++ called :: scattered |}
      else
        {| b_comm := c; b_world := w;
           b_kv_buffer := kv_buffer; b_kv_buffer_copy := kv_buffer_copy;
           dkv_buffer := dkv_buffer;
           kv_contiguous_buffer := kv_contiguous_buffer s;
           dq := dq;
           dk := dk_i;
           dv := dv_i;
           trace := trace s ++ called :: scattered |}).

(** What [torch.empty] and [torch.empty_like] left in the buffers that
    are only the backward pass's. *)
Record backward_alloc : Type := {
  a_dkv_buffer : tensor3 * tensor3;
  a_kv_contiguous_buffer : tensor3 * tensor3;
  a_dq : tensor3;
  a_dk : tensor3;
  a_dv : tensor3
}.

(** The backward pass; the trace of its external calls is returned with
    the gradients. *)
Definition llama3_flash_attn_varlen_backward (process_group : option Group)
    (w : world) (alloc : backward_alloc)
    (dout q k v out : tensor3) (softmax_lse : tensor2)
    (cu_seqlens_q cu_seqlens_k : list Z) (max_seqlen_q max_seqlen_k : Z)
    (heads_k_stride : nat) (local_k_slice : Z * Z) (hyper : Hyper)
    : result (tensor3 * tensor3 * tensor3 * list event) :=
  let nheads_k := dim1 k in
  ws ← windows nheads_k heads_k_stride;
  let comm := AllGatherComm.init process_group in
  '(comm, w) ← gather_window comm w BufferB k v 0 heads_k_stride;
  s ← for_each
        (backward_body dout q k v out softmax_lse cu_seqlens_q cu_seqlens_k
           max_seqlen_q max_seqlen_k heads_k_stride local_k_slice hyper)
        {| b_comm := comm; b_world := w;
           b_kv_buffer := BufferA; b_kv_buffer_copy := BufferB;
           dkv_buffer := a_dkv_buffer alloc;
           kv_contiguous_buffer := a_kv_contiguous_buffer alloc;
           dq := a_dq alloc; dk := a_dk alloc; dv := a_dv alloc;
           trace := [] |}
        ws;
  Ok (dq s, dk s, dv s, trace s).

(** Every entry is [zero]. *)
Definition all_zero (t : tensor3) : Prop :=
  Forall (Forall (Forall (fun x => x = zero))) t.

(** Row [j] lies in [t[slice(a, b)]]. *)
Definition in_rows (t : tensor3) (sl : Z * Z) (j : nat) : Prop :=
  Py.clamp (length t) 0 (Some sl.1) <= j
  < Py.clamp (length t) (Z.of_nat (length t)) (Some sl.2).

(** An event is clean when no stale gradient can reach it: at a kernel
    call the whole gradient buffer is zero; the input of a reduce-scatter
    is zero in every row outside [local_k_slice]. *)
Definition clean (local_k_slice : Z * Z) (e : event) : Prop :=
  match e with
  | KernelCall _ b => all_zero b.1 /\ all_zero b.2
  | ReduceScatter _ input =>
      forall (j : nat) (row : list (list V)),
        ~ in_rows input local_k_slice j -> input !! j = Some row ->
        Forall (Forall (fun x => x = zero)) row
  end.

(** The primitive an event calls ([true] for the kernel) and its window. *)
Definition tag (e : event) : bool * nat :=
  match e with
  | KernelCall i _ => (true, i)
  | ReduceScatter i _ => (false, i)
  end.

(** What the spec says of line 157: the tensors joined along the sequence
    dimension, the last one of the [(heads, tokens)] layout. *)
Definition cat_sequence_dim (ts : list tensor2) : result tensor2 := cat_dim1 ts.

End WithKernels.
End Engine.

(** ** OnlineSoftmaxMerger: the mass of a list of blocks *)

(** For blocks given as pairs [(out, lse)]: the sum of their softmax
    masses [exp lse], and the sum of their outputs weighted by mass. *)
Module MergeOrder.
Local Open Scope R_scope.

Definition block_mass (blocks : list (R * R)) : R :=
  foldr (fun b acc => exp b.2 + acc) 0 blocks.
Definition block_weighted (blocks : list (R * R)) : R :=
  foldr (fun b acc => exp b.2 * b.1 + acc) 0 blocks.

End MergeOrder.


(** ** AttentionStepEngine: the data a window's kernel call is meant to get *)

Module EngineWindows.
Import Torch Engine.
Local Open Scope nat_scope.
Section WithKernels.
Context {V Hyper : Type}.
Variable all_gathered : nat -> list (list (list V)) -> list (list (list V)).
Variable _flash_attn_varlen_forward :
  list (list (list V)) -> list (list (list V)) -> list (list (list V)) ->
  list Z -> list Z -> Z -> Z -> Hyper -> list (list (list V)) * list (list V).

(** The kernel call of window number [j] (the window that starts at key
    head [j * heads_k_stride]) on the queries of the window's head group
    and on what the group's collectives number [c0 + 2 * j] and
    [c0 + 2 * j + 1] gather from the window's own key and value heads, cut
    to [local_k_slice]. *)
Definition window_call (c0 : nat) (q k v : list (list (list V)))
    (cu_seqlens_q cu_seqlens_k : list Z) (max_seqlen_q max_seqlen_k : Z)
    (heads_k_stride : nat) (local_k_slice : Z * Z) (hyper : Hyper) (j : nat)
    : list (list (list V)) * list (list V) :=
  let i := j * heads_k_stride in
  let nheads := dim1 q in
  let nheads_k := dim1 k in
  _flash_attn_varlen_forward
    (heads q (i * nheads / nheads_k) ((i + heads_k_stride) * nheads / nheads_k))
    (Py.slice (all_gathered (c0 + 2 * j) (heads k i (i + heads_k_stride)))
       (Some local_k_slice.1) (Some local_k_slice.2))
    (Py.slice (all_gathered (c0 + 2 * j + 1) (heads v i (i + heads_k_stride)))
       (Some local_k_slice.1) (Some local_k_slice.2))
    cu_seqlens_q cu_seqlens_k max_seqlen_q max_seqlen_k hyper.

End WithKernels.
End EngineWindows.

(** * Properties *)

(** ** Python sequences *)

Section PyFacts.
Context {A : Type}.
Implicit Types (l : list A) (i : Z) (n : nat).

Lemma index_of_lt len i n : Py.index_of len i = Ok n -> (n < len)%nat.
Proof.
    unfold Py.index_of. repeat case_decide; intros [= <-]; lia.
Qed.

Lemma index_of_nonneg len i :
    0 <= i < Z.of_nat len -> Py.index_of len i = Ok (Z.to_nat i).
Proof. intros H. unfold Py.index_of. by rewrite decide_True. Qed.

Lemma index_of_last len : (0 < len)%nat -> Py.index_of len (-1) = Ok (pred len).
Proof.
    intros H. unfold Py.index_of.
    rewrite decide_False by lia. rewrite decide_True by lia.
    f_equal. lia.
Qed.

Lemma index_of_empty i : Py.index_of 0 i = Raise IndexError.
Proof. unfold Py.index_of. repeat case_decide; try lia; done. Qed.

Lemma getitem_nonneg l n x :
    l !! n = Some x -> Py.getitem l (Z.of_nat n) = Ok x.
Proof.
    intros H. unfold Py.getitem.
    rewrite index_of_nonneg by (apply lookup_lt_Some in H; lia).
    simpl. by rewrite Nat2Z.id, H.
Qed.

Lemma getitem_nonneg_inv l i x :
    0 <= i -> Py.getitem l i = Ok x -> l !! Z.to_nat i = Some x.
Proof.
    intros Hi. unfold Py.getitem, Py.index_of.
    repeat case_decide; try lia; simpl; try discriminate.
    destruct (l !! Z.to_nat i); [ by intros [= ->] | discriminate ].
Qed.

Lemma getitem_last l x : last l = Some x -> Py.getitem l (-1) = Ok x.
Proof.
    intros H. unfold Py.getitem.
    assert (0 < length l)%nat by (destruct l; [ discriminate | simpl; lia ]).
    rewrite index_of_last by done. simpl.
    rewrite last_lookup in H. by rewrite H.
Qed.

Lemma getitem_last_inv l x : Py.getitem l (-1) = Ok x -> last l = Some x.
Proof.
    unfold Py.getitem. destruct l as [ | a l ].
    - by rewrite index_of_empty.
    - rewrite index_of_last by (simpl; lia). simpl pred. simpl mbind.
      rewrite last_lookup. simpl pred.
      destruct ((a :: l) !! length l); [ by intros [= ->] | discriminate ].
Qed.

Lemma setitem_length l i x l' : Py.setitem l i x = Ok l' -> length l' = length l.
Proof.
    unfold Py.setitem. intros H. bind_ok H. injection H as <-.
    apply length_insert.
Qed.

Lemma setitem_first l x : (0 < length l)%nat -> Py.setitem l 0 x = Ok (<[O := x]> l).
Proof.
    intros H. unfold Py.setitem. by rewrite index_of_nonneg by lia.
Qed.

Lemma setitem_last l x :
    (0 < length l)%nat -> Py.setitem l (-1) x = Ok (<[pred (length l) := x]> l).
Proof.
    intros H. unfold Py.setitem. by rewrite index_of_last.
Qed.

Lemma setitem_nonempty l i x l' : Py.setitem l i x = Ok l' -> (0 < length l)%nat.
Proof.
    unfold Py.setitem. intros H. bind_ok H.
    apply index_of_lt in E. lia.
Qed.

  (** [l[a:b]] for bounds inside the sequence. *)
Lemma slice_inside l (a b : nat) :
    (b <= length l)%nat ->
    Py.slice l (Some (Z.of_nat a)) (Some (Z.of_nat b)) = take (b - a) (drop a l).
Proof.
    intros Hb. unfold Py.slice, Py.clamp.
    rewrite !decide_False by lia.
    destruct (decide (a <= length l)%nat).
    - by rewrite !Z.min_l, !Nat2Z.id by lia.
    - rewrite (Z.min_r (Z.of_nat a)), (Z.min_l (Z.of_nat b)), !Nat2Z.id by lia.
      rewrite (drop_ge l a), (drop_ge l (length l)) by lia. by rewrite !take_nil.
Qed.

Lemma slice_from_1 l : Py.slice l (Some 1) None = drop 1 l.
Proof.
    unfold Py.slice, Py.clamp. rewrite decide_False by lia.
    rewrite Nat2Z.id.
    destruct l as [ | a l ]; [ done | ].
    rewrite Z.min_l by (simpl length; lia).
    change (Z.to_nat 1) with 1%nat.
    apply take_ge. rewrite length_drop. lia.
Qed.

Lemma slice_to_m1 l : Py.slice l None (Some (-1)) = take (pred (length l)) l.
Proof.
    unfold Py.slice, Py.clamp. rewrite decide_True by lia.
    change (Z.to_nat 0) with O. rewrite drop_0, Nat.sub_0_r.
    f_equal. lia.
Qed.
End PyFacts.

(** ** SequencePartitioner *)

Section PartitionFacts.
Import Partition.
Implicit Types (a cu : list Z) (v w : Z).

Lemma searchsorted_le_length a v : (searchsorted a v <= length a)%nat.
Proof. induction a as [ | x a IH ]; simpl; [ lia | case_decide; lia ]. Qed.

  (** Every entry before the insertion point is below the value. *)
Lemma searchsorted_before a v (i : nat) x :
    (i < searchsorted a v)%nat -> a !! i = Some x -> x < v.
Proof.
    revert i. induction a as [ | y a IH ]; simpl; intros i Hi Hx; [ lia | ].
    case_decide; [ | lia ].
    destruct i as [ | i ]; simpl in Hx.
    - by injection Hx as <-.
    - apply (IH i); [ lia | done ].
Qed.

  (** The entry at the insertion point is not below the value. *)
Lemma searchsorted_at a v x : a !! searchsorted a v = Some x -> v <= x.
Proof.
    induction a as [ | y a IH ]; simpl; [ done | ].
    case_decide; simpl; [ done | ]. intros [= <-]. lia.
Qed.

Lemma searchsorted_lt_length a v x :
    x ∈ a -> v <= x -> (searchsorted a v < length a)%nat.
Proof.
    induction a as [ | y a IH ]; simpl; intros Hx Hv.
    - by apply elem_of_nil in Hx.
    - case_decide; [ | lia ].
      apply elem_of_cons in Hx as [ -> | Hx ]; [ lia | ].
      specialize (IH Hx Hv). lia.
Qed.

Lemma searchsorted_mono a v w : v <= w -> (searchsorted a v <= searchsorted a w)%nat.
Proof.
    intros Hvw. induction a as [ | y a IH ]; simpl; [ lia | ].
    repeat case_decide; lia.
Qed.

  (** An index all of whose predecessors (itself included) are below the
      value lies before the insertion point. *)
Lemma searchsorted_after a w (n : nat) :
    (n < length a)%nat ->
    (forall (i : nat) x, (i <= n)%nat -> a !! i = Some x -> x < w) ->
    (n < searchsorted a w)%nat.
Proof.
    revert n. induction a as [ | y a IH ]; simpl; intros n Hn Hall; [ lia | ].
    rewrite decide_True by (apply (Hall O); [ lia | done ]).
    destruct n as [ | n ]; [ lia | ].
    apply -> Nat.succ_lt_mono. apply IH; [ lia | ].
    intros i x Hi Hx. apply (Hall (S i)); [ lia | done ].
Qed.

Lemma diffs_length (t : list Z) : length (diffs t) = pred (length t).
Proof.
    unfold diffs. rewrite slice_from_1, slice_to_m1.
    rewrite length_zip_with, length_drop, length_take. lia.
Qed.

Lemma tensor_max_ok (t : list Z) m : tensor_max t = Ok m -> (0 < length t)%nat.
Proof. destruct t; [ discriminate | simpl; lia ]. Qed.

Lemma tensor_max_nonempty (t : list Z) :
    (0 < length t)%nat -> exists m, tensor_max t = Ok m.
Proof. destruct t; simpl; [ lia | eauto ]. Qed.

  (** Pinning the first entry and then the last, as lines 40-41 do. *)
Lemma pinned_ends (l l1 l2 : list Z) (lo hi : Z) :
    Py.setitem l 0 lo = Ok l1 -> Py.setitem l1 (-1) hi = Ok l2 ->
    (2 <= length l2)%nat ->
    Py.getitem l2 0 = Ok lo /\ Py.getitem l2 (-1) = Ok hi.
Proof.
    intros H1 H2 Hlen.
    pose proof (setitem_length _ _ _ _ H1) as Hl1.
    pose proof (setitem_length _ _ _ _ H2) as Hl2.
    assert (2 <= length l)%nat as Hl by lia.
    rewrite setitem_first in H1 by lia. injection H1 as <-.
    rewrite setitem_last in H2 by lia. injection H2 as <-.
    clear Hl1 Hl2 Hlen. rewrite length_insert.
    split.
    - apply (getitem_nonneg _ O).
      rewrite list_lookup_insert_ne by lia.
      apply list_lookup_insert_eq. lia.
    - apply getitem_last. rewrite last_lookup, !length_insert.
      apply list_lookup_insert_eq. rewrite length_insert. lia.
Qed.

  (** What the function returns, whenever it returns: no assumption on
      the arguments is needed for the two pinned ends. *)
Lemma prepare_q_ends cu causal rank world_size s total :
    last cu = Some total ->
    llama3_flash_attn_prepare_cu_seqlens cu causal rank world_size = Ok s ->
    Py.getitem (cu_seqlens_q s) 0 = Ok 0 /\
    Py.getitem (cu_seqlens_q s) (-1) = Ok (total / world_size).
Proof.
    intros Hlast H. unfold llama3_flash_attn_prepare_cu_seqlens in H.
    rewrite (getitem_last _ _ Hlast) in H. simpl in H.
    repeat bind_ok H.
    destruct a4 as [slice_right cu_k]. repeat bind_ok H.
    injection H as <-. simpl.
    apply tensor_max_ok in E6. rewrite diffs_length in E6.
    eapply pinned_ends; eauto. lia.
Qed.
End PartitionFacts.

Section PartitionTotal.
Import Partition.

  (** The two insertion points of a rank of a valid, non-empty layout:
      after the adjustment of line 33, [left < right < len(cu_seqlens)]. *)
Lemma prepare_bounds (cu : list Z) (rank total lpr : Z) :
    head cu = Some 0 -> last cu = Some total ->
    0 < lpr -> 0 <= rank -> (rank + 1) * lpr <= total ->
    exists (left0 right L : nat) (x : Z),
      left0 = searchsorted cu (rank * lpr) /\
      right = searchsorted cu ((rank + 1) * lpr) /\
      cu !! left0 = Some x /\
      Z.of_nat L = (if decide (x ≠ rank * lpr) then Z.of_nat left0 - 1 else Z.of_nat left0) /\
      (L < right)%nat /\ (right < length cu)%nat.
Proof.
    intros Hhead Hlast Hlpr Hrank Hw.
    assert (total ∈ cu) as Hin.
    { rewrite last_lookup in Hlast. by apply list_elem_of_lookup_2 in Hlast. }
    set (v := rank * lpr). set (w := (rank + 1) * lpr).
    assert (0 <= v < w) as Hvw by (unfold v, w; nia).
    pose proof (searchsorted_lt_length cu v total Hin ltac:(lia)) as Hl.
    pose proof (searchsorted_lt_length cu w total Hin ltac:(lia)) as Hr.
    destruct (lookup_lt_is_Some_2 cu _ Hl) as [x Hx].
    pose proof (searchsorted_at _ _ _ Hx) as Hvx.
    pose proof (searchsorted_mono cu v w ltac:(lia)) as Hmono.
    destruct (decide (x = v)) as [ -> | Hne ].
    - exists (searchsorted cu v), (searchsorted cu w), (searchsorted cu v), v.
      rewrite decide_False by (intros ?; done).
      repeat split; try done.
      apply searchsorted_after; [ done | ].
      intros i y Hi Hy. destruct (decide (i = searchsorted cu v)) as [ -> | ].
      + rewrite Hx in Hy. injection Hy as <-. lia.
      + pose proof (searchsorted_before cu v i y ltac:(lia) Hy). lia.
    - assert (0 < searchsorted cu v)%nat as Hpos.
      { destruct (searchsorted cu v) eqn:E; [ | lia ].
        rewrite <- head_lookup, Hhead in Hx. injection Hx as <-. lia. }
      exists (searchsorted cu v), (searchsorted cu w), (pred (searchsorted cu v)), x.
      rewrite decide_True by done.
      repeat split; try done; lia.
Qed.

Lemma prepare_returns (cu : list Z) (causal : bool) (rank world_size total : Z) :
    head cu = Some 0 -> last cu = Some total ->
    1 <= world_size -> 0 <= rank < world_size -> total mod world_size = 0 ->
    0 < total ->
    exists s, llama3_flash_attn_prepare_cu_seqlens cu causal rank world_size = Ok s.
Proof.
    intros Hhead Hlast Hws Hrank Hmod Hpos.
    pose proof (Z.div_exact total world_size ltac:(lia)) as [_ Hex].
    specialize (Hex Hmod). set (lpr := total / world_size) in *.
    assert (0 < lpr) as Hlpr by nia.
    destruct (prepare_bounds cu rank total lpr Hhead Hlast Hlpr ltac:(lia) ltac:(nia))
      as (left0 & right & L & x & El & Er & Hx & HL & HLr & Hr).
    unfold llama3_flash_attn_prepare_cu_seqlens.
    rewrite (getitem_last _ _ Hlast). bind_step.
    rewrite decide_False by lia. bind_step.
    rewrite decide_True by done. bind_step.
    fold lpr. rewrite <- El, <- Er.
    rewrite (getitem_nonneg _ _ _ Hx). bind_step.
    rewrite <- HL.
    replace (Z.of_nat right + 1) with (Z.of_nat (S right)) by lia.
    rewrite slice_inside by lia.
    set (base := take (S right - L) (drop L cu)).
    assert (length base = S right - L)%nat as Hbase.
    { unfold base. rewrite length_take, length_drop. lia. }
    rewrite setitem_first by (rewrite length_fmap; lia). bind_step.
    rewrite (setitem_last (<[O := 0]> _)) by (rewrite length_insert, length_fmap; lia).
    bind_step.
    destruct (lookup_lt_is_Some_2 cu right Hr) as [xr Hxr].
    destruct (lookup_lt_is_Some_2 cu L ltac:(lia)) as [xl Hxl].
    set (q := <[ _ := lpr ]> _).
    assert (length q = length base) as Hq.
    { unfold q. by rewrite !length_insert, length_fmap. }
    destruct (tensor_max_nonempty (diffs q)) as [mq Hmq].
    { rewrite diffs_length. lia. }
    destruct causal.
    - rewrite setitem_last by lia. bind_step.
      rewrite (getitem_nonneg _ _ _ Hxl). bind_step.
      rewrite Hmq. bind_step.
      set (k := _ <$> _).
      destruct (tensor_max_nonempty (diffs k)) as [mk Hmk].
      { rewrite diffs_length. unfold k. rewrite length_fmap, length_insert. lia. }
      rewrite Hmk. bind_step. eauto.
    - rewrite (getitem_nonneg _ _ _ Hxr). bind_step.
      rewrite (getitem_nonneg _ _ _ Hxl). bind_step.
      rewrite Hmq. bind_step.
      set (k := _ <$> _).
      destruct (tensor_max_nonempty (diffs k)) as [mk Hmk].
      { rewrite diffs_length. unfold k. rewrite length_fmap. lia. }
      rewrite Hmk. bind_step. eauto.
Qed.
End PartitionTotal.

Section PartitionClaims.
Import Partition.

Lemma global_q_range_pinned (rank lpr : Z) (s : RankShard) :
    Py.getitem (cu_seqlens_q s) 0 = Ok 0 ->
    Py.getitem (cu_seqlens_q s) (-1) = Ok lpr ->
    global_q_range rank lpr s = Ok (rank * lpr, (rank + 1) * lpr).
Proof.
    intros H0 H1. unfold global_q_range. rewrite H0, H1. bind_step.
    do 2 f_equal; lia.
Qed.

  (** C1 (partition completeness).  For a layout that starts at 0, is
      non-decreasing and whose total length is a multiple of
      [world_size >= 1]: every shard the function returns has
      [cu_seqlens_q[0] = 0] and [cu_seqlens_q[-1] = total / world_size], so
      its queries cover the global range
      [rank * length_per_rank, (rank + 1) * length_per_rank); the function
      does return for every rank once the layout holds a token; and every
      global token of [0, total) lies in the query range of exactly one
      rank, while no range leaves [0, total). *)
Theorem partition_completeness
      (cu : list Z) (causal : bool) (world_size total : Z) :
    valid_layout cu world_size total ->
    let length_per_rank := total / world_size in
    (forall rank s, 0 <= rank < world_size ->
       llama3_flash_attn_prepare_cu_seqlens cu causal rank world_size = Ok s ->
       Py.getitem (cu_seqlens_q s) 0 = Ok 0 /\
       Py.getitem (cu_seqlens_q s) (-1) = Ok length_per_rank /\
       global_q_range rank length_per_rank s
         = Ok (rank * length_per_rank, (rank + 1) * length_per_rank)) /\
    (0 < total -> forall rank, 0 <= rank < world_size ->
       exists s, llama3_flash_attn_prepare_cu_seqlens cu causal rank world_size = Ok s) /\
    (forall t, 0 <= t < total ->
       exists! rank, 0 <= rank < world_size /\ covers cu causal world_size total rank t) /\
    (forall rank t, 0 <= rank < world_size ->
       covers cu causal world_size total rank t -> 0 <= t < total).
Proof.
    intros (Hhead & Hlast & Hmono & Hws & Hmod) lpr.
    pose proof (Z.div_exact total world_size ltac:(lia)) as [_ Hex].
    specialize (Hex Hmod). fold lpr in Hex.
    assert (forall rank s, llama3_flash_attn_prepare_cu_seqlens cu causal rank world_size = Ok s ->
       Py.getitem (cu_seqlens_q s) 0 = Ok 0 /\
       Py.getitem (cu_seqlens_q s) (-1) = Ok lpr /\
       global_q_range rank lpr s = Ok (rank * lpr, (rank + 1) * lpr)) as Hends.
    { intros rank s Hs.
      destruct (prepare_q_ends _ _ _ _ _ _ Hlast Hs) as [H0 H1].
      auto using global_q_range_pinned. }
    assert (0 < total -> forall rank, 0 <= rank < world_size ->
       exists s, llama3_flash_attn_prepare_cu_seqlens cu causal rank world_size = Ok s) as Hret.
    { intros Hpos rank Hrank. by eapply prepare_returns. }
    split; [ intros; by apply Hends | ].
    split; [ done | ].
    split.
    - intros t Ht.
      assert (0 < lpr) as Hlpr by nia.
      exists (t / lpr).
      pose proof (Z.div_mod t lpr ltac:(lia)) as Hdm.
      pose proof (Z.mod_pos_bound t lpr Hlpr) as Hmb.
      assert (0 <= t / lpr < world_size) as Hrk.
      { split; [ apply Z.div_pos; lia | ].
        apply Z.div_lt_upper_bound; lia. }
      split.
      + split; [ done | ].
        destruct (Hret ltac:(lia) (t / lpr) Hrk) as [s Hs].
        destruct (Hends _ _ Hs) as (_ & _ & Hg).
        exists s, (t / lpr * lpr), ((t / lpr + 1) * lpr).
        repeat split; try done; nia.
      + intros rank' (Hrk' & s' & lo & hi & Hs' & Hg' & Hlo & Hhi).
        destruct (Hends _ _ Hs') as (_ & _ & Hg). fold lpr in Hg'.
        rewrite Hg in Hg'. injection Hg' as <- <-.
        symmetry. apply (Z.div_unique_pos t lpr rank' (t - rank' * lpr)); lia.
    - intros rank t Hrk (s & lo & hi & Hs & Hg' & Hlo & Hhi).
      destruct (Hends _ _ Hs) as (_ & _ & Hg). fold lpr in Hg'.
      rewrite Hg in Hg'. injection Hg' as <- <-.
      assert (0 <= lpr) by (apply Z.div_pos; [ nia | lia ]).
      nia.
Qed.

Lemma partition_completeness_witness :
    valid_layout [0; 6; 16] 2 16 /\
    (exists! rank, 0 <= rank < 2 /\ covers [0; 6; 16] true 2 16 rank 7).
Proof.
    assert (valid_layout [0; 6; 16] 2 16) as Hv.
    { unfold valid_layout. simpl. repeat split; lia. }
    split; [ exact Hv | ].
    apply (partition_completeness [0; 6; 16] true 2 16 Hv). lia.
Defined.

  (** C5 (non-causal scenario).  For [cu_seqlens = [0, 6, 16]] on two
      ranks (8 tokens each), without causal masking, the key slice of rank
      0 is [slice(0, 16)]: it runs to the end of the second sequence,
      which starts in rank 0's range and ends in rank 1's. *)
Theorem non_causal_scenario :
    16 / 2 = 8 /\
    llama3_flash_attn_prepare_cu_seqlens [0; 6; 16] false 0 2
      = Ok {| cu_seqlens_q := [0; 6; 8];
              cu_seqlens_k := [0; 6; 16];
              max_seqlen_q := 6;
              max_seqlen_k := 10;
              local_k_slice := (0, 16) |}.
Proof. split; reflexivity. Qed.

  (** C6 (causal bound).  With causal masking the upper bound of
      [local_k_slice] is [(rank + 1) * length_per_rank], hence never beyond
      it, for every shard the function returns; and on a valid layout that
      holds a token the function returns. *)
Theorem causal_bound (cu : list Z) (rank world_size total : Z) :
    valid_layout cu world_size total -> 0 <= rank < world_size ->
    let length_per_rank := total / world_size in
    (0 < total ->
       exists s, llama3_flash_attn_prepare_cu_seqlens cu true rank world_size = Ok s) /\
    (forall s, llama3_flash_attn_prepare_cu_seqlens cu true rank world_size = Ok s ->
       (local_k_slice s).2 = (rank + 1) * length_per_rank /\
       (local_k_slice s).2 <= (rank + 1) * length_per_rank).
Proof.
    intros (Hhead & Hlast & Hmono & Hws & Hmod) Hrank lpr. split.
    - intros Hpos. by eapply prepare_returns.
    - intros s H. unfold llama3_flash_attn_prepare_cu_seqlens in H.
      rewrite (getitem_last _ _ Hlast) in H. bind_step in H.
      repeat bind_ok H.
      destruct a4 as [slice_right cu_k]. repeat bind_ok H.
      injection H as <-. bind_ok E4. injection E4 as <- <-. simpl. fold lpr. lia.
Qed.

Lemma causal_bound_witness :
    valid_layout [0; 6; 16] 2 16 /\ 0 <= 1 < 2 /\
    forall s, llama3_flash_attn_prepare_cu_seqlens [0; 6; 16] true 1 2 = Ok s ->
      (local_k_slice s).2 <= (1 + 1) * (16 / 2).
Proof.
    assert (valid_layout [0; 6; 16] 2 16) as Hv.
    { unfold valid_layout. simpl. repeat split; lia. }
    split; [ exact Hv | ]. split; [ lia | ].
    intros s Hs.
    apply (causal_bound [0; 6; 16] 1 2 16 Hv ltac:(lia)). exact Hs.
Defined.
End PartitionClaims.

(** ** CommScheduler *)

Section CommClaims.
Context {Tensor Req World Ref Handle Group : Type}.
Variable batch_isend_irecv :
    list (@RingComm.P2POp Tensor) -> World -> result (list Req * World).
Variable req_wait : Req -> World -> result World.
Variable empty_like : Tensor -> Tensor.
Variable handle_wait : Handle -> World -> result World.

Abbreviation ring := (@RingComm.t Tensor Req).
Abbreviation commit := (RingComm.commit batch_isend_irecv).
Abbreviation wait := (RingComm.wait req_wait).
Abbreviation send_recv := (RingComm.send_recv (Req := Req) empty_like).
Abbreviation gather_wait := (AllGatherComm.wait (Group := Group) handle_wait).

Lemma ring_wait_needs_commit (c : ring) (w : World) :
    RingComm._reqs c = None ->
    wait c w = Raise (RuntimeError "wait called before commit").
Proof. intros H. unfold RingComm.wait. by rewrite H. Qed.

Lemma ring_commit_pending (c : ring) (w : World) :
    is_Some (RingComm._reqs c) ->
    commit c w = Raise (RuntimeError "commit called twice").
Proof. intros [reqs H]. unfold RingComm.commit. by rewrite H. Qed.

Lemma ring_commit_ok (c c1 : ring) (w w1 : World) :
    commit c w = Ok (c1, w1) -> is_Some (RingComm._reqs c1).
Proof.
    unfold RingComm.commit. destruct (RingComm._reqs c); [ discriminate | ].
    intros H. bind_ok H. destruct a as [reqs w']. injection H as <- <-.
    simpl. eauto.
Qed.

Lemma ring_wait_ok (c c1 : ring) (w w1 : World) :
    wait c w = Ok (c1, w1) -> RingComm._reqs c1 = None /\ RingComm._ops c1 = [].
Proof.
    unfold RingComm.wait. destruct (RingComm._reqs c); [ | discriminate ].
    intros H. bind_ok H. injection H as <- <-. done.
Qed.

  (** C3, as the code has it.  The ring scheduler refuses [wait] when no
      batch is committed (on a new scheduler, after any number of
      [send_recv], and right after a [wait]) and refuses [commit] while a
      committed batch is pending (also when new operations were queued
      since).  The all-gather scheduler checks nothing: its [wait] on a new
      scheduler returns normally, and so does a second [wait]. *)
Theorem comm_contract :
    (forall rank world_size g (c : ring) w,
       RingComm.init rank world_size g = Ok c ->
       wait c w = Raise (RuntimeError "wait called before commit")) /\
    (forall (c : ring) to_send recv_tensor w,
       RingComm._reqs c = None ->
       wait (send_recv c to_send recv_tensor).1 w
         = Raise (RuntimeError "wait called before commit")) /\
    (forall (c c1 : ring) w w1 w',
       wait c w = Ok (c1, w1) ->
       wait c1 w' = Raise (RuntimeError "wait called before commit")) /\
    (forall (c c1 : ring) w w1 w',
       commit c w = Ok (c1, w1) ->
       commit c1 w' = Raise (RuntimeError "commit called twice")) /\
    (forall (c c1 : ring) w w1 to_send recv_tensor w',
       commit c w = Ok (c1, w1) ->
       commit (send_recv c1 to_send recv_tensor).1 w'
         = Raise (RuntimeError "commit called twice")) /\
    (forall g w, gather_wait (AllGatherComm.init g) w = Ok (AllGatherComm.init g, w)) /\
    (forall c c1 w w1 w',
       gather_wait c w = Ok (c1, w1) -> gather_wait c1 w' = Ok (c1, w')).
Proof.
    repeat split.
    - intros rank world_size g c w H. apply ring_wait_needs_commit.
      unfold RingComm.init in H. case_decide; [ discriminate | ].
      by injection H as <-.
    - intros c to_send recv_tensor w H. by apply ring_wait_needs_commit.
    - intros c c1 w w1 w' H. apply ring_wait_needs_commit.
      by apply ring_wait_ok in H as [? _].
    - intros c c1 w w1 w' H. apply ring_commit_pending.
      by apply ring_commit_ok in H.
    - intros c c1 w w1 to_send recv_tensor w' H. apply ring_commit_pending.
      by apply ring_commit_ok in H.
    - intros c c1 w w1 w' H. unfold AllGatherComm.wait in *.
      bind_ok H. by injection H as <- <-.
Qed.
End CommClaims.

Lemma comm_contract_witness :
  RingComm.commit (Tensor := unit) (fun _ w => Ok ([()], w))
    {| RingComm._ops := []; RingComm.rank := 0; RingComm.world_size := 1;
       RingComm._reqs := Some [()]; RingComm.send_rank := 0;
       RingComm.recv_rank := 0 |} ()
  = Raise (RuntimeError "commit called twice").
Proof.
  pose proof (comm_contract (Tensor := unit) (Req := unit) (World := unit)
                (Handle := unit) (Group := unit)
                (fun _ w => Ok ([()], w)) (fun _ w => Ok w) (fun x => x) (fun _ w => Ok w))
    as (_ & _ & _ & H & _).
  apply (H {| RingComm._ops := []; RingComm.rank := 0; RingComm.world_size := 1;
              RingComm._reqs := None; RingComm.send_rank := 0;
              RingComm.recv_rank := 0 |} _ () () ()).
  reflexivity.
Defined.

(** C3, as the spec words it, fails for the all-gather scheduler: [wait]
    before anything was issued returns normally. *)
Lemma gather_wait_before_issue_returns :
  AllGatherComm.wait (Handle := unit) (World := unit) (Group := unit)
    (fun _ w => Ok w) (AllGatherComm.init None) ()
  = Ok (AllGatherComm.init None, ()) /\
  forall e,
    AllGatherComm.wait (Handle := unit) (World := unit) (Group := unit)
      (fun _ w => Ok w) (AllGatherComm.init None) ()
    <> Raise e.
Proof. split; [ reflexivity | discriminate ]. Qed.

(** ** OnlineSoftmaxMerger *)

Section MergeScalar.
Import Torch Merge.
Local Open Scope R_scope.

Lemma sigmoid_ratio (a b : R) : sigmoid (a - b) = exp a / (exp a + exp b).
Proof.
  unfold sigmoid.
  replace (- (a - b)) with (b + - a) by lra.
  rewrite exp_plus, exp_Ropp.
  pose proof (exp_pos a). pose proof (exp_pos b).
  field. split; [ lra | ].
  intros Hz. assert (exp a + exp b = 0) by lra. lra.
Qed.

(** Line 696 is the convex combination weighted by the two softmax masses. *)
Lemma out_entry_convex (out lse block_out block_lse : R) :
  out_entry out lse block_out block_lse
  = (exp lse * out + exp block_lse * block_out) / (exp lse + exp block_lse).
Proof.
  unfold out_entry. rewrite sigmoid_ratio.
  pose proof (exp_pos lse). pose proof (exp_pos block_lse).
  field. lra.
Qed.

(** Line 697 is the logarithm of the sum of the two masses. *)
Lemma lse_entry_logsumexp (lse block_lse : R) :
  lse_entry lse block_lse = ln (exp lse + exp block_lse).
Proof.
  unfold lse_entry, logsigmoid. rewrite sigmoid_ratio.
  pose proof (exp_pos lse). pose proof (exp_pos block_lse).
  unfold Rdiv. rewrite ln_mult, ln_Rinv, ln_exp; try lra.
  apply Rinv_0_lt_compat. lra.
Qed.

Lemma softmax_mass_app (a b : list (R * R)) :
  softmax_mass (a ++ b) = softmax_mass a + softmax_mass b.
Proof.
  unfold softmax_mass. induction a as [ | p a IH ]; simpl; [ lra | ].
  rewrite IH. lra.
Qed.

Lemma weighted_values_app (a b : list (R * R)) :
  weighted_values (a ++ b) = weighted_values a + weighted_values b.
Proof.
  unfold weighted_values. induction a as [ | p a IH ]; simpl; [ lra | ].
  rewrite IH. lra.
Qed.

Lemma softmax_mass_nonneg (a : list (R * R)) : 0 <= softmax_mass a.
Proof.
  unfold softmax_mass. induction a as [ | p a IH ]; simpl; [ lra | ].
  pose proof (exp_pos p.1). lra.
Qed.

Lemma softmax_mass_pos (a : list (R * R)) : a <> [] -> 0 < softmax_mass a.
Proof.
  destruct a as [ | p a ]; [ done | ]. intros _.
  change (0 < exp p.1 + softmax_mass a).
  pose proof (exp_pos p.1). pose proof (softmax_mass_nonneg a). lra.
Qed.

(** Merging the results of two blocks gives the result over their keys
    taken together. *)
Lemma merge_entry_attention (a b : list (R * R)) :
  a <> [] -> b <> [] ->
  merge_entry (attention a) (attention b) = attention (a ++ b).
Proof.
  intros Ha Hb.
  pose proof (softmax_mass_pos a Ha). pose proof (softmax_mass_pos b Hb).
  unfold merge_entry, attention. simpl.
  rewrite out_entry_convex, lse_entry_logsumexp.
  rewrite !exp_ln by done.
  rewrite softmax_mass_app, weighted_values_app.
  f_equal. field. lra.
Qed.

Lemma merge_blocks_attention (first : list (R * R)) (rest : list (list (R * R))) :
  first <> [] -> Forall (fun b => b <> []) rest ->
  merge_blocks (attention first) (attention <$> rest)
  = attention (first ++ concat rest).
Proof.
  unfold merge_blocks. intros Hf Hr. revert first Hf.
  induction Hr as [ | b rest Hb Hr IH ]; intros first Hf; simpl.
  - by rewrite app_nil_r.
  - rewrite merge_entry_attention by done.
    rewrite IH by (destruct first; done).
    by rewrite app_assoc.
Qed.
End MergeScalar.

Section MergeTensor.
Import Torch Merge.
Local Open Scope R_scope.

Lemma collect_zip_with {A B C : Type} (f : A -> B -> result C) (g : A -> B -> C)
    (l1 : list A) (l2 : list B) :
  (forall (i : nat) x y, l1 !! i = Some x -> l2 !! i = Some y -> f x y = Ok (g x y)) ->
  collect (zip_with f l1 l2) = Ok (zip_with g l1 l2).
Proof.
  revert l2. induction l1 as [ | x l1 IH ]; intros [ | y l2 ] H; simpl; try done.
  rewrite (H O x y) by done. bind_step.
  rewrite IH; [ done | ].
  intros i x' y' Hx Hy. by apply (H (S i)).
Qed.

Lemma collect_fmap {A C : Type} (f : A -> result C) (g : A -> C) (l : list A) :
  (forall x, x ∈ l -> f x = Ok (g x)) -> collect (f <$> l) = Ok (g <$> l).
Proof.
  induction l as [ | x l IH ]; intros H; [ done | ].
  rewrite !fmap_cons. cbn [collect].
  rewrite (H x) by apply list_elem_of_here. bind_step.
  rewrite IH; [ done | ]. intros y Hy. apply H. by apply list_elem_of_further.
Qed.

Lemma bzip_same_length {A B C : Type} (f : A -> B -> result C) (g : A -> B -> C)
    (l1 : list A) (l2 : list B) :
  length l1 = length l2 ->
  (forall (i : nat) x y, l1 !! i = Some x -> l2 !! i = Some y -> f x y = Ok (g x y)) ->
  bzip f l1 l2 = Ok (zip_with g l1 l2).
Proof.
  intros Hlen H. unfold bzip. rewrite decide_True by done.
  by apply collect_zip_with.
Qed.

(** A single entry on the left is repeated along the right operand. *)
Lemma bzip_single_l (op : R -> R -> R) (v : R) (ys : list R) :
  bzip (fun x y => Ok (op x y)) [v] ys = Ok (op v <$> ys).
Proof.
  unfold bzip. case_decide as Hlen.
  - destruct ys as [ | y [ | ? ? ] ]; simpl in Hlen; try discriminate. done.
  - by apply collect_fmap.
Qed.

Lemma shape3_lookup {A : Type} (t : list (list (list A))) (n h d i : nat) row :
  shape3 t n h d -> t !! i = Some row ->
  length row = h /\ Forall (fun e => length e = d) row.
Proof.
  intros [_ Hall] Hrow. rewrite Forall_lookup in Hall. by apply (Hall i).
Qed.

Lemma binop3_zip3 (op : R -> R -> R) (a b : tensor3) (n h d : nat) :
  shape3 a n h d -> shape3 b n h d -> binop3 op a b = Ok (zip3 op a b).
Proof.
  intros Ha Hb. unfold binop3, zip3.
  apply bzip_same_length; [ destruct Ha, Hb; congruence | ].
  intros i ra rb Hra Hrb.
  destruct (shape3_lookup _ _ _ _ _ _ Ha Hra) as [Hla Hea].
  destruct (shape3_lookup _ _ _ _ _ _ Hb Hrb) as [Hlb Heb].
  apply bzip_same_length; [ congruence | ].
  intros j ea eb Hja Hjb.
  rewrite Forall_lookup in Hea, Heb.
  apply bzip_same_length; [ | done ].
  rewrite (Hea j ea Hja), (Heb j eb Hjb). done.
Qed.

Lemma binop3_scale3 (op : R -> R -> R) (s x : tensor3) (n h d : nat) :
  shape3 s n h 1 -> shape3 x n h d -> binop3 op s x = Ok (scale3 op s x).
Proof.
  intros Hs Hx. unfold binop3, scale3.
  apply bzip_same_length; [ destruct Hs, Hx; congruence | ].
  intros i rs rx Hrs Hrx.
  destruct (shape3_lookup _ _ _ _ _ _ Hs Hrs) as [Hls Hes].
  destruct (shape3_lookup _ _ _ _ _ _ Hx Hrx) as [Hlx Hex].
  apply bzip_same_length; [ congruence | ].
  intros j es ex Hjs Hjx.
  rewrite Forall_lookup in Hes. specialize (Hes j es Hjs).
  destruct es as [ | v [ | ? ? ] ]; simpl in Hes; try discriminate.
  apply bzip_single_l.
Qed.

Lemma shape3_zip3 (op : R -> R -> R) (a b : tensor3) (n h d : nat) :
  shape3 a n h d -> shape3 b n h d -> shape3 (zip3 op a b) n h d.
Proof.
  intros Ha Hb. unfold zip3. split.
  - rewrite length_zip_with. destruct Ha, Hb. lia.
  - apply Forall_lookup. intros i row Hrow.
    apply lookup_zip_with_Some in Hrow as (ra & rb & -> & Hra & Hrb).
    destruct (shape3_lookup _ _ _ _ _ _ Ha Hra) as [Hla Hea].
    destruct (shape3_lookup _ _ _ _ _ _ Hb Hrb) as [Hlb Heb].
    split; [ rewrite length_zip_with; lia | ].
    apply Forall_lookup. intros j e He.
    apply lookup_zip_with_Some in He as (ea & eb & -> & Hja & Hjb).
    rewrite Forall_lookup in Hea, Heb.
    rewrite length_zip_with, (Hea j ea Hja), (Heb j eb Hjb). lia.
Qed.

Lemma shape3_scale3 (op : R -> R -> R) (s x : tensor3) (n h d : nat) :
  shape3 s n h 1 -> shape3 x n h d -> shape3 (scale3 op s x) n h d.
Proof.
  intros Hs Hx. unfold scale3. split.
  - rewrite length_zip_with. destruct Hs, Hx. lia.
  - apply Forall_lookup. intros i row Hrow.
    apply lookup_zip_with_Some in Hrow as (rs & rx & -> & Hrs & Hrx).
    destruct (shape3_lookup _ _ _ _ _ _ Hs Hrs) as [Hls Hes].
    destruct (shape3_lookup _ _ _ _ _ _ Hx Hrx) as [Hlx Hex].
    split; [ rewrite length_zip_with; lia | ].
    apply Forall_lookup. intros j e He.
    apply lookup_zip_with_Some in He as (es & ex & -> & Hjs & Hjx).
    rewrite Forall_lookup in Hes, Hex. specialize (Hes j es Hjs).
    destruct es as [ | v [ | ? ? ] ]; simpl in Hes; try discriminate.
    rewrite length_fmap. by apply (Hex j).
Qed.

Lemma shape3_map3 (f : R -> R) (t : tensor3) (n h d : nat) :
  shape3 t n h d -> shape3 (map3 f t) n h d.
Proof.
  intros [Hn Hall]. unfold map3. split; [ by rewrite length_fmap | ].
  apply Forall_fmap. eapply Forall_impl; [ exact Hall | ].
  intros row [Hh He]. simpl. split; [ by rewrite length_fmap | ].
  apply Forall_fmap. eapply Forall_impl; [ exact He | ].
  intros e Hd. simpl. by rewrite length_fmap.
Qed.
End MergeTensor.

Section MergeEntries.
Import Torch Merge.
Local Open Scope R_scope.

Lemma entry_Some {A : Type} (t : list (list (list A))) (i j k : nat) (x : A) :
  entry t i j k = Some x <->
  exists row e, t !! i = Some row /\ row !! j = Some e /\ e !! k = Some x.
Proof.
  unfold entry. split.
  - destruct (t !! i) as [ row | ]; simpl; [ | done ].
    destruct (row !! j) as [ e | ] eqn:He; simpl; [ | done ].
    intros Hx. by exists row, e.
  - intros (row & e & -> & Hj & Hk). simpl. rewrite Hj. simpl. done.
Qed.

Lemma entry_zip3 (op : R -> R -> R) (a b : tensor3) (i j k : nat) (x y : R) :
  entry a i j k = Some x -> entry b i j k = Some y ->
  entry (zip3 op a b) i j k = Some (op x y).
Proof.
  rewrite !entry_Some.
  intros (ra & ea & Hra & Hea & Hx) (rb & eb & Hrb & Heb & Hy).
  exists (zip_with (zip_with op) ra rb), (zip_with op ea eb).
  unfold zip3. rewrite !lookup_zip_with, Hra, Hrb, Hea, Heb, Hx, Hy. done.
Qed.

Lemma entry_scale3 (op : R -> R -> R) (s x : tensor3) (n h i j k : nat) (v y : R) :
  shape3 s n h 1 ->
  entry s i j O = Some v -> entry x i j k = Some y ->
  entry (scale3 op s x) i j k = Some (op v y).
Proof.
  intros Hs. rewrite !entry_Some.
  intros (rs & es & Hrs & Hes & Hv) (rx & ex & Hrx & Hex & Hy).
  destruct (shape3_lookup _ _ _ _ _ _ Hs Hrs) as [_ Hall].
  rewrite Forall_lookup in Hall. specialize (Hall j es Hes).
  destruct es as [ | v' [ | ? ? ] ]; simpl in Hall; try discriminate.
  injection Hv as ->.
  eexists _, (op v <$> ex).
  unfold scale3. rewrite !lookup_zip_with, Hrs, Hrx. simpl.
  split; [ done | ]. rewrite lookup_zip_with, Hes, Hex. simpl.
  split; [ done | ]. by rewrite list_lookup_fmap, Hy.
Qed.

Lemma entry_map3 (f : R -> R) (t : tensor3) (i j k : nat) (x : R) :
  entry t i j k = Some x -> entry (map3 f t) i j k = Some (f x).
Proof.
  rewrite !entry_Some. intros (row & e & Hrow & He & Hx).
  eexists _, (f <$> e). unfold map3.
  rewrite list_lookup_fmap, Hrow. simpl. split; [ done | ].
  rewrite list_lookup_fmap, He. simpl. split; [ done | ].
  by rewrite list_lookup_fmap, Hx.
Qed.

Lemma entry_unsqueeze {A : Type} (m : list (list A)) (i j : nat) (v : A) :
  (row ← m !! i; row !! j) = Some v -> entry (unsqueeze m) i j O = Some v.
Proof.
  intros H. destruct (m !! i) as [ row | ] eqn:Hrow; simpl in H; [ | done ].
  apply entry_Some. eexists _, [v]. unfold unsqueeze.
  rewrite list_lookup_fmap, Hrow. simpl. split; [ done | ].
  by rewrite list_lookup_fmap, H.
Qed.

Lemma shape3_unsqueeze {A : Type} (m : list (list A)) (n h : nat) :
  shape2 m n h -> shape3 (unsqueeze m) n h 1.
Proof.
  intros [Hn Hall]. unfold unsqueeze. split; [ by rewrite length_fmap | ].
  apply Forall_fmap. eapply Forall_impl; [ exact Hall | ].
  intros row Hh. simpl. split; [ by rewrite length_fmap | ].
  apply Forall_fmap. by apply Forall_true.
Qed.

Lemma transpose_shape {A : Type} (m : list (list A)) (h n : nat) :
  shape2 m h n -> (0 < h)%nat -> shape2 (transpose m) n h.
Proof.
  revert h. induction m as [ | row m IH ]; intros h [Hh Hall] Hpos.
  - simpl in Hh. lia.
  - apply Forall_cons in Hall as [Hrow Hall].
    destruct m as [ | r' m' ].
    + simpl in *. split; [ by rewrite length_fmap | ].
      apply Forall_fmap, Forall_true. intros x. simpl. lia.
    + destruct (IH (length (r' :: m'))) as [Hn Hcols]; [ done | simpl; lia | ].
      change (transpose (row :: r' :: m'))
        with (zip_with cons row (transpose (r' :: m'))).
      split; [ rewrite length_zip_with; lia | ].
      apply Forall_lookup. intros i col Hcol.
      apply lookup_zip_with_Some in Hcol as (x & col' & -> & Hx & Hcol').
      rewrite Forall_lookup in Hcols. specialize (Hcols i col' Hcol').
      simpl in *. lia.
Qed.

Lemma transpose_lookup {A : Type} (m : list (list A)) (h n i j : nat) (v : A) :
  shape2 m h n ->
  (row ← m !! j; row !! i) = Some v ->
  (col ← transpose m !! i; col !! j) = Some v.
Proof.
  revert h j. induction m as [ | row m IH ]; intros h j Hm Hv; [ done | ].
  destruct Hm as [Hh Hall]. apply Forall_cons in Hall as [Hrow Hall].
  destruct m as [ | r' m' ].
  - destruct j as [ | j ]; simpl in Hv; [ | done ].
    simpl. rewrite list_lookup_fmap, Hv. done.
  - change (transpose (row :: r' :: m'))
      with (zip_with cons row (transpose (r' :: m'))).
    assert (shape2 (r' :: m') (length (r' :: m')) n) as Hm' by done.
    pose proof (transpose_shape _ _ _ Hm' ltac:(simpl; lia)) as [Hn _].
    rewrite lookup_zip_with.
    destruct j as [ | j ]; simpl in Hv.
    + assert (i < length (transpose (r' :: m')))%nat as Hi.
      { rewrite Hn, <- Hrow. by eapply lookup_lt_Some. }
      destruct (lookup_lt_is_Some_2 _ _ Hi) as [col' Hcol'].
      rewrite Hv, Hcol'. done.
    + specialize (IH _ j Hm' Hv).
      destruct (transpose (r' :: m') !! i) as [ col' | ] eqn:Hcol'; [ | done ].
      assert (i < length row)%nat as Hi.
      { rewrite Hrow, <- Hn. by eapply lookup_lt_Some. }
      destruct (lookup_lt_is_Some_2 _ _ Hi) as [x Hx].
      rewrite Hx. done.
Qed.
End MergeEntries.

Section MergeClaims.
Import Torch Merge.
Local Open Scope R_scope.

(** The jitted merger on tensors of matching shapes: it returns, and every
    entry of its result is the entrywise formula applied to the entries of
    its arguments ([block_lse] read transposed). *)
Lemma _update_out_and_lse_entries
    (out lse block_out : tensor3) (block_lse : tensor2) (n h d : nat) :
  shape3 out n h d -> shape3 lse n h 1 -> shape3 block_out n h d ->
  shape2 block_lse h n -> (0 < h)%nat ->
  exists out' lse',
    _update_out_and_lse out lse block_out block_lse = Ok (out', lse') /\
    shape3 out' n h d /\ shape3 lse' n h 1 /\
    forall (i j k : nat) (o l b c : R),
      entry out i j k = Some o -> entry lse i j O = Some l ->
      entry block_out i j k = Some b -> (row ← block_lse !! j; row !! i) = Some c ->
      entry out' i j k = Some (out_entry o l b c) /\
      entry lse' i j O = Some (lse_entry l c).
Proof.
  intros Hout Hlse Hbo Hbl Hh.
  pose proof (shape3_unsqueeze _ _ _ (transpose_shape _ _ _ Hbl Hh)) as HB.
  set (B := unsqueeze (transpose block_lse)) in *.
  set (d1 := zip3 Rminus B lse).
  set (e := zip3 Rminus out block_out).
  set (p := scale3 Rmult (map3 sigmoid d1) e).
  set (g := zip3 Rminus lse B).
  assert (shape3 d1 n h 1) as Hd1 by by apply shape3_zip3.
  assert (shape3 e n h d) as He by by apply shape3_zip3.
  assert (shape3 p n h d) as Hp.
  { apply shape3_scale3; [ by apply shape3_map3 | done ]. }
  assert (shape3 g n h 1) as Hg by by apply shape3_zip3.
  exists (zip3 Rminus out p), (zip3 Rminus lse (map3 logsigmoid g)).
  split; [ | split; [ | split ] ].
  - unfold _update_out_and_lse. fold B.
    rewrite (binop3_zip3 _ B lse n h 1) by done. bind_step. fold d1.
    rewrite (binop3_zip3 _ out block_out n h d) by done. bind_step. fold e.
    rewrite (binop3_scale3 _ _ e n h d) by (by try apply shape3_map3). bind_step.
    fold p.
    rewrite (binop3_zip3 _ out p n h d) by done. bind_step.
    rewrite (binop3_zip3 _ lse B n h 1) by done. bind_step. fold g.
    rewrite (binop3_zip3 _ lse _ n h 1) by (by try apply shape3_map3). done.
  - by apply shape3_zip3.
  - by apply shape3_zip3, shape3_map3.
  - intros i j k o l b c Ho Hl Hb Hc.
    assert (entry B i j O = Some c) as HBc.
    { apply entry_unsqueeze. by eapply transpose_lookup. }
    split.
    + unfold out_entry. apply entry_zip3; [ done | ].
      eapply entry_scale3; [ by apply shape3_map3 | | ].
      * by apply entry_map3, entry_zip3.
      * by apply entry_zip3.
    + unfold lse_entry. apply entry_zip3; [ done | ].
      by apply entry_map3, entry_zip3.
Qed.

End MergeClaims.

Section MergeStore.
Import Torch Merge.

Lemma collect_length {A : Type} (l : list (result A)) (r : list A) :
  collect l = Ok r -> length r = length l.
Proof.
  revert r. induction l as [ | m l IH ]; intros r H; simpl in H.
  - by injection H as <-.
  - bind_ok H. bind_ok H. injection H as <-. simpl. f_equal. by apply IH.
Qed.

Lemma bcopy_length {A B : Type} (f : A -> B -> result A)
    (dst : list A) (src : list B) (new : list A) :
  bcopy f dst src = Ok new -> length new = length dst.
Proof.
  unfold bcopy. case_decide as Hlen.
  - intros H. apply collect_length in H. rewrite length_zip_with in H. lia.
  - destruct src as [ | y [ | ? ? ] ]; try discriminate.
    intros H. apply collect_length in H. by rewrite length_fmap in H.
Qed.

Lemma clamp_le (len : nat) (dflt : Z) (b : option Z) :
  (0 <= dflt <= Z.of_nat len)%Z -> (Py.clamp len dflt b <= len)%nat.
Proof.
  intros Hd. unfold Py.clamp. destruct b as [ i | ]; [ | lia ].
  case_decide; lia.
Qed.

(** Writing through a slice keeps the number of rows and every row
    outside the slice. *)
Lemma setslice_frame (t v t' : tensor3) (s : pyslice) :
  setslice t s v = Ok t' ->
  length t' = length t /\
  forall i : nat, ~ (slice_start t s <= i < slice_stop t s)%nat -> t' !! i = t !! i.
Proof.
  unfold setslice. intros H. bind_ok H. injection H as <-.
  apply bcopy_length in E. rewrite length_take, length_drop in E.
  pose proof (clamp_le (length t) 0 s.1 ltac:(lia)) as Ha.
  pose proof (clamp_le (length t) (Z.of_nat (length t)) s.2 ltac:(lia)) as Hb.
  fold (slice_start t s) in Ha. fold (slice_stop t s) in Hb.
  set (a0 := slice_start t s) in *. set (b0 := slice_stop t s) in *.
  split.
  - rewrite !length_app, length_take, length_drop. lia.
  - intros i Hi.
    destruct (decide (i < a0)%nat).
    + rewrite lookup_app_l by (rewrite length_take; lia).
      apply lookup_take_lt. lia.
    + rewrite lookup_app_r by (rewrite length_take; lia).
      rewrite lookup_app_r by (rewrite length_take; lia).
      rewrite lookup_drop, length_take. f_equal. lia.
Qed.


End MergeStore.

Section MergeWitnesses.
Import Torch Merge.
Local Open Scope R_scope.


End MergeWitnesses.


(** ** VarlenLseLayoutConverter *)

Section LseLists.
Import Torch VarlenLse.
Context {A : Type}.

Lemma slice_prefix (l : list A) (n : Z) :
  0 <= n -> Py.slice l None (Some n) = take (Z.to_nat n) l.
Proof.
  intros Hn. unfold Py.slice, Py.clamp. rewrite decide_False by lia.
  change (Z.to_nat 0) with O. rewrite drop_0, Nat.sub_0_r.
  destruct (decide (n <= Z.of_nat (length l))).
  - by rewrite Z.min_l by lia.
  - rewrite Z.min_r, Nat2Z.id by lia.
    rewrite !take_ge; [ done | lia | lia ].
Qed.

(** Where the entries of the [i]-th list land in the concatenation. *)
Lemma lookup_concat_offset (ls : list (list A)) (i p : nat) (l : list A) (v : A) :
  ls !! i = Some l -> l !! p = Some v ->
  concat ls !! (sum_list (length <$> take i ls) + p)%nat = Some v.
Proof.
  revert i. induction ls as [ | l0 ls IH ]; intros i Hl Hv; [ done | ].
  destruct i as [ | i ]; simpl in *.
  - injection Hl as ->. rewrite lookup_app_l; [ done | by eapply lookup_lt_Some ].
  - rewrite lookup_app_r by lia.
    specialize (IH i Hl Hv). unfold fmap in IH.
    match goal with
    | |- concat ls !! ?k = _ =>
        match type of IH with
        | concat ls !! ?k' = _ => replace k with k' by lia
        end
    end.
    exact IH.
Qed.

Lemma concat_length_sum (ls : list (list A)) :
  length (concat ls) = sum_list (length <$> ls).
Proof.
  induction ls as [ | l ls IH ]; [ done | ].
  simpl. rewrite length_app, IH. done.
Qed.

Lemma cat_dim1_rows (blocks : list (list (list A))) (h : nat) :
  blocks <> [] -> Forall (fun b => length b = h) blocks ->
  cat_dim1 blocks
  = Ok ((fun j => concat ((fun b : list (list A) => default [] (b !! j)) <$> blocks))
          <$> seq 0 h).
Proof.
  intros Hne Hall. induction Hall as [ | b blocks Hb Hall IH ]; [ done | ].
  assert (b = (fun j => default [] (b !! j)) <$> seq 0 h) as Hself.
  { apply list_eq. intros j. rewrite list_lookup_fmap.
    destruct (decide (j < h)%nat).
    - rewrite lookup_seq_lt by done. simpl.
      destruct (lookup_lt_is_Some_2 b j ltac:(lia)) as [row Hrow].
      by rewrite Hrow.
    - rewrite lookup_seq_ge by lia. simpl. apply lookup_ge_None. lia. }
  destruct blocks as [ | b' blocks ].
  - simpl. f_equal. rewrite Hself at 1.
    apply list_fmap_ext. intros _ j _. by rewrite app_nil_r.
  - change (cat_dim1 (b :: b' :: blocks))
      with (r ← cat_dim1 (b' :: blocks);
            if decide (length b = length r) then Ok (zip_with app b r)
            else Raise ShapeError).
    rewrite IH by done. bind_step.
    rewrite decide_True by (by rewrite length_fmap, length_seq).
    f_equal. apply list_eq. intros j.
    rewrite lookup_zip_with, !list_lookup_fmap.
    destruct (decide (j < h)%nat).
    + rewrite lookup_seq_lt by done. simpl.
      destruct (lookup_lt_is_Some_2 b j ltac:(lia)) as [row Hrow].
      by rewrite Hrow.
    + rewrite lookup_seq_ge by lia. simpl.
      rewrite (proj2 (lookup_ge_None b j)) by lia. done.
Qed.

Lemma collect_imap {B : Type} (f : nat -> A -> result B) (g : nat -> A -> B) (l : list A) :
  (forall (i : nat) x, l !! i = Some x -> f i x = Ok (g i x)) ->
  collect (imap f l) = Ok (imap g l).
Proof.
  revert f g. induction l as [ | x l IH ]; intros f g H; simpl; [ done | ].
  rewrite (H O x) by done. bind_step.
  rewrite (IH (f ∘ S) (g ∘ S)); [ done | ].
  intros i y Hy. by apply (H (S i)).
Qed.
End LseLists.

Section Offsets.
Import Partition VarlenLse.

Lemma nondecreasing_step (cu : list Z) (i : nat) (a b : Z) :
  nondecreasing cu -> cu !! i = Some a -> cu !! S i = Some b -> a <= b.
Proof.
  revert i. induction cu as [ | x cu IH ]; intros i Hnd Ha Hb; [ done | ].
  destruct cu as [ | y cu ]; [ done | ].
  destruct Hnd as [Hxy Hnd].
  destruct i as [ | i ]; simpl in *.
  - injection Ha as <-. injection Hb as <-. done.
  - by apply (IH i).
Qed.

Lemma seq_len_nonneg (cu : list Z) (i : nat) :
  nondecreasing cu -> (S i < length cu)%nat -> 0 <= seq_len cu i.
Proof.
  intros Hnd Hi. unfold seq_len.
  destruct (lookup_lt_is_Some_2 cu i ltac:(lia)) as [a Ha].
  destruct (lookup_lt_is_Some_2 cu (S i) ltac:(lia)) as [b Hb].
  rewrite Ha, Hb. simpl. pose proof (nondecreasing_step _ _ _ _ Hnd Ha Hb). lia.
Qed.

Lemma boundary_nonneg (cu : list Z) (i : nat) :
  head cu = Some 0 -> nondecreasing cu -> 0 <= default 0 (cu !! i).
Proof.
  intros Hhead Hnd. induction i as [ | i IH ].
  - rewrite <- head_lookup, Hhead. done.
  - destruct (cu !! S i) as [ b | ] eqn:Hb; simpl; [ | lia ].
    destruct (lookup_lt_is_Some_2 cu i) as [a Ha].
    { apply lookup_lt_Some in Hb. lia. }
    rewrite Ha in IH. simpl in IH.
    pose proof (nondecreasing_step _ _ _ _ Hnd Ha Hb). lia.
Qed.

Lemma boundary_succ (cu : list Z) (i : nat) :
  head cu = Some 0 -> nondecreasing cu -> (S i < length cu)%nat ->
  boundary cu (S i) = (boundary cu i + Z.to_nat (seq_len cu i))%nat.
Proof.
  intros Hhead Hnd Hi. unfold boundary.
  pose proof (seq_len_nonneg cu i Hnd Hi) as Hlen.
  pose proof (boundary_nonneg cu i Hhead Hnd) as Hb.
  unfold seq_len in *. lia.
Qed.
End Offsets.

Section FlattenFacts.
Import Torch Partition VarlenLse.
Context {V : Type}.
Variables (lse : list (list (list V))) (cu : list Z) (nheads max_len : nat).
Hypothesis Hvalid : valid_batch lse cu nheads max_len.

Abbreviation gblock := (block lse cu).
Abbreviation pieces := (VarlenLse.pieces lse cu).

Lemma getitem_boundary (i : nat) :
  (i < length cu)%nat -> Py.getitem cu (Z.of_nat i) = Ok (default 0 (cu !! i)).
Proof.
  intros Hi. destruct (lookup_lt_is_Some_2 cu i Hi) as [a Ha].
  rewrite Ha. by apply getitem_nonneg.
Qed.

Lemma flatten_body_block (i : nat) :
  (i < length lse)%nat -> flatten_body lse cu i = Ok (gblock i).
Proof.
  destruct Hvalid as (Hhead & Hnd & Hlen & Hne & Hshape & Hh & Hfit).
  intros Hi. unfold flatten_body.
  rewrite getitem_boundary by lia. bind_step.
  replace (Z.of_nat i + 1) with (Z.of_nat (S i)) by lia.
  rewrite getitem_boundary by lia. bind_step.
  destruct (lookup_lt_is_Some_2 lse i Hi) as [lse_i Hlse].
  rewrite (getitem_nonneg _ _ _ Hlse). bind_step.
  unfold block. rewrite Hlse. simpl. f_equal.
  apply list_fmap_ext. intros _ row _.
  apply slice_prefix. apply (seq_len_nonneg cu i Hnd). lia.
Qed.

Lemma pieces_lookup (i h : nat) (row : list V) :
  (i < length lse)%nat -> (row0 ← lse !! i; row0 !! h) = Some row ->
  pieces h !! i = Some (take (Z.to_nat (seq_len cu i)) row) /\
  length (take (Z.to_nat (seq_len cu i)) row) = Z.to_nat (seq_len cu i).
Proof.
  destruct Hvalid as (Hhead & Hnd & Hlen & Hne & Hshape & Hh & Hfit).
  intros Hi Hrow. unfold VarlenLse.pieces.
  rewrite list_lookup_fmap, lookup_seq_lt by done. simpl.
  destruct (lse !! i) as [ lse_i | ] eqn:Hlse; simpl in Hrow; [ | done ].
  unfold block. rewrite Hlse. simpl. rewrite list_lookup_fmap, Hrow. simpl.
  split; [ done | ].
  destruct (shape3_lookup _ _ _ _ _ _ Hshape Hlse) as [_ Hall].
  rewrite Forall_lookup in Hall. specialize (Hall h row Hrow).
  rewrite length_take, Hall. specialize (Hfit i Hi).
  pose proof (seq_len_nonneg cu i Hnd ltac:(lia)). lia.
Qed.

(** The pieces before sequence [i] fill the packed row up to its boundary. *)
Lemma pieces_prefix (h i : nat) :
  (h < nheads)%nat -> (i <= length lse)%nat ->
  sum_list (length <$> take i (pieces h)) = boundary cu i.
Proof.
  destruct Hvalid as (Hhead & Hnd & Hlen & Hne & Hshape & Hh & Hfit).
  intros Hlt. induction i as [ | i IH ]; intros Hi.
  - unfold boundary. rewrite <- head_lookup, Hhead. done.
  - destruct (lookup_lt_is_Some_2 lse i ltac:(lia)) as [lse_i Hlse].
    destruct (shape3_lookup _ _ _ _ _ _ Hshape Hlse) as [Hrows _].
    destruct (lookup_lt_is_Some_2 lse_i h ltac:(lia)) as [row Hrow].
    destruct (pieces_lookup i h row ltac:(lia)) as [Hp Hl].
    { by rewrite Hlse. }
    rewrite (take_S_r _ _ _ Hp), fmap_app, sum_list_with_app, IH by lia.
    simpl. rewrite Hl, boundary_succ by (done || lia). lia.
Qed.

Lemma flatten_packed :
  exists packed,
    flatten_varlen_lse lse cu = Ok packed /\
    shape2 packed nheads (boundary cu (length lse)) /\
    forall (i h p : nat) (v : V),
      (i < length lse)%nat -> (p < Z.to_nat (seq_len cu i))%nat ->
      entry lse i h p = Some v ->
      (row ← packed !! h; row !! (boundary cu i + p)%nat) = Some v.
Proof.
  pose proof Hvalid as (Hhead & Hnd & Hlen & Hne & Hshape & Hh & Hfit).
  exists ((fun h => concat (pieces h)) <$> seq 0 nheads).
  split; [ | split ].
  - unfold flatten_varlen_lse. rewrite Hlen. simpl. rewrite Nat.sub_0_r.
    rewrite (collect_fmap _ gblock).
    2:{ intros i Hi. apply elem_of_seq in Hi. apply flatten_body_block. lia. }
    bind_step.
    rewrite (cat_dim1_rows _ nheads).
    + f_equal. apply list_fmap_ext. intros _ h _.
      unfold VarlenLse.pieces. by rewrite <- list_fmap_compose.
    + destruct lse; [ done | ]. simpl. done.
    + apply Forall_fmap, Forall_forall. intros i Hi. apply elem_of_seq in Hi.
      simpl. unfold block. rewrite length_fmap.
      destruct (lookup_lt_is_Some_2 lse i ltac:(lia)) as [lse_i Hlse].
      rewrite Hlse. simpl. by destruct (shape3_lookup _ _ _ _ _ _ Hshape Hlse).
  - split; [ by rewrite length_fmap, length_seq | ].
    apply Forall_fmap, Forall_forall. intros h Hin. apply elem_of_seq in Hin.
    simpl. rewrite concat_length_sum.
    rewrite <- (pieces_prefix h (length lse)) by lia.
    rewrite take_ge; [ done | ].
    unfold VarlenLse.pieces. rewrite length_fmap, length_seq. lia.
  - intros i h p v Hi Hp Hv.
    apply entry_Some in Hv as (lse_i & row & Hlse & Hrow & Hv).
    destruct (shape3_lookup _ _ _ _ _ _ Hshape Hlse) as [Hrows _].
    assert (h < nheads)%nat as Hlt by (rewrite <- Hrows; by eapply lookup_lt_Some).
    rewrite list_lookup_fmap, lookup_seq_lt by done. simpl.
    destruct (pieces_lookup i h row Hi) as [Hpiece Hl].
    { by rewrite Hlse. }
    rewrite <- (pieces_prefix h i) by lia.
    eapply lookup_concat_offset; [ exact Hpiece | ].
    rewrite lookup_take_lt by lia. done.
Qed.
End FlattenFacts.

Section UnflattenUnfold.
Import Torch VarlenLse.
Context {V : Type}.
Variable uninit : nat -> nat -> nat -> V.

(** [unflatten_varlen_lse] past its allocation. *)
Lemma unflatten_unfold (lse : packed) (cu : list Z) (num_seq : nat) (max_seqlen : Z) :
  length cu = S num_seq -> 0 <= max_seqlen ->
  unflatten_varlen_lse uninit lse cu max_seqlen
  = (new_lse ← collect (imap (unflatten_body lse cu)
                  (torch_empty uninit num_seq (Z.to_nat max_seqlen) (shape_m2 lse)));
     Ok ((fun m : list (list V) => transpose m) <$> (new_lse : list (list (list V))))).
Proof.
  intros Hlen Hmax. unfold unflatten_varlen_lse.
  destruct cu as [ | c0 cu' ]; [ done | ].
  rewrite decide_False by lia. rewrite Hlen. simpl. by rewrite Nat.sub_0_r.
Qed.
End UnflattenUnfold.

Section UnflattenFacts.
Import Torch Partition VarlenLse.
Context {V : Type}.
Variable uninit : nat -> nat -> nat -> V.
Variables (acc : list (list (list V))) (cu : list Z)
  (num_seq nheads : nat) (max_seqlen : Z).
Hypothesis Hhead : head cu = Some 0.
Hypothesis Hnd : nondecreasing cu.
Hypothesis Hlen : length cu = S num_seq.
Hypothesis Hacc : shape3 acc (boundary cu num_seq) nheads 1.
Hypothesis Hfit : forall i : nat, (i < num_seq)%nat -> seq_len cu i <= max_seqlen.

Lemma bcopy_same_length {A B : Type} (f : A -> B -> result A) (g : A -> B -> A)
    (dst : list A) (src : list B) :
  length src = length dst ->
  (forall (i : nat) d x, dst !! i = Some d -> src !! i = Some x -> f d x = Ok (g d x)) ->
  bcopy f dst src = Ok (zip_with g dst src).
Proof.
  intros Hl H. unfold bcopy. rewrite decide_True by done.
  by apply collect_zip_with.
Qed.

Lemma boundary_mono (i j : nat) :
  (i <= j)%nat -> (j < length cu)%nat -> (boundary cu i <= boundary cu j)%nat.
Proof.
  intros Hij Hj. induction Hij as [ | j Hij IH ]; [ done | ].
  rewrite boundary_succ by done. specialize (IH ltac:(lia)). lia.
Qed.

Lemma shape_m2_acc (k : nat) (row : list (list V)) :
  acc !! k = Some row -> shape_m2 (Rank3 acc) = nheads.
Proof.
  intros Hk. destruct acc as [ | row0 acc' ] eqn:Eacc; [ done | ].
  simpl. rewrite <- Eacc in Hacc.
  assert (acc !! O = Some row0) as H0 by by rewrite Eacc.
  by destruct (shape3_lookup _ _ _ _ _ _ Hacc H0).
Qed.

Lemma torch_empty_lookup (s m h i : nat) :
  (i < s)%nat ->
  exists new_i, torch_empty uninit s m h !! i = Some new_i /\ shape2 new_i m h.
Proof.
  intros Hi. eexists. unfold torch_empty.
  rewrite list_lookup_fmap, lookup_seq_lt by done. simpl.
  split; [ done | ]. split; [ by rewrite length_fmap, length_seq | ].
  apply Forall_fmap, Forall_true. intros p. simpl.
  by rewrite length_fmap, length_seq.
Qed.

(** Iteration [i] on a buffer row of the allocated shape. *)
Lemma unflatten_body_written (i : nat) (new_i : list (list V)) :
  (i < num_seq)%nat ->
  shape2 new_i (Z.to_nat max_seqlen) (shape_m2 (Rank3 acc)) ->
  unflatten_body (Rank3 acc) cu i new_i = Ok (written acc cu i new_i).
Proof.
  intros Hi [Hrows Hcols]. unfold unflatten_body.
  rewrite getitem_boundary by lia. bind_step.
  replace (Z.of_nat i + 1) with (Z.of_nat (S i)) by lia.
  rewrite getitem_boundary by lia. bind_step.
  pose proof (seq_len_nonneg cu i Hnd ltac:(lia)) as Hn0.
  pose proof (boundary_nonneg cu i Hhead Hnd) as Hb0.
  pose proof (boundary_nonneg cu (S i) Hhead Hnd) as Hb1.
  pose proof (boundary_succ cu i Hhead Hnd ltac:(lia)) as Hsucc.
  pose proof (boundary_mono (S i) num_seq ltac:(lia) ltac:(lia)) as Hmono.
  specialize (Hfit i Hi).
  fold (seq_len cu i).
  set (n := Z.to_nat (seq_len cu i)) in *.
  assert (Py.clamp (length new_i) (Z.of_nat (length new_i)) (Some (seq_len cu i)) = n)
    as ->.
  { unfold Py.clamp. rewrite decide_False by lia. lia. }
  assert (rows (Rank3 acc) (default 0 (cu !! i)) (default 0 (cu !! S i))
          = take n (drop (boundary cu i) acc)) as ->.
  { unfold rows, boundary in *.
    rewrite <- (Z2Nat.id (default 0 (cu !! i))) at 1 by done.
    rewrite <- (Z2Nat.id (default 0 (cu !! S i))) by done.
    rewrite slice_inside by (destruct Hacc as [-> _]; unfold boundary; lia).
    f_equal. lia. }
  unfold written. fold n.
  destruct Hacc as [Hal Hall].
  unfold copy_rows.
  rewrite (bcopy_same_length _ (zip_with single_or)); [ done | | ].
  - rewrite !length_take, length_drop. lia.
  - intros p d srow Hd Hs.
    apply lookup_take_Some in Hd as [Hd _]. apply lookup_take_Some in Hs as [Hs _].
    rewrite lookup_drop in Hs.
    pose proof (shape_m2_acc _ _ Hs) as Hm2.
    rewrite Forall_lookup in Hcols. rewrite Forall_lookup in Hall.
    specialize (Hcols p d Hd). destruct (Hall _ _ Hs) as [Hsl Hsingle].
    apply bcopy_same_length; [ congruence | ].
    intros h d0 e _ He. rewrite Forall_lookup in Hsingle.
    specialize (Hsingle h e He).
    destruct e as [ | y [ | ? ? ] ]; simpl in Hsingle; try discriminate. done.
Qed.

Lemma written_shape (i : nat) (new_i : list (list V)) (m h : nat) :
  shape2 new_i m h ->
  Forall (fun row => length row = h)
    (take (Z.to_nat (seq_len cu i)) (drop (boundary cu i) acc)) ->
  (Z.to_nat (seq_len cu i) <= length (drop (boundary cu i) acc))%nat ->
  shape2 (written acc cu i new_i) m h.
Proof.
  intros [Hm Hcols] Hsrc Hn. unfold written.
  set (n := Z.to_nat (seq_len cu i)) in *.
  set (src := drop (boundary cu i) acc) in *. split.
  - rewrite length_app, length_zip_with, !length_take, length_drop. lia.
  - clear Hn. apply Forall_app. split; [ | by apply Forall_drop ].
    apply Forall_lookup. intros p row Hrow.
    apply lookup_zip_with_Some in Hrow as (d & srow & -> & Hd & Hs).
    apply lookup_take_Some in Hd as [Hd _].
    rewrite Forall_lookup in Hcols. rewrite Forall_lookup in Hsrc.
    rewrite length_zip_with, (Hcols p d Hd), (Hsrc p srow Hs). lia.
Qed.

Lemma unflatten_written :
  0 <= max_seqlen ->
  exists out,
    unflatten_varlen_lse uninit (Rank3 acc) cu max_seqlen = Ok out /\
    length out = num_seq /\
    forall (i h p : nat) (v : V),
      (i < num_seq)%nat -> (p < Z.to_nat (seq_len cu i))%nat ->
      entry acc (boundary cu i + p) h O = Some v ->
      entry out i h p = Some v.
Proof.
  intros Hmax.
  set (new_lse := torch_empty uninit num_seq (Z.to_nat max_seqlen) (shape_m2 (Rank3 acc))).
  exists ((fun m : list (list V) => transpose m) <$> imap (written acc cu) new_lse).
  assert (length new_lse = num_seq) as Hnl.
  { unfold new_lse, torch_empty. by rewrite length_fmap, length_seq. }
  split; [ | split ].
  - rewrite (unflatten_unfold _ _ _ num_seq) by done. fold new_lse.
    rewrite (collect_imap _ (written acc cu)); [ done | ].
    intros i new_i Hi.
    assert (i < num_seq)%nat as Hlt by (rewrite <- Hnl; by eapply lookup_lt_Some).
    destruct (torch_empty_lookup num_seq (Z.to_nat max_seqlen) (shape_m2 (Rank3 acc)) i Hlt)
      as (new_i' & Hnew & Hshape).
    change (new_lse !! i = Some new_i') in Hnew.
    rewrite Hi in Hnew. injection Hnew as <-.
    by apply unflatten_body_written.
  - by rewrite length_fmap, length_imap.
  - intros i h p v Hi Hp Hv.
    destruct (torch_empty_lookup num_seq (Z.to_nat max_seqlen) (shape_m2 (Rank3 acc)) i Hi)
      as (new_i & Hnew & Hshape).
    change (new_lse !! i = Some new_i) in Hnew.
    apply entry_Some in Hv as (srow & e & Hsrow & He & Hv).
    pose proof (shape_m2_acc _ _ Hsrow) as Hm2. rewrite Hm2 in *.
    destruct (shape3_lookup _ _ _ _ _ _ Hacc Hsrow) as [Hsl Hsingle].
    rewrite Forall_lookup in Hsingle. specialize (Hsingle h e He).
    destruct e as [ | y [ | ? ? ] ]; simpl in Hsingle; try discriminate.
    injection Hv as ->.
    pose proof (seq_len_nonneg cu i Hnd ltac:(lia)) as Hn0.
    specialize (Hfit i Hi).
    pose proof (boundary_succ cu i Hhead Hnd ltac:(lia)) as Hsucc.
    pose proof (boundary_mono (S i) num_seq ltac:(lia) ltac:(lia)) as Hmono.
    assert (shape2 (written acc cu i new_i) (Z.to_nat max_seqlen) nheads) as Hw.
    { apply written_shape; [ done | | ].
      - apply Forall_take, Forall_drop. destruct Hacc as [_ Hall].
        eapply Forall_impl; [ exact Hall | ]. by intros row [? _].
      - rewrite length_drop. destruct Hacc as [-> _]. lia. }
    apply entry_Some.
    exists (transpose (written acc cu i new_i)).
    assert ((col ← transpose (written acc cu i new_i) !! h; col !! p) = Some v) as Ht.
    { eapply transpose_lookup; [ exact Hw | ].
      destruct Hshape as [Hrows Hcols].
      destruct (lookup_lt_is_Some_2 new_i p ltac:(lia)) as [d Hd].
      rewrite Forall_lookup in Hcols. specialize (Hcols p d Hd).
      destruct (lookup_lt_is_Some_2 d h) as [d0 Hd0].
      { rewrite Hcols, <- Hsl. by eapply lookup_lt_Some. }
      unfold written. rewrite lookup_app_l.
      2:{ rewrite length_zip_with, !length_take, length_drop.
          destruct Hacc as [-> _]. lia. }
      rewrite lookup_zip_with, !lookup_take_lt, lookup_drop, Hd, Hsrow by lia.
      simpl. rewrite lookup_zip_with, Hd0, He. done. }
    destruct (transpose (written acc cu i new_i) !! h) as [ col | ] eqn:Hcol;
      simpl in Ht; [ | done ].
    exists col. split; [ | done ].
    by rewrite list_lookup_fmap, list_lookup_imap, Hnew.
Qed.
End UnflattenFacts.

Section LseClaims.
Import Torch Partition VarlenLse.

(** C7, as the code has it.  [unflatten_varlen_lse] reads the accumulator
    layout [(total_tokens, nheads, 1)], not the packed layout
    [(nheads, total_tokens)] that [flatten_varlen_lse] writes; with the
    layout change of [update_out_and_lse] in between, the round trip
    returns, and gives back the original value at every position of the
    valid region of every sequence, whatever the allocator left in the
    padding. *)
Theorem lse_round_trip {V : Type} (uninit : nat -> nat -> nat -> V)
    (lse : list (list (list V))) (cu_seqlens : list Z)
    (nheads max_len : nat) (max_seqlen : Z) :
  valid_batch lse cu_seqlens nheads max_len ->
  (forall i : nat, (i < length lse)%nat -> seq_len cu_seqlens i <= max_seqlen) ->
  exists packed out,
    flatten_varlen_lse lse cu_seqlens = Ok packed /\
    unflatten_varlen_lse uninit (to_accumulator_layout packed) cu_seqlens max_seqlen
      = Ok out /\
    length out = length lse /\
    forall (i h p : nat) (v : V),
      (i < length lse)%nat -> Z.of_nat p < seq_len cu_seqlens i ->
      entry lse i h p = Some v -> entry out i h p = Some v.
Proof.
  intros Hvalid Hfit.
  pose proof Hvalid as (Hhead & Hnd & Hlen & Hne & Hshape & Hh & Hpad).
  destruct (flatten_packed lse cu_seqlens nheads max_len Hvalid)
    as (packed & Hflat & Hpacked & Hent).
  pose proof (shape3_unsqueeze _ _ _ (transpose_shape _ _ _ Hpacked Hh)) as Hacc.
  assert (0 <= max_seqlen) as Hmax.
  { assert (0 < length lse)%nat as H0 by (destruct lse; [ done | simpl; lia ]).
    pose proof (seq_len_nonneg cu_seqlens O Hnd ltac:(lia)).
    specialize (Hfit O H0). lia. }
  destruct (unflatten_written uninit _ cu_seqlens (length lse) nheads max_seqlen
              Hhead Hnd Hlen Hacc Hfit Hmax) as (out & Hun & Hlo & Hout).
  exists packed, out. split; [ done | ]. split; [ done | ]. split; [ done | ].
  intros i h p v Hi Hp Hv.
  apply Hout; [ done | lia | ].
  apply entry_unsqueeze. eapply transpose_lookup; [ exact Hpacked | ].
  apply Hent; [ done | lia | done ].
Qed.

Lemma lse_round_trip_witness :
  exists packed out,
    flatten_varlen_lse [[[1; 2; 0]; [3; 4; 0]]; [[5; 6; 7]; [8; 9; 10]]] [0; 2; 5]
      = Ok packed /\
    unflatten_varlen_lse (fun _ _ _ => -1) (to_accumulator_layout packed) [0; 2; 5] 4
      = Ok out /\
    entry out 1 1 2 = Some 10.
Proof.
  destruct (lse_round_trip (fun _ _ _ => -1)
              [[[1; 2; 0]; [3; 4; 0]]; [[5; 6; 7]; [8; 9; 10]]] [0; 2; 5]
              2 3 4) as (packed & out & Hflat & Hun & _ & Hent).
  - unfold valid_batch. split; [ done | ]. split; [ simpl; lia | ].
    split; [ done | ]. split; [ done | ].
    split; [ split; [ done | repeat constructor ] | ].
    split; [ lia | ].
    intros [ | [ | i ] ] Hi; simpl in Hi; vm_compute; try discriminate; lia.
  - intros [ | [ | i ] ] Hi; simpl in Hi; vm_compute; try discriminate; lia.
  - exists packed, out. split; [ exact Hflat | ]. split; [ exact Hun | ].
    apply Hent; [ simpl; lia | vm_compute; done | done ].
Defined.

(** C7, as the spec words it, fails: fed the result of
    [flatten_varlen_lse] directly, [unflatten_varlen_lse] stops on a shape
    error (one sequence of two tokens, one head), or returns the first
    head's value for every head (one token, two heads). *)
Lemma lse_round_trip_literal_fails :
  (flatten_varlen_lse [[[1; 2]]] [0; 2] = Ok [[1; 2]] /\
   unflatten_varlen_lse (fun _ _ _ => 0) (Rank2 [[1; 2]]) [0; 2] 2
     = Raise ShapeError) /\
  (flatten_varlen_lse [[[1]; [3]]] [0; 1] = Ok [[1]; [3]] /\
   unflatten_varlen_lse (fun _ _ _ => 0) (Rank2 [[1]; [3]]) [0; 1] 1
     = Ok [[[1]; [1]]] /\
   entry [[[1]; [3]]] 0 1 0 = Some 3 /\
   entry [[[1]; [1]]] 0 1 0 = Some 1).
Proof. repeat split. Qed.
End LseClaims.

(** ** AttentionStepEngine *)

Section EngineForward.
Import Torch Engine.
Context {V Hyper Group : Type}.
Variable all_gathered : nat -> list (list (list V)) -> list (list (list V)).
Variable _flash_attn_varlen_forward :
  list (list (list V)) -> list (list (list V)) -> list (list (list V)) ->
  list Z -> list Z -> Z -> Z -> Hyper -> list (list (list V)) * list (list V).

Abbreviation body := (forward_body (Group := Group) all_gathered _flash_attn_varlen_forward).

(** Each window appends one output and one lse. *)
Lemma forward_windows_appended q k v cu_q cu_k max_q max_k stride lks hyper
    (ws : list nat) (s s' : forward_state) :
  for_each (body q k v cu_q cu_k max_q max_k stride lks hyper) s ws = Ok s' ->
  exists outs lses,
    out_list s' = out_list s ++ outs /\ lse_list s' = lse_list s ++ lses /\
    length outs = length ws /\ length lses = length ws.
Proof.
  revert s. induction ws as [ | i ws IH ]; intros s H; simpl in H.
  - injection H as <-. exists [], []. by rewrite !app_nil_r.
  - bind_ok H. rename a into s1.
    destruct (IH _ H) as (outs & lses & Ho & Hl & Hlo & Hll).
    unfold forward_body in E.
    bind_ok E. destruct a as [c w]. bind_ok E. destruct a as [c1 w1].
    destruct (_flash_attn_varlen_forward _ _ _ _ _ _ _ _) as [out lse].
    injection E as <-. simpl in Ho, Hl.
    exists (out :: outs), (lse :: lses).
    rewrite Ho, Hl, <- !app_assoc. simpl. auto.
Qed.

Lemma cat_dim1_lengths {A : Type} (ts : list (list (list A))) (r : list (list A)) :
  cat_dim1 ts = Ok r -> ts <> [] /\ Forall (fun t => length t = length r) ts.
Proof.
  revert r. induction ts as [ | t ts IH ]; intros r H; [ done | ].
  split; [ done | ].
  destruct ts as [ | t' ts ].
  - simpl in H. injection H as <-. by constructor.
  - change (cat_dim1 (t :: t' :: ts))
      with (r ← cat_dim1 (t' :: ts);
            if decide (length t = length r) then Ok (zip_with app t r)
            else Raise ShapeError) in H.
    bind_ok H. rename a into r'. case_decide as Hlen; [ | discriminate ].
    injection H as <-. destruct (IH _ eq_refl) as [_ Hall].
    rewrite length_zip_with.
    constructor; [ lia | ].
    eapply Forall_impl; [ exact Hall | ]. intros x Hx. simpl in *. lia.
Qed.

Lemma cat_dim_m2_concat (ts : list (list (list V))) (r : list (list V)) :
  cat_dim_m2 ts = Ok r -> ts <> [] /\ r = concat ts.
Proof.
  unfold cat_dim_m2. destruct ts as [ | t ts ]; [ done | ].
  destruct (concat (t :: ts)) as [ | row rows ] eqn:E.
  - by intros [= <-].
  - case_decide; [ | done ]. by intros [= <-].
Qed.

End EngineForward.



Section EngineBackward.
Import Torch Engine.
Context {V Hyper Group : Type}.
Variable all_gathered : nat -> list (list (list V)) -> list (list (list V)).
Variable reduce_scattered : nat -> list (list (list V)) -> list (list (list V)).
Variable zero : V.
Variable _flash_attn_varlen_backward :
  @backward_args V Hyper -> list (list (list V)) * list (list (list V)) * list (list (list V)).

Abbreviation bbody :=
  (backward_body (Group := Group) all_gathered reduce_scattered zero
     _flash_attn_varlen_backward).

Lemma zero_all_zero (t : list (list (list V))) : all_zero zero (zero_ zero t).
Proof.
  unfold all_zero, zero_.
  apply Forall_fmap, Forall_true. intros row. simpl.
  apply Forall_fmap, Forall_true. intros e. simpl.
  apply Forall_fmap, Forall_true. done.
Qed.

Lemma overwrite_length {A : Type} (view new : list A) :
  length (overwrite view new) = length view.
Proof. unfold overwrite. apply length_imap. Qed.

(** A write through [t[slice(a, b)]] keeps the rows outside the slice. *)
Lemma write_rows_frame (t new : list (list (list V))) (sl : Z * Z) :
  length (write_rows t sl new) = length t /\
  forall j : nat, ~ in_rows t sl j -> write_rows t sl new !! j = t !! j.
Proof.
  unfold write_rows, in_rows.
  pose proof (clamp_le (length t) 0 (Some sl.1) ltac:(lia)) as Ha.
  pose proof (clamp_le (length t) (Z.of_nat (length t)) (Some sl.2) ltac:(lia)) as Hb.
  set (a := Py.clamp (length t) 0 (Some sl.1)) in *.
  set (b := Py.clamp (length t) (Z.of_nat (length t)) (Some sl.2)) in *.
  split.
  - rewrite !length_app, overwrite_length, !length_take, !length_drop. lia.
  - intros j Hj. destruct (decide (j < a)%nat).
    + rewrite lookup_app_l by (rewrite length_take; lia).
      apply lookup_take_lt. lia.
    + rewrite lookup_app_r by (rewrite length_take; lia).
      rewrite lookup_app_r
        by (rewrite overwrite_length, !length_take, length_drop; lia).
      rewrite lookup_drop, overwrite_length, !length_take, length_drop.
      f_equal. lia.
Qed.

Lemma write_rows_clean (t new : list (list (list V))) (sl : Z * Z) (i : nat) :
  all_zero zero t -> clean zero sl (ReduceScatter i (write_rows t sl new)).
Proof.
  intros Hz j row Hj Hrow.
  destruct (write_rows_frame t new sl) as [Hlen Hframe].
  rewrite Hframe in Hrow.
  - unfold all_zero in Hz. rewrite Forall_lookup in Hz. by apply (Hz j).
  - unfold in_rows in *. by rewrite Hlen in Hj.
Qed.

(** One window: the kernel is called on a gradient buffer that is zero
    throughout, whatever the window before left there, and the two
    reduce-scatters that follow get inputs that are zero outside
    [local_k_slice]. *)
Lemma backward_body_clean dout q k v out softmax_lse cu_q cu_k max_q max_k
    stride lks hyper (s s' : backward_state) (i : nat) :
  bbody dout q k v out softmax_lse cu_q cu_k max_q max_k stride lks hyper s i = Ok s' ->
  exists new,
    trace s' = trace s ++ new /\
    tag <$> new = [(true, i); (false, i); (false, i)] /\
    Forall (clean zero lks) new.
Proof.
  unfold backward_body. intros H.
  bind_ok H. destruct a as [c w]. bind_ok H. destruct a as [c1 w1].
  destruct (_flash_attn_varlen_backward _) as [[dq_i dk_i] dv_i].
  simpl in H.
  eexists [KernelCall i _; ReduceScatter i _; ReduceScatter i _].
  case_decide; injection H as <-; simpl.
  all: split; [ reflexivity | ]; split; [ reflexivity | ].
  all: apply Forall_cons; split;
    [ split; apply zero_all_zero
    | apply Forall_cons; split;
      [ apply write_rows_clean, zero_all_zero
      | apply Forall_cons; split;
        [ apply write_rows_clean, zero_all_zero | apply Forall_nil_2 ] ] ].
Qed.

Lemma backward_loop_clean dout q k v out softmax_lse cu_q cu_k max_q max_k
    stride lks hyper (ws : list nat) (s s' : backward_state) :
  for_each (bbody dout q k v out softmax_lse cu_q cu_k max_q max_k stride lks hyper)
    s ws = Ok s' ->
  exists new,
    trace s' = trace s ++ new /\
    tag <$> new = ws ≫= (fun i => [(true, i); (false, i); (false, i)]) /\
    Forall (clean zero lks) new.
Proof.
  revert s. induction ws as [ | i ws IH ]; intros s H; simpl in H.
  - injection H as <-. exists []. by rewrite app_nil_r.
  - bind_ok H. rename a into s1.
    destruct (backward_body_clean _ _ _ _ _ _ _ _ _ _ _ _ _ _ _ _ E)
      as (new1 & Ht1 & Htag1 & Hc1).
    destruct (IH _ H) as (new2 & Ht2 & Htag2 & Hc2).
    exists (new1 ++ new2). split; [ | split ].
    + by rewrite Ht2, Ht1, app_assoc.
    + rewrite fmap_app, Htag1, Htag2. done.
    + by apply Forall_app.
Qed.

(** C8 (no stale gradient).  In a run of the backward pass the external
    calls come window by window, the kernel and then the two
    reduce-scatters; at every kernel call the whole gradient buffer
    [dkv_buffer] is zero, whatever [torch.empty] or an earlier window left
    in it, and the input of every reduce-scatter is zero in every row
    outside [local_k_slice], the only rows the kernel can write. *)
Theorem backward_no_stale_gradient
    (process_group : option Group) (w : world) (alloc : backward_alloc)
    dout q k v out softmax_lse cu_q cu_k max_q max_k
    (heads_k_stride : nat) (local_k_slice : Z * Z) (hyper : Hyper)
    (dq dk dv : list (list (list V))) (tr : list event) :
  llama3_flash_attn_varlen_backward all_gathered reduce_scattered zero
    _flash_attn_varlen_backward process_group w alloc
    dout q k v out softmax_lse cu_q cu_k max_q max_k heads_k_stride local_k_slice hyper
    = Ok (dq, dk, dv, tr) ->
  exists ws,
    windows (dim1 k) heads_k_stride = Ok ws /\
    tag <$> tr = ws ≫= (fun i => [(true, i); (false, i); (false, i)]) /\
    Forall (clean zero local_k_slice) tr.
Proof.
  unfold llama3_flash_attn_varlen_backward. intros H.
  bind_ok H. rename a into ws. exists ws. split; [ done | ].
  bind_ok H. rename a into s. injection H as <- <- <- <-.
  apply backward_loop_clean in E0 as (new & Ht & Htag & Hc).
  simpl in Ht. by rewrite Ht.
Qed.
End EngineBackward.

Lemma backward_no_stale_gradient_witness :
  let kernel := fun args : @Engine.backward_args Z unit =>
    (Engine.b_dq args, [[[5]]], [[[6]]]) in
  let w := {| Engine.buffers := fun _ _ => []; Engine.collectives := O |} in
  let alloc :=
    {| Engine.a_dkv_buffer := ([[[9]]; [[9]]], [[[9]]; [[9]]]);
       Engine.a_kv_contiguous_buffer := ([[[9]]], [[[9]]]);
       Engine.a_dq := [[[9]; [9]]];
       Engine.a_dk := [[[9]; [9]]];
       Engine.a_dv := [[[9]; [9]]] |} in
  exists dq dk dv tr,
    Engine.llama3_flash_attn_varlen_backward (Group := unit)
      (fun _ x => x ++ x) (fun _ x => take 1 x) 0 kernel None w alloc
      [[[1]; [2]]] [[[1]; [2]]] [[[1]; [2]]] [[[1]; [2]]] [[[1]; [2]]] [[0]; [0]]
      [0; 1] [0; 1] 1 1 1%nat (0, 1) ()
    = Ok (dq, dk, dv, tr) /\
    Forall (Engine.clean 0 (0, 1)) tr /\
    Engine.ReduceScatter 0 [[[5]]; [[0]]] ∈ tr.
Proof.
  intros kernel w alloc.
  assert (exists r,
    Engine.llama3_flash_attn_varlen_backward (Group := unit)
      (fun _ x => x ++ x) (fun _ x => take 1 x) 0 kernel None w alloc
      [[[1]; [2]]] [[[1]; [2]]] [[[1]; [2]]] [[[1]; [2]]] [[[1]; [2]]] [[0]; [0]]
      [0; 1] [0; 1] 1 1 1%nat (0, 1) ()
    = Ok r /\ Engine.ReduceScatter 0 [[[5]]; [[0]]] ∈ r.2) as ([[[dq dk] dv] tr] & E & Hin).
  { eexists. split; [ reflexivity | ]. simpl. apply list_elem_of_further, list_elem_of_here. }
  exists dq, dk, dv, tr. split; [ exact E | ]. split; [ | exact Hin ].
  pose proof E as E'.
  apply backward_no_stale_gradient in E' as (ws & _ & _ & Hclean).
  exact Hclean.
Defined.

(** The partitioner on a layout without tokens: the difference tensors of
    lines 57-58 are empty and [.max()] refuses them. *)
Lemma prepare_empty_layout_raises :
  Partition.llama3_flash_attn_prepare_cu_seqlens [0; 0] true 0 1
  = Raise (RuntimeError "max(): Expected reduction dim to be specified for input.numel() == 0").
Proof. reflexivity. Qed.

(** * Further properties *)

(** ** SequencePartitioner: errors and the shape of a shard *)

Section PartitionShard.
Import Partition.

Lemma nondecreasing_le (cu : list Z) (i j : nat) (a b : Z) :
  nondecreasing cu -> (i <= j)%nat -> cu !! i = Some a -> cu !! j = Some b -> a <= b.
Proof.
  intros Hnd Hij. revert b. induction Hij as [ | j Hij IH ]; intros b Ha Hb.
  - rewrite Ha in Hb. injection Hb as <-. lia.
  - destruct (lookup_lt_is_Some_2 cu j) as [c Hc].
    { apply lookup_lt_Some in Hb. lia. }
    specialize (IH c Ha Hc).
    pose proof (nondecreasing_step _ _ _ _ Hnd Hc Hb). lia.
Qed.

Lemma nondecreasing_of_steps (l : list Z) :
  (forall (i : nat) a b, l !! i = Some a -> l !! S i = Some b -> a <= b) ->
  nondecreasing l.
Proof.
  induction l as [ | x l IH ]; intros H; [ done | ].
  destruct l as [ | y l ]; [ done | ].
  split; [ by apply (H O) | ].
  apply IH. intros i a b Ha Hb. by apply (H (S i)).
Qed.

Lemma tensor_max_spec (t : list Z) (m : Z) :
  tensor_max t = Ok m -> m ∈ t /\ forall x, x ∈ t -> x <= m.
Proof.
  destruct t as [ | x t ]; [ done | ]. simpl. intros [= <-].
  revert x. induction t as [ | y t IH ]; intros x; simpl.
  - split; [ apply list_elem_of_here | ].
    intros z Hz. apply list_elem_of_singleton in Hz as ->. lia.
  - destruct (IH (Z.max x y)) as [Hin Hle]. split.
    + apply elem_of_cons in Hin as [ Heq | Hin ].
      * rewrite Heq. destruct (Z.max_spec x y) as [ [_ ->] | [_ ->] ].
        -- apply list_elem_of_further, list_elem_of_here.
        -- apply list_elem_of_here.
      * by do 2 apply list_elem_of_further.
    + intros z Hz. apply elem_of_cons in Hz as [ -> | Hz ].
      * specialize (Hle _ (list_elem_of_here _ _)). lia.
      * apply elem_of_cons in Hz as [ -> | Hz ].
        -- specialize (Hle _ (list_elem_of_here _ _)). lia.
        -- apply Hle. by apply list_elem_of_further.
Qed.

Lemma diffs_lookup (t : list Z) (i : nat) (a b : Z) :
  t !! i = Some a -> t !! S i = Some b -> diffs t !! i = Some (b - a).
Proof.
  intros Ha Hb. unfold diffs. rewrite slice_from_1, slice_to_m1.
  rewrite lookup_zip_with, lookup_drop. simpl. rewrite Hb. simpl.
  rewrite lookup_take_lt by (apply lookup_lt_Some in Hb; lia).
  by rewrite Ha.
Qed.

Lemma diffs_lookup_inv (t : list Z) (i : nat) (d : Z) :
  diffs t !! i = Some d ->
  exists a b, t !! i = Some a /\ t !! S i = Some b /\ d = b - a.
Proof.
  unfold diffs. rewrite slice_from_1, slice_to_m1. intros H.
  apply lookup_zip_with_Some in H as (b & a & -> & Hb & Ha).
  rewrite lookup_drop in Hb. simpl in Hb.
  apply lookup_take_Some in Ha as [Ha _]. eauto.
Qed.
End PartitionShard.

Section PartitionExplicit.
Import Partition.

(** The shard of a rank of a valid layout that holds a token, spelled out:
    [L] and [right] are the ends of the slice of boundaries the rank
    sees, [xl] and [xr] the boundaries there. *)
Lemma prepare_explicit (cu : list Z) (causal : bool) (rank world_size total : Z) :
  valid_layout cu world_size total -> 0 <= rank < world_size -> 0 < total ->
  let lpr := total / world_size in
  let v := rank * lpr in
  let w := (rank + 1) * lpr in
  exists (L right : nat) (xl xr mq mk : Z),
    let base := take (S right - L) (drop L cu) in
    let q := <[(right - L)%nat := lpr]> (<[O := 0]> ((fun x => x - v) <$> base)) in
    let k := (fun x => x - xl)
               <$> (if causal then <[(right - L)%nat := w]> base else base) in
    (L < right < length cu)%nat /\ cu !! L = Some xl /\ cu !! right = Some xr /\
    right = searchsorted cu w /\
    (L = searchsorted cu v /\ xl = v \/
     S L = searchsorted cu v /\ xl < v /\ forall x, cu !! S L = Some x -> v < x) /\
    tensor_max (diffs q) = Ok mq /\ tensor_max (diffs k) = Ok mk /\
    llama3_flash_attn_prepare_cu_seqlens cu causal rank world_size
    = Ok {| cu_seqlens_q := q; cu_seqlens_k := k;
            max_seqlen_q := mq; max_seqlen_k := mk;
            local_k_slice := (xl, if causal then w else xr) |}.
Proof.
  intros (Hhead & Hlast & Hmono & Hws & Hmod) Hrank Hpos lpr v w.
  pose proof (Z.div_exact total world_size ltac:(lia)) as [_ Hex].
  specialize (Hex Hmod). fold lpr in Hex.
  assert (0 < lpr) as Hlpr by nia.
  destruct (prepare_bounds cu rank total lpr Hhead Hlast Hlpr ltac:(lia) ltac:(nia))
    as (left0 & right & L & x & El & Er & Hx & HL & HLr & Hr).
  fold v in El, HL. fold w in Er.
  destruct (lookup_lt_is_Some_2 cu right Hr) as [xr Hxr].
  destruct (lookup_lt_is_Some_2 cu L ltac:(lia)) as [xl Hxl].
  set (base := take (S right - L) (drop L cu)).
  assert (length base = S right - L)%nat as Hbase.
  { unfold base. rewrite length_take, length_drop. lia. }
  set (q := <[(right - L)%nat := lpr]> (<[O := 0]> ((fun x => x - v) <$> base))).
  set (k := (fun x => x - xl)
              <$> (if causal then <[(right - L)%nat := w]> base else base)).
  destruct (tensor_max_nonempty (diffs q)) as [mq Hmq].
  { rewrite diffs_length. unfold q. rewrite !length_insert, length_fmap. lia. }
  destruct (tensor_max_nonempty (diffs k)) as [mk Hmk].
  { rewrite diffs_length. unfold k. rewrite length_fmap.
    destruct causal; rewrite ?length_insert; lia. }
  exists L, right, xl, xr, mq, mk. cbv zeta. fold base q k.
  split; [ lia | ]. split; [ done | ]. split; [ done | ]. split; [ done | ].
  split.
  { case_decide as Hne.
    - right. split; [ lia | ].
      assert (L < searchsorted cu v)%nat as Hlt by lia.
      split; [ apply (searchsorted_before cu v L xl Hlt Hxl) | ].
      intros x' Hx'. replace (S L) with left0 in Hx' by lia.
      rewrite Hx in Hx'. injection Hx' as <-.
      pose proof (searchsorted_at cu v x ltac:(by rewrite <- El)). lia.
    - left. assert (L = left0) as -> by lia. split; [ done | ].
      rewrite Hx in Hxl. injection Hxl as <-.
      destruct (decide (x = v)); [ done | ]. by destruct Hne. }
  split; [ done | ]. split; [ done | ].
  unfold llama3_flash_attn_prepare_cu_seqlens.
  rewrite (getitem_last _ _ Hlast). bind_step.
  rewrite decide_False by lia. bind_step.
  rewrite decide_True by done. bind_step.
  fold lpr v w. rewrite <- El, <- Er.
  rewrite (getitem_nonneg _ _ _ Hx). bind_step.
  rewrite <- HL.
  replace (Z.of_nat right + 1) with (Z.of_nat (S right)) by lia.
  rewrite slice_inside by lia. fold base.
  rewrite setitem_first by (rewrite length_fmap; lia). bind_step.
  rewrite (setitem_last (<[O := 0]> _)) by (rewrite length_insert, length_fmap; lia).
  bind_step.
  rewrite length_insert, length_fmap, Hbase.
  replace (Init.Nat.pred (S right - L)) with (right - L)%nat by lia.
  fold q.
  destruct causal.
  - rewrite setitem_last by lia. bind_step.
    rewrite Hbase. replace (Init.Nat.pred (S right - L)) with (right - L)%nat by lia.
    rewrite (getitem_nonneg _ _ _ Hxl). bind_step.
    fold k. rewrite Hmq. bind_step. rewrite Hmk. done.
  - rewrite (getitem_nonneg _ _ _ Hxr). bind_step.
    rewrite (getitem_nonneg _ _ _ Hxl). bind_step.
    fold k. rewrite Hmq. bind_step. rewrite Hmk. done.
Qed.
End PartitionExplicit.

Section PartitionView.
Import Partition.

(** What the extras below use of a shard: [base] is the slice of global
    boundaries the rank sees, [m] its last index. *)
Lemma prepare_view (cu : list Z) (causal : bool) (rank world_size total : Z) :
  valid_layout cu world_size total -> 0 <= rank < world_size -> 0 < total ->
  let lpr := total / world_size in
  let v := rank * lpr in
  let w := (rank + 1) * lpr in
  exists (m : nat) (base : list Z) (xl xr : Z) (s : RankShard),
    llama3_flash_attn_prepare_cu_seqlens cu causal rank world_size = Ok s /\
    (1 <= m)%nat /\ length base = S m /\
    base !! O = Some xl /\ base !! m = Some xr /\
    (forall c, c ∈ base -> c ∈ cu) /\
    xl <= v /\ w <= xr /\
    (forall y, y ∈ cu -> y <= v -> y <= xl) /\
    (forall y, y ∈ cu -> w <= y -> xr <= y) /\
    (forall (i : nat) c, (0 < i < m)%nat -> base !! i = Some c -> v <= c < w) /\
    nondecreasing base /\
    cu_seqlens_q s = <[m := lpr]> (<[O := 0]> ((fun x => x - v) <$> base)) /\
    cu_seqlens_k s = (fun x => x - xl) <$> (if causal then <[m := w]> base else base) /\
    local_k_slice s = (xl, if causal then w else xr) /\
    tensor_max (diffs (cu_seqlens_q s)) = Ok (max_seqlen_q s) /\
    tensor_max (diffs (cu_seqlens_k s)) = Ok (max_seqlen_k s).
Proof.
  intros Hvalid Hrank Hpos lpr v w.
  destruct (prepare_explicit cu causal rank world_size total Hvalid Hrank Hpos)
    as (L & right & xl & xr & mq & mk & HLr & Hxl & Hxr & Er & Hleft & Hmq & Hmk & Hok).
  fold lpr v w in Er, Hleft, Hmq, Hmk, Hok.
  destruct Hvalid as (Hhead & Hlast & Hnd & Hws & Hmod).
  set (base := take (S right - L) (drop L cu)) in *.
  assert (forall i : nat, (i <= right - L)%nat -> base !! i = cu !! (L + i)%nat) as Hbase.
  { intros i Hi. unfold base. rewrite lookup_take_lt by lia. apply lookup_drop. }
  assert (forall (j : nat) y, cu !! j = Some y -> (S L <= j)%nat -> v <= y) as Hafter.
  { intros j y Hy Hj. destruct Hleft as [ [EL ->] | (EL & _ & Hgt) ].
    - eapply (nondecreasing_le cu L j); eauto. lia.
    - destruct (lookup_lt_is_Some_2 cu (S L)) as [x Hx].
      { apply lookup_lt_Some in Hy. lia. }
      specialize (Hgt x Hx).
      pose proof (nondecreasing_le cu (S L) j x y Hnd Hj Hx Hy). lia. }
  eexists (right - L)%nat, base, xl, xr, _.
  split; [ exact Hok | ]. simpl.
  split; [ lia | ].
  split; [ unfold base; rewrite length_take, length_drop; lia | ].
  split; [ rewrite Hbase by lia; by rewrite Nat.add_0_r | ].
  split; [ rewrite Hbase by lia; by replace (L + (right - L))%nat with right by lia | ].
  split.
  { intros c Hc. unfold base in Hc.
    apply list_elem_of_lookup in Hc as [i Hc].
    apply lookup_take_Some in Hc as [Hc _]. rewrite lookup_drop in Hc.
    by apply list_elem_of_lookup_2 in Hc. }
  split; [ destruct Hleft as [ [_ ->] | (_ & ? & _) ]; lia | ].
  split; [ apply (searchsorted_at cu w); by rewrite <- Er | ].
  split.
  { intros y Hy Hyv. apply list_elem_of_lookup in Hy as [j Hy].
    destruct (decide (j <= L)%nat).
    - by eapply (nondecreasing_le cu j L).
    - destruct Hleft as [ [_ ->] | (EL & _ & Hgt) ]; [ done | ].
      destruct (lookup_lt_is_Some_2 cu (S L)) as [x Hx].
      { apply lookup_lt_Some in Hy. lia. }
      specialize (Hgt x Hx).
      pose proof (nondecreasing_le cu (S L) j x y Hnd ltac:(lia) Hx Hy). lia. }
  split.
  { intros y Hy Hwy. apply list_elem_of_lookup in Hy as [j Hy].
    destruct (decide (j < right)%nat) as [ Hj | Hj ].
    - rewrite Er in Hj. pose proof (searchsorted_before cu w j y Hj Hy). lia.
    - by eapply (nondecreasing_le cu right j); eauto; lia. }
  split.
  { intros i c Hi Hc. rewrite Hbase in Hc by lia. split.
    - eapply Hafter; [ exact Hc | lia ].
    - apply (searchsorted_before cu w (L + i) c); [ lia | done ]. }
  split.
  { apply nondecreasing_of_steps. intros i a b Ha Hb.
    pose proof (lookup_lt_Some _ _ _ Hb) as Hi.
    unfold base in Hi. rewrite length_take, length_drop in Hi.
    rewrite Hbase in Ha, Hb by lia.
    replace (L + S i)%nat with (S (L + i)) in Hb by lia.
    by eapply nondecreasing_step. }
  done.
Qed.
End PartitionView.

Section PartitionEntries.
Import Partition.
Variables (base : list Z) (m : nat) (v w lpr xl xr : Z) (causal : bool).
Hypothesis Hlen : length base = S m.
Hypothesis Hm : (1 <= m)%nat.

Lemma q_entry (i : nat) (c : Z) :
  base !! i = Some c ->
  <[m := lpr]> (<[O := 0]> ((fun x => x - v) <$> base)) !! i
  = Some (if decide (i = m) then lpr else if decide (i = O) then 0 else c - v).
Proof.
  intros Hc. destruct (decide (i = m)) as [ -> | Hne ].
  - apply list_lookup_insert_eq. rewrite length_insert, length_fmap. lia.
  - rewrite list_lookup_insert_ne by done.
    destruct (decide (i = O)) as [ -> | Hne0 ].
    + apply list_lookup_insert_eq. rewrite length_fmap. lia.
    + rewrite list_lookup_insert_ne by done. by rewrite list_lookup_fmap, Hc.
Qed.

Lemma k_entry (i : nat) (c : Z) :
  base !! i = Some c ->
  ((fun x => x - xl) <$> (if causal then <[m := w]> base else base)) !! i
  = Some ((if causal then if decide (i = m) then w else c else c) - xl).
Proof.
  intros Hc. rewrite list_lookup_fmap. destruct causal; [ | by rewrite Hc ].
  destruct (decide (i = m)) as [ -> | Hne ].
  - rewrite list_lookup_insert_eq by lia. done.
  - rewrite list_lookup_insert_ne by done. by rewrite Hc.
Qed.

Hypothesis H0 : base !! O = Some xl.
Hypothesis Hlast : base !! m = Some xr.
Hypothesis Hxl : xl <= v.
Hypothesis Hxr : w <= xr.
Hypothesis Hvw : v < w.
Hypothesis Hlpr : lpr = w - v.
Hypothesis Hin : forall (i : nat) c, (0 < i < m)%nat -> base !! i = Some c -> v <= c < w.
Hypothesis Hnd : nondecreasing base.

(** The value [base] holds at an index, placed relative to the rank's
    range. *)
Lemma base_entry_cases (i : nat) (c : Z) :
  base !! i = Some c ->
  (i = O /\ c = xl) \/ ((0 < i < m)%nat /\ v <= c < w) \/ (i = m /\ c = xr).
Proof.
  intros Hc. pose proof (lookup_lt_Some _ _ _ Hc) as Hi.
  destruct (decide (i = O)) as [ -> | ? ].
  - left. rewrite H0 in Hc. by injection Hc as <-.
  - destruct (decide (i = m)) as [ -> | ? ].
    + right. right. rewrite Hlast in Hc. by injection Hc as <-.
    + right. left. split; [ lia | ]. apply (Hin i); [ lia | done ].
Qed.

Lemma q_steps (i : nat) (a b : Z) :
  <[m := lpr]> (<[O := 0]> ((fun x => x - v) <$> base)) !! i = Some a ->
  <[m := lpr]> (<[O := 0]> ((fun x => x - v) <$> base)) !! S i = Some b ->
  0 <= a /\ a <= b /\ b <= lpr.
Proof.
  intros Ha Hb.
  pose proof (lookup_lt_Some _ _ _ Hb) as Hi.
  rewrite !length_insert, length_fmap in Hi.
  destruct (lookup_lt_is_Some_2 base i ltac:(lia)) as [ca Hca].
  destruct (lookup_lt_is_Some_2 base (S i) ltac:(lia)) as [cb Hcb].
  rewrite (q_entry _ _ Hca) in Ha. rewrite (q_entry _ _ Hcb) in Hb.
  injection Ha as <-. injection Hb as <-.
  destruct (base_entry_cases _ _ Hca) as [ [-> ->] | [ [? ?] | [-> ->] ] ];
    destruct (base_entry_cases _ _ Hcb) as [ [? ->] | [ [? ?] | [? ->] ] ];
    repeat case_decide; try lia.
  all: pose proof (nondecreasing_step _ _ _ _ Hnd Hca Hcb); lia.
Qed.

Lemma k_steps (i : nat) (a b : Z) :
  ((fun x => x - xl) <$> (if causal then <[m := w]> base else base)) !! i = Some a ->
  ((fun x => x - xl) <$> (if causal then <[m := w]> base else base)) !! S i = Some b ->
  0 <= a /\ a <= b /\ b <= (if causal then w else xr) - xl.
Proof.
  intros Ha Hb.
  pose proof (lookup_lt_Some _ _ _ Hb) as Hi.
  rewrite length_fmap in Hi.
  assert (S i < length base)%nat as Hi'.
  { destruct causal; [ by rewrite length_insert in Hi | done ]. }
  destruct (lookup_lt_is_Some_2 base i ltac:(lia)) as [ca Hca].
  destruct (lookup_lt_is_Some_2 base (S i) ltac:(lia)) as [cb Hcb].
  rewrite (k_entry _ _ Hca) in Ha. rewrite (k_entry _ _ Hcb) in Hb.
  injection Ha as <-. injection Hb as <-.
  pose proof (nondecreasing_step _ _ _ _ Hnd Hca Hcb).
  destruct (base_entry_cases _ _ Hca) as [ [-> ->] | [ [? ?] | [-> ->] ] ];
    destruct (base_entry_cases _ _ Hcb) as [ [? ->] | [ [? ?] | [? ->] ] ];
    destruct causal; repeat case_decide; try lia.
Qed.

(** Every local key sequence is at least as long as its query sequence. *)
Lemma k_step_ge_q_step (i : nat) (dq dk : Z) :
  diffs (<[m := lpr]> (<[O := 0]> ((fun x => x - v) <$> base))) !! i = Some dq ->
  diffs ((fun x => x - xl) <$> (if causal then <[m := w]> base else base)) !! i = Some dk ->
  dq <= dk.
Proof.
  intros Hq Hk.
  apply diffs_lookup_inv in Hq as (qa & qb & Hqa & Hqb & ->).
  apply diffs_lookup_inv in Hk as (ka & kb & Hka & Hkb & ->).
  pose proof (lookup_lt_Some _ _ _ Hqb) as Hi.
  rewrite !length_insert, length_fmap in Hi.
  destruct (lookup_lt_is_Some_2 base i ltac:(lia)) as [ca Hca].
  destruct (lookup_lt_is_Some_2 base (S i) ltac:(lia)) as [cb Hcb].
  rewrite (q_entry _ _ Hca) in Hqa. rewrite (q_entry _ _ Hcb) in Hqb.
  rewrite (k_entry _ _ Hca) in Hka. rewrite (k_entry _ _ Hcb) in Hkb.
  injection Hqa as <-. injection Hqb as <-. injection Hka as <-. injection Hkb as <-.
  destruct (base_entry_cases _ _ Hca) as [ [-> ->] | [ [? ?] | [-> ->] ] ];
    destruct (base_entry_cases _ _ Hcb) as [ [? ->] | [ [? ?] | [? ->] ] ];
    destruct causal; repeat case_decide; try lia.
Qed.
End PartitionEntries.

(** Opens a goal [exists s, prepare ... = Ok s /\ _] with the view of the shard. *)
Ltac shard_view causal Hvalid Hrank Hpos :=
  let m := fresh "m" in let base := fresh "base" in
  let xl := fresh "xl" in let xr := fresh "xr" in let s := fresh "s" in
  destruct (prepare_view _ causal _ _ _ Hvalid Hrank Hpos)
    as (m & base & xl & xr & s & Hok & Hm & Hlen & Hb0 & Hbm & Hbase & Hxl & Hxr
        & Hgl & Hlu & Hin & Hnd & Hq & Hk & Hsl & Hmq & Hmk);
  exists s; split; [ exact Hok | ].

Section PartitionExtras.
Import Partition.



(** X2.  The key boundaries of a shard fit its key slice: [cu_seqlens_k] has as
    many entries as [cu_seqlens_q] (at least two), starts at 0 and ends at
    the number of rows of [local_k_slice]. *)
Theorem shard_key_layout (cu : list Z) (causal : bool) (rank world_size total : Z) :
  valid_layout cu world_size total -> 0 <= rank < world_size -> 0 < total ->
  exists s,
    llama3_flash_attn_prepare_cu_seqlens cu causal rank world_size = Ok s /\
    length (cu_seqlens_k s) = length (cu_seqlens_q s) /\
    (2 <= length (cu_seqlens_q s))%nat /\
    Py.getitem (cu_seqlens_k s) 0 = Ok 0 /\
    Py.getitem (cu_seqlens_k s) (-1)
    = Ok ((local_k_slice s).2 - (local_k_slice s).1).
Proof.
  intros Hvalid Hrank Hpos. shard_view causal Hvalid Hrank Hpos.
  rewrite Hq, Hk, Hsl. simpl.
  assert (length ((fun x => x - xl) <$> (if causal then <[m := (rank + 1) * (total / world_size)]> base else base))
          = S m) as Hlk.
  { rewrite length_fmap. destruct causal; by rewrite ?length_insert. }
  split; [ by rewrite Hlk, !length_insert, length_fmap | ].
  split; [ rewrite !length_insert, length_fmap; lia | ].
  split.
  - apply (getitem_nonneg _ O).
    rewrite (k_entry base m ((rank + 1) * (total / world_size)) xl causal Hlen Hm O xl Hb0).
    f_equal. destruct causal; [ rewrite decide_False by lia | ]; lia.
  - apply getitem_last. rewrite last_lookup, Hlk. simpl.
    rewrite (k_entry base m ((rank + 1) * (total / world_size)) xl causal Hlen Hm m xr Hbm).
    f_equal. destruct causal; [ by rewrite decide_True | done ].
Qed.

Lemma shard_key_layout_witness :
  exists s,
    llama3_flash_attn_prepare_cu_seqlens [0; 6; 16] false 1 2 = Ok s /\
    Py.getitem (cu_seqlens_k s) (-1) = Ok ((local_k_slice s).2 - (local_k_slice s).1).
Proof.
  destruct (shard_key_layout [0; 6; 16] false 1 2 16) as (s & Hs & _ & _ & _ & Hl).
  - unfold valid_layout. simpl. repeat split; lia.
  - lia.
  - lia.
  - by exists s.
Defined.

(** X3.  The boundaries of a shard are sorted: [cu_seqlens_q] runs from 0 up to
    [length_per_rank] and [cu_seqlens_k] from 0 up to the number of rows
    of the key slice, neither ever decreasing. *)
Theorem shard_boundaries_sorted (cu : list Z) (causal : bool) (rank world_size total : Z) :
  valid_layout cu world_size total -> 0 <= rank < world_size -> 0 < total ->
  exists s,
    llama3_flash_attn_prepare_cu_seqlens cu causal rank world_size = Ok s /\
    nondecreasing (cu_seqlens_q s) /\ nondecreasing (cu_seqlens_k s) /\
    (forall x, x ∈ cu_seqlens_q s -> 0 <= x <= total / world_size) /\
    (forall x, x ∈ cu_seqlens_k s ->
       0 <= x <= (local_k_slice s).2 - (local_k_slice s).1).
Proof.
  intros Hvalid Hrank Hpos. shard_view causal Hvalid Hrank Hpos.
  pose proof Hvalid as (_ & _ & _ & Hws & Hmod).
  pose proof (Z.div_exact total world_size ltac:(lia)) as [_ Hex].
  specialize (Hex Hmod).
  set (lpr := total / world_size) in *.
  assert (0 < lpr) as Hlpr by nia.
  assert (rank * lpr < (rank + 1) * lpr) as Hvw by lia.
  assert (lpr = (rank + 1) * lpr - rank * lpr) as Hd by lia.
  rewrite Hq, Hk, Hsl. simpl.
  assert (forall (i : nat) a b,
            <[m := lpr]> (<[O := 0]> ((fun x => x - rank * lpr) <$> base)) !! i = Some a ->
            <[m := lpr]> (<[O := 0]> ((fun x => x - rank * lpr) <$> base)) !! S i = Some b ->
            0 <= a /\ a <= b /\ b <= lpr) as Hqs.
  { intros i a b Ha Hb. eapply (q_steps base m (rank * lpr) ((rank + 1) * lpr) lpr xl xr);
      eassumption. }
  assert (forall (i : nat) a b,
            ((fun x => x - xl) <$> (if causal then <[m := (rank + 1) * lpr]> base else base)) !! i = Some a ->
            ((fun x => x - xl) <$> (if causal then <[m := (rank + 1) * lpr]> base else base)) !! S i = Some b ->
            0 <= a /\ a <= b /\ b <= (if causal then (rank + 1) * lpr else xr) - xl) as Hks.
  { intros i a b Ha Hb. eapply (k_steps base m (rank * lpr) ((rank + 1) * lpr) xl xr causal);
      eassumption. }
  split; [ apply nondecreasing_of_steps; intros i a b Ha Hb; by apply (Hqs i a b) | ].
  split; [ apply nondecreasing_of_steps; intros i a b Ha Hb; by apply (Hks i a b) | ].
  split.
  - intros x Hx. apply list_elem_of_lookup in Hx as [i Hx].
    pose proof (lookup_lt_Some _ _ _ Hx) as Hi.
    rewrite !length_insert, length_fmap in Hi.
    destruct i as [ | i ].
    + destruct (lookup_lt_is_Some_2
                  (<[m := lpr]> (<[O := 0]> ((fun x => x - rank * lpr) <$> base))) 1)
        as [b Hb]; [ rewrite !length_insert, length_fmap; lia | ].
      destruct (Hqs O x b Hx Hb). lia.
    + destruct (lookup_lt_is_Some_2
                  (<[m := lpr]> (<[O := 0]> ((fun x => x - rank * lpr) <$> base))) i)
        as [a Ha]; [ rewrite !length_insert, length_fmap; lia | ].
      destruct (Hqs i a x Ha Hx). lia.
  - intros x Hx. apply list_elem_of_lookup in Hx as [i Hx].
    pose proof (lookup_lt_Some _ _ _ Hx) as Hi.
    assert (length ((fun x => x - xl) <$> (if causal then <[m := (rank + 1) * lpr]> base else base))
            = S m) as Hlk.
    { rewrite length_fmap. destruct causal; by rewrite ?length_insert. }
    rewrite Hlk in Hi.
    destruct i as [ | i ].
    + destruct (lookup_lt_is_Some_2
                  ((fun x => x - xl) <$> (if causal then <[m := (rank + 1) * lpr]> base else base)) 1)
        as [b Hb]; [ rewrite Hlk; lia | ].
      destruct (Hks O x b Hx Hb). destruct causal; simpl; lia.
    + destruct (lookup_lt_is_Some_2
                  ((fun x => x - xl) <$> (if causal then <[m := (rank + 1) * lpr]> base else base)) i)
        as [a Ha]; [ rewrite Hlk; lia | ].
      destruct (Hks i a x Ha Hx). destruct causal; simpl; lia.
Qed.

Lemma shard_boundaries_sorted_witness :
  exists s,
    llama3_flash_attn_prepare_cu_seqlens [0; 6; 16] true 1 2 = Ok s /\
    nondecreasing (cu_seqlens_q s) /\ nondecreasing (cu_seqlens_k s).
Proof.
  destruct (shard_boundaries_sorted [0; 6; 16] true 1 2 16) as (s & Hs & Hq & Hk & _).
  - unfold valid_layout. simpl. repeat split; lia.
  - lia.
  - lia.
  - by exists s.
Defined.
End PartitionExtras.

Section PartitionExtras2.
Import Partition.

(** X4.  Where the key slice of a shard starts and ends.  It starts at the
    last sequence boundary at or before the rank's first token.  With
    causal masking it ends with the rank's own range; without, it ends at
    the first sequence boundary at or after the end of the rank's range,
    however many ranks that sequence spans.  Either way it contains the
    rank's own token range. *)
Theorem key_slice_ends (cu : list Z) (causal : bool) (rank world_size total : Z) :
  valid_layout cu world_size total -> 0 <= rank < world_size -> 0 < total ->
  let length_per_rank := total / world_size in
  exists s,
    llama3_flash_attn_prepare_cu_seqlens cu causal rank world_size = Ok s /\
    (local_k_slice s).1 ∈ cu /\
    (local_k_slice s).1 <= rank * length_per_rank /\
    (forall y, y ∈ cu -> y <= rank * length_per_rank -> y <= (local_k_slice s).1) /\
    (rank + 1) * length_per_rank <= (local_k_slice s).2 /\
    (causal = true -> (local_k_slice s).2 = (rank + 1) * length_per_rank) /\
    (causal = false ->
       (local_k_slice s).2 ∈ cu /\
       forall y, y ∈ cu -> (rank + 1) * length_per_rank <= y -> (local_k_slice s).2 <= y).
Proof.
  intros Hvalid Hrank Hpos lpr. shard_view causal Hvalid Hrank Hpos.
  fold lpr in Hxl, Hxr, Hgl, Hlu, Hsl. rewrite Hsl. simpl.
  split; [ apply Hbase; by eapply list_elem_of_lookup_2 | ].
  split; [ done | ]. split; [ done | ].
  split; [ destruct causal; lia | ].
  split; [ by intros -> | ].
  intros ->. split; [ apply Hbase; by eapply list_elem_of_lookup_2 | done ].
Qed.

Lemma key_slice_ends_witness :
  exists s,
    llama3_flash_attn_prepare_cu_seqlens [0; 30] false 1 3 = Ok s /\
    (local_k_slice s).1 <= 1 * (30 / 3) /\ (1 + 1) * (30 / 3) <= (local_k_slice s).2.
Proof.
  destruct (key_slice_ends [0; 30] false 1 3 30) as (s & Hs & _ & Hl & _ & Hr & _).
  - unfold valid_layout. simpl. repeat split; lia.
  - lia.
  - lia.
  - by exists s.
Defined.

Lemma steps_nonpos_last_le (l : list Z) (i : nat) (a b : Z) :
  (forall (j : nat) x y, l !! j = Some x -> l !! S j = Some y -> y - x <= 0) ->
  l !! O = Some a -> l !! i = Some b -> b <= a.
Proof.
  intros Hsteps Ha. revert b. induction i as [ | i IH ]; intros b Hb.
  - rewrite Ha in Hb. injection Hb as <-. lia.
  - destruct (lookup_lt_is_Some_2 l i) as [c Hc].
    { apply lookup_lt_Some in Hb. lia. }
    specialize (IH c Hc). specialize (Hsteps i c b Hc Hb). lia.
Qed.

(** X5.  The two maxima of a shard.  [max_seqlen_q] is the length of the
    longest local query sequence: it is one of the differences of
    consecutive entries of [cu_seqlens_q] and no difference exceeds it; it
    lies between 1 and [length_per_rank]; and it never exceeds
    [max_seqlen_k], because every local key sequence is at least as long
    as its query sequence. *)
Theorem shard_max_seqlen (cu : list Z) (causal : bool) (rank world_size total : Z) :
  valid_layout cu world_size total -> 0 <= rank < world_size -> 0 < total ->
  exists s,
    llama3_flash_attn_prepare_cu_seqlens cu causal rank world_size = Ok s /\
    max_seqlen_q s ∈ diffs (cu_seqlens_q s) /\
    (forall d, d ∈ diffs (cu_seqlens_q s) -> d <= max_seqlen_q s) /\
    max_seqlen_k s ∈ diffs (cu_seqlens_k s) /\
    (forall d, d ∈ diffs (cu_seqlens_k s) -> d <= max_seqlen_k s) /\
    1 <= max_seqlen_q s <= total / world_size /\
    (forall (i : nat) dq dk,
       diffs (cu_seqlens_q s) !! i = Some dq -> diffs (cu_seqlens_k s) !! i = Some dk ->
       dq <= dk) /\
    max_seqlen_q s <= max_seqlen_k s.
Proof.
  intros Hvalid Hrank Hpos. shard_view causal Hvalid Hrank Hpos.
  pose proof Hvalid as (_ & _ & _ & Hws & Hmod).
  pose proof (Z.div_exact total world_size ltac:(lia)) as [_ Hex].
  specialize (Hex Hmod).
  set (lpr := total / world_size) in *.
  assert (0 < lpr) as Hlpr by nia.
  assert (rank * lpr < (rank + 1) * lpr) as Hvw by lia.
  assert (lpr = (rank + 1) * lpr - rank * lpr) as Hd by lia.
  destruct (tensor_max_spec _ _ Hmq) as [Hqin Hqmax].
  destruct (tensor_max_spec _ _ Hmk) as [Hkin Hkmax].
  do 4 (split; [ done | ]).
  rewrite Hq, Hk in *.
  set (q := <[m := lpr]> (<[O := 0]> ((fun x => x - rank * lpr) <$> base))) in *.
  set (k := (fun x => x - xl) <$> (if causal then <[m := (rank + 1) * lpr]> base else base)) in *.
  assert (length q = S m) as Hlq by (unfold q; by rewrite !length_insert, length_fmap).
  assert (length k = S m) as Hlk.
  { unfold k. rewrite length_fmap. destruct causal; by rewrite ?length_insert. }
  assert (forall (i : nat) a b, q !! i = Some a -> q !! S i = Some b ->
            0 <= a /\ a <= b /\ b <= lpr) as Hqs.
  { intros i a b Ha Hb. eapply (q_steps base m (rank * lpr) ((rank + 1) * lpr) lpr xl xr);
      eassumption. }
  assert (forall (i : nat) dq dk, diffs q !! i = Some dq -> diffs k !! i = Some dk ->
            dq <= dk) as Hge.
  { intros i dq dk Hdq Hdk.
    eapply (k_step_ge_q_step base m (rank * lpr) ((rank + 1) * lpr) lpr xl xr causal);
      eassumption. }
  assert (max_seqlen_q s <= max_seqlen_k s) as Hmax.
  { apply list_elem_of_lookup in Hqin as [i Hi].
    destruct (lookup_lt_is_Some_2 (diffs k) i) as [dk Hdk].
    { apply lookup_lt_Some in Hi. rewrite diffs_length in *. lia. }
    specialize (Hge i _ _ Hi Hdk).
    specialize (Hkmax dk (list_elem_of_lookup_2 _ _ _ Hdk)). lia. }
  split; [ | split; [ exact Hge | exact Hmax ] ].
  split.
  - destruct (decide (1 <= max_seqlen_q s)) as [ | Hsmall ]; [ done | ].
    assert (q !! O = Some 0) as Hq0.
    { unfold q. rewrite list_lookup_insert_ne by lia.
      apply list_lookup_insert_eq. rewrite length_fmap. lia. }
    assert (q !! m = Some lpr) as Hqm.
    { unfold q. apply list_lookup_insert_eq. rewrite length_insert, length_fmap. lia. }
    pose proof (steps_nonpos_last_le q m 0 lpr) as Hcontra.
    assert (lpr <= 0); [ | lia ].
    apply Hcontra; [ | done | done ].
    intros j x y Hx Hy.
    specialize (Hqmax (y - x) (list_elem_of_lookup_2 _ _ _ (diffs_lookup q j x y Hx Hy))).
    lia.
  - apply list_elem_of_lookup in Hqin as [i Hi].
    apply diffs_lookup_inv in Hi as (a & b & Ha & Hb & ->).
    destruct (Hqs i a b Ha Hb). lia.
Qed.

Lemma shard_max_seqlen_witness :
  exists s,
    llama3_flash_attn_prepare_cu_seqlens [0; 6; 16] false 0 2 = Ok s /\
    1 <= max_seqlen_q s <= 16 / 2 /\ max_seqlen_q s <= max_seqlen_k s.
Proof.
  destruct (shard_max_seqlen [0; 6; 16] false 0 2 16)
    as (s & Hs & _ & _ & _ & _ & Hb & _ & Hle).
  - unfold valid_layout. simpl. repeat split; lia.
  - lia.
  - lia.
  - by exists s.
Defined.
End PartitionExtras2.

(** ** CommScheduler: the ring and a hop around it *)

Section RingExtras.
Context {Tensor Req World : Type}.
Variable batch_isend_irecv :
  list (@RingComm.P2POp Tensor) -> World -> result (list Req * World).
Variable req_wait : Req -> World -> result World.
Variable empty_like : Tensor -> Tensor.

Abbreviation ring := (@RingComm.t Tensor Req).

(** X6.  The neighbours of a rank on the ring of a group of [world_size >= 1]
    ranks (no translation to global ranks): both are ranks of the group,
    the rank this one sends to receives from this one, and the rank this
    one receives from sends to this one.  A group of size 0 is refused. *)
Theorem ring_neighbours (rank world_size : Z) :
  (world_size = 0 ->
     RingComm.init (Tensor := Tensor) (Req := Req) rank world_size None
     = Raise ZeroDivisionError) /\
  (1 <= world_size -> 0 <= rank < world_size ->
   exists c : ring,
     RingComm.init rank world_size None = Ok c /\
     RingComm._ops c = [] /\ RingComm._reqs c = None /\
     0 <= RingComm.send_rank c < world_size /\
     0 <= RingComm.recv_rank c < world_size /\
     (exists c' : ring, RingComm.init (RingComm.send_rank c) world_size None = Ok c' /\
        RingComm.recv_rank c' = rank) /\
     (exists c' : ring, RingComm.init (RingComm.recv_rank c) world_size None = Ok c' /\
        RingComm.send_rank c' = rank)).
Proof.
  split.
  - intros ->. done.
  - intros Hws Hrank. unfold RingComm.init.
    rewrite decide_False by lia. eexists. split; [ reflexivity | ]. simpl.
    split; [ done | ]. split; [ done | ].
    split; [ apply Z.mod_pos_bound; lia | ].
    split; [ apply Z.mod_pos_bound; lia | ].
    split; eexists; (split; [ by rewrite decide_False by lia | ]); simpl.
    + rewrite Zminus_mod_idemp_l.
      replace (rank + 1 - 1) with rank by lia. apply Z.mod_small. lia.
    + rewrite Zplus_mod_idemp_l.
      replace (rank - 1 + 1) with rank by lia. apply Z.mod_small. lia.
Qed.

(** X7.  One hop.  On a scheduler with no batch pending, [send_recv_kv] queues
    the send and the receive of [k] and then those of [v] behind whatever
    was queued, hands the whole queue to the transport as one batch, and
    returns the receive buffers: the given ones, or new tensors like [k]
    and [v].  With a batch pending it raises.  A [wait] after the hop
    waits on every request of the batch and leaves the scheduler as it
    was before the hop, with an empty queue. *)
Theorem ring_hop (c : ring) (k v : Tensor) (k_buffer v_buffer : option Tensor) (w : World) :
  let next_k := default (empty_like k) k_buffer in
  let next_v := default (empty_like v) v_buffer in
  let ops := RingComm._ops c ++
             [RingComm.isend k (RingComm.send_rank c);
              RingComm.irecv next_k (RingComm.recv_rank c);
              RingComm.isend v (RingComm.send_rank c);
              RingComm.irecv next_v (RingComm.recv_rank c)] in
  (is_Some (RingComm._reqs c) ->
     RingComm.send_recv_kv batch_isend_irecv empty_like c k v k_buffer v_buffer w
     = Raise (RuntimeError "commit called twice")) /\
  (RingComm._reqs c = None ->
   forall reqs w1, batch_isend_irecv ops w = Ok (reqs, w1) ->
   exists c1,
     RingComm.send_recv_kv batch_isend_irecv empty_like c k v k_buffer v_buffer w
     = Ok (c1, (next_k, next_v), w1) /\
     RingComm._ops c1 = ops /\ RingComm._reqs c1 = Some reqs /\
     forall w2, RingComm.wait_all req_wait reqs w1 = Ok w2 ->
       RingComm.wait req_wait c1 w1 = Ok (RingComm.set_ops c [], w2)).
Proof.
  intros next_k next_v ops. unfold RingComm.send_recv_kv, RingComm.send_recv.
  assert ((((RingComm._ops c ++ [RingComm.isend k (RingComm.send_rank c)]) ++
            [RingComm.irecv next_k (RingComm.recv_rank c)]) ++
           [RingComm.isend v (RingComm.send_rank c)]) ++
          [RingComm.irecv next_v (RingComm.recv_rank c)] = ops) as Hops.
  { unfold ops. by rewrite <- !app_assoc. }
  split.
  - intros [reqs Hreqs]. destruct k_buffer, v_buffer; simpl;
      unfold RingComm.commit; simpl; by rewrite Hreqs.
  - intros Hnone reqs w1 Hbatch.
    exists (RingComm.set_reqs (RingComm.set_ops c ops) (Some reqs)).
    split; [ | split; [ | split ] ].
    + destruct c as [ops0 rk ws rq sr rr]. simpl in *. subst rq.
      unfold RingComm.commit, next_k, next_v in *.
      destruct k_buffer, v_buffer; simpl in *;
        rewrite Hops, Hbatch; reflexivity.
    + done.
    + done.
    + intros w2 Hw. unfold RingComm.wait. simpl. rewrite Hw. bind_step.
      destruct c; simpl in *. subst. reflexivity.
Qed.
End RingExtras.

Lemma ring_neighbours_witness :
  exists c : @RingComm.t nat unit,
    RingComm.init 3 4 None = Ok c /\ RingComm.send_rank c = 0 /\ RingComm.recv_rank c = 2.
Proof.
  destruct (proj2 (ring_neighbours (Tensor := nat) (Req := unit) 3 4) ltac:(lia) ltac:(lia))
    as (c & Hc & _ & _ & _ & _ & _ & _).
  exists c. split; [ exact Hc | ].
  vm_compute in Hc. injection Hc as <-. done.
Defined.

Lemma ring_hop_witness :
  let c := {| RingComm._ops := []; RingComm.rank := 0; RingComm.world_size := 2;
              RingComm._reqs := @None (list unit); RingComm.send_rank := 1;
              RingComm.recv_rank := 1 |} in
  RingComm.wait (fun _ w => Ok w)
    {| RingComm._ops :=
         [RingComm.isend 7%nat 1; RingComm.irecv 7%nat 1;
          RingComm.isend 8%nat 1; RingComm.irecv 8%nat 1];
       RingComm.rank := 0; RingComm.world_size := 2;
       RingComm._reqs := Some [(); ()]; RingComm.send_rank := 1;
       RingComm.recv_rank := 1 |} ()
  = Ok (c, ()).
Proof.
  intros c.
  destruct (proj2 (ring_hop (World := unit) (fun _ w => Ok ([(); ()], w))
                     (fun _ w => Ok w) (fun t : nat => t) c 7%nat 8%nat None None ())
              eq_refl [(); ()] () eq_refl) as (c1 & Hhop & _ & _ & Hwait).
  injection Hhop as <-. apply Hwait. reflexivity.
Defined.

(** ** OnlineSoftmaxMerger: bounds, order of the blocks, the store *)

Section MergeNumeric.
Import Torch Merge MergeOrder.
Local Open Scope R_scope.

(** X8.  One merge step stays within bounds: the weight of the block lies
    strictly between 0 and 1, so the new output entry lies between the
    old entry and the block's; the new lse exceeds both the old lse and
    the block's, by [ln 2] at most. *)
Theorem merge_bounds (out lse block_out block_lse : R) :
  0 < sigmoid (block_lse - lse) < 1 /\
  Rmin out block_out <= out_entry out lse block_out block_lse <= Rmax out block_out /\
  Rmax lse block_lse < lse_entry lse block_lse <= Rmax lse block_lse + ln 2.
Proof.
  pose proof (exp_pos lse) as Hl. pose proof (exp_pos block_lse) as Hb.
  assert (0 < sigmoid (block_lse - lse) < 1) as Hs.
  { rewrite sigmoid_ratio. split.
    - apply Rdiv_lt_0_compat; lra.
    - apply (Rmult_lt_reg_r (exp block_lse + exp lse)); [ lra | ].
      unfold Rdiv. rewrite Rmult_assoc, Rinv_l by lra. lra. }
  split; [ exact Hs | ]. split.
  - unfold out_entry. set (s := sigmoid (block_lse - lse)) in *.
    unfold Rmin, Rmax. destruct (Rle_dec out block_out); split; nra.
  - rewrite lse_entry_logsumexp. split.
    + unfold Rmax. destruct (Rle_dec lse block_lse).
      * rewrite <- (ln_exp block_lse) at 1. apply ln_increasing; lra.
      * rewrite <- (ln_exp lse) at 1. apply ln_increasing; lra.
    + assert (exp lse + exp block_lse <= 2 * exp (Rmax lse block_lse)) as Hle.
      { unfold Rmax. destruct (Rle_dec lse block_lse) as [ Hc | Hc ].
        - destruct Hc as [ Hc | -> ]; [ apply exp_increasing in Hc | ]; lra.
        - apply Rnot_le_lt, exp_increasing in Hc. lra. }
      pose proof (exp_pos (Rmax lse block_lse)) as Hm.
      replace (Rmax lse block_lse + ln 2) with (ln (2 * exp (Rmax lse block_lse))).
      2:{ rewrite ln_mult, ln_exp by lra. lra. }
      destruct Hle as [ Hlt | -> ]; [ left; apply ln_increasing; lra | right; done ].
Qed.

Lemma block_mass_nonneg (blocks : list (R * R)) : 0 <= block_mass blocks.
Proof.
  induction blocks as [ | b blocks IH ]; unfold block_mass; simpl; [ lra | ].
  pose proof (exp_pos b.2). fold (block_mass blocks). lra.
Qed.

Lemma merge_fold_closed_form (W M : R) (rest : list (R * R)) :
  0 < M ->
  foldl merge_entry (W / M, ln M) rest
  = ((W + block_weighted rest) / (M + block_mass rest),
     ln (M + block_mass rest)).
Proof.
  revert W M. induction rest as [ | b rest IH ]; intros W M HM.
  - unfold block_weighted, block_mass. simpl. by rewrite !Rplus_0_r.
  - pose proof (exp_pos b.2) as Hb. pose proof (block_mass_nonneg rest) as Hr.
    cbn [foldl]. unfold merge_entry at 2. cbn [fst snd].
    rewrite out_entry_convex, lse_entry_logsumexp, exp_ln by lra.
    replace ((M * (W / M) + exp b.2 * b.1) / (M + exp b.2))
      with ((W + exp b.2 * b.1) / (M + exp b.2)) by (field; lra).
    rewrite IH by lra.
    unfold block_weighted, block_mass. cbn [foldr].
    fold (block_weighted rest). fold (block_mass rest).
    f_equal; [ f_equal; lra | f_equal; lra ].
Qed.

Lemma merge_blocks_closed_form (first : R * R) (rest : list (R * R)) :
  merge_blocks first rest
  = (block_weighted (first :: rest) / block_mass (first :: rest),
     ln (block_mass (first :: rest))).
Proof.
  destruct first as [o l]. pose proof (exp_pos l) as Hl.
  unfold merge_blocks.
  replace (o, l) with (exp l * o / exp l, ln (exp l)).
  2:{ rewrite ln_exp. f_equal. field. lra. }
  rewrite merge_fold_closed_form by lra.
  unfold block_weighted, block_mass. cbn [foldr fst snd].
  rewrite ln_exp.
  replace (exp l * (exp l * o / exp l)) with (exp l * o) by (field; lra).
  done.
Qed.

Lemma block_sums_permutation (l k : list (R * R)) :
  l ≡ₚ k -> block_mass l = block_mass k /\ block_weighted l = block_weighted k.
Proof.
  unfold block_mass, block_weighted.
  induction 1 as [ | x l k _ [IH1 IH2] | x y l | l k j _ [IH1 IH2] _ [IH3 IH4] ]; simpl.
  - done.
  - by rewrite IH1, IH2.
  - split; lra.
  - split; congruence.
Qed.


End MergeNumeric.

Section MergeStoreExtras.
Import Torch Merge.

Lemma zip_with_snd {A B : Type} (l1 : list A) (l2 : list B) :
  length l2 = length l1 -> zip_with (fun _ y => y) l1 l2 = l2.
Proof.
  revert l2. induction l1 as [ | x l1 IH ]; intros [ | y l2 ] Hlen;
    simpl in *; try done. f_equal. apply IH. lia.
Qed.

Lemma bcopy_replace {A : Type} (f : A -> A -> result A) (dst src : list A) :
  length src = length dst ->
  (forall (i : nat) d x, dst !! i = Some d -> src !! i = Some x -> f d x = Ok x) ->
  bcopy f dst src = Ok src.
Proof.
  intros Hlen Hf.
  rewrite (bcopy_same_length f (fun _ y => y)) by done.
  by rewrite zip_with_snd.
Qed.

Lemma copy3_same_shape (dst src : tensor3) (n h d : nat) :
  shape3 dst n h d -> shape3 src n h d -> copy3 dst src = Ok src.
Proof.
  intros Hd Hs. unfold copy3.
  apply bcopy_replace; [ destruct Hd, Hs; lia | ].
  intros i r1 r2 H1 H2.
  destruct (shape3_lookup _ _ _ _ _ _ Hd H1) as [Hl1 Hf1].
  destruct (shape3_lookup _ _ _ _ _ _ Hs H2) as [Hl2 Hf2].
  apply bcopy_replace; [ lia | ].
  intros j e1 e2 He1 He2.
  rewrite Forall_lookup in Hf1, Hf2.
  apply bcopy_replace; [ rewrite (Hf1 _ _ He1), (Hf2 _ _ He2); done | done ].
Qed.

Lemma shape3_window {A : Type} (t : list (list (list A))) (n h d a b : nat) :
  shape3 t n h d -> (a <= b <= n)%nat ->
  shape3 (take (b - a) (drop a t)) (b - a) h d.
Proof.
  intros [Hn Hf] Hab. split.
  - rewrite length_take, length_drop. lia.
  - by apply Forall_take, Forall_drop.
Qed.

Lemma entry_window {A : Type} (t : list (list (list A))) (a m i j k : nat) :
  (i < m)%nat -> entry (take m (drop a t)) i j k = entry t (a + i) j k.
Proof.
  intros Hi. unfold entry. by rewrite lookup_take_lt, lookup_drop.
Qed.

Lemma entry_spliced {A : Type} (t v : list (list (list A))) (a m i j k : nat) :
  (a <= length t)%nat -> (i < length v)%nat ->
  entry (take a t ++ v ++ drop (a + m) t) (a + i) j k = entry v i j k.
Proof.
  intros Ha Hi. unfold entry.
  rewrite lookup_app_r by (rewrite length_take; lia).
  rewrite length_take, Nat.min_l by lia.
  replace (a + i - a)%nat with i by lia.
  by rewrite lookup_app_l.
Qed.

(** X10.  Merging a block into existing accumulators without a slice allocates:
    the merged tensors are two new objects, and every tensor that existed
    before, the old accumulators among them, keeps its contents. *)
Theorem unsliced_update_allocates
    (σ : gmap nat tensor3) (out lse : nat) (t_out t_lse block_out m_out m_lse : tensor3)
    (block_lse : tensor2) :
  σ !! out = Some t_out -> σ !! lse = Some t_lse ->
  _update_out_and_lse t_out t_lse block_out block_lse = Ok (m_out, m_lse) ->
  exists σ' out' lse',
    update_out_and_lse σ (Some out) (Some lse) block_out block_lse None
      = Ok (σ', (out', lse')) /\
    σ' !! out' = Some m_out /\ σ' !! lse' = Some m_lse /\
    σ !! out' = None /\ σ !! lse' = None /\ out' ≠ lse' /\
    forall p t, σ !! p = Some t -> σ' !! p = Some t.
Proof.
  intros Hout Hlse Hm. unfold update_out_and_lse, deref.
  rewrite Hout, Hlse. bind_step. rewrite Hm. bind_step.
  set (o := fresh (dom σ)).
  set (l := fresh (dom (<[o := m_out]> σ))).
  assert (σ !! o = None) as Ho.
  { apply not_elem_of_dom. apply is_fresh. }
  assert ((<[o := m_out]> σ) !! l = None) as Hl.
  { apply not_elem_of_dom. apply is_fresh. }
  assert (o ≠ l) as Hol.
  { intros Heq. rewrite <- Heq, lookup_insert_eq in Hl. done. }
  exists (<[l := m_lse]> (<[o := m_out]> σ)), o, l.
  split; [ done | ].
  split; [ by rewrite lookup_insert_ne, lookup_insert_eq | ].
  split; [ by rewrite lookup_insert_eq | ].
  split; [ done | ].
  split; [ by rewrite lookup_insert_ne in Hl | ].
  split; [ done | ].
  intros p t Hp.
  rewrite !lookup_insert_ne; [ done | congruence | ].
  intros <-. rewrite lookup_insert_ne in Hl by done. congruence.
Qed.

Lemma unsliced_update_allocates_witness :
  exists σ' out' lse',
    update_out_and_lse {[ 0%nat := [[[1%R]]]; 1%nat := [[[0%R]]] ]}
      (Some 0%nat) (Some 1%nat) [[[3%R]]] [[0%R]] None = Ok (σ', (out', lse')) /\
    σ' !! 0%nat = Some [[[1%R]]] /\ σ' !! 1%nat = Some [[[0%R]]] /\ out' ≠ lse'.
Proof.
  destruct (_update_out_and_lse [[[1%R]]] [[[0%R]]] [[[3%R]]] [[0%R]])
    as [ [m_out m_lse] | e ] eqn:E; [ | discriminate E ].
  destruct (unsliced_update_allocates
              {[ 0%nat := [[[1%R]]]; 1%nat := [[[0%R]]] ]} 0%nat 1%nat
              [[[1%R]]] [[[0%R]]] [[[3%R]]] m_out m_lse [[0%R]])
    as (σ' & out' & lse' & Hok & _ & _ & _ & _ & Hne & Hkeep);
    [ reflexivity | reflexivity | exact E | ].
  exists σ', out', lse'.
  split; [ exact Hok | ].
  split; [ apply Hkeep; reflexivity | ].
  split; [ apply Hkeep; reflexivity | exact Hne ].
Defined.

(** X11.  Merging a block through a slice [a:b]: at every position inside the
    slice the accumulators hold, afterwards, the merge of their earlier
    entry with the block's entry for that token and head. *)
Theorem sliced_update_merges
    (σ : gmap nat tensor3) (out lse : nat) (t_out t_lse block_out : tensor3)
    (block_lse : tensor2) (a b n h d : nat) :
  out ≠ lse ->
  σ !! out = Some t_out -> σ !! lse = Some t_lse ->
  shape3 t_out n h d -> shape3 t_lse n h 1 ->
  (a <= b <= n)%nat ->
  shape3 block_out (b - a) h d -> shape2 block_lse h (b - a) -> (0 < h)%nat ->
  exists σ' t_out' t_lse',
    update_out_and_lse σ (Some out) (Some lse) block_out block_lse
      (Some (Some (Z.of_nat a), Some (Z.of_nat b))) = Ok (σ', (out, lse)) /\
    σ' !! out = Some t_out' /\ σ' !! lse = Some t_lse' /\
    forall (i j k : nat) (o l x c : R),
      entry t_out (a + i) j k = Some o -> entry t_lse (a + i) j O = Some l ->
      entry block_out i j k = Some x -> (row ← block_lse !! j; row !! i) = Some c ->
      entry t_out' (a + i) j k = Some (out_entry o l x c) /\
      entry t_lse' (a + i) j O = Some (lse_entry l c).
Proof.
  intros Hne Hout Hlse Hso Hsl Hab Hbo Hbl Hh.
  pose proof Hso as [Hno _]. pose proof Hsl as [Hnl _].
  pose proof (shape3_window _ _ _ _ a b Hso Hab) as Hwo.
  pose proof (shape3_window _ _ _ _ a b Hsl Hab) as Hwl.
  destruct (_update_out_and_lse_entries _ _ _ _ _ _ _ Hwo Hwl Hbo Hbl Hh)
    as (so & sl & Hupd & Hsso & Hssl & Hent).
  assert (forall t : tensor3, length t = n ->
            slice_start t (Some (Z.of_nat a), Some (Z.of_nat b)) = a /\
            slice_stop t (Some (Z.of_nat a), Some (Z.of_nat b)) = b) as Hclamp.
  { intros t Ht. unfold slice_start, slice_stop, Py.clamp. cbn [fst snd].
    rewrite !decide_False by lia. lia. }
  assert (forall (t v : tensor3) (d' : nat), shape3 t n h d' -> shape3 v (b - a) h d' ->
            setslice t (Some (Z.of_nat a), Some (Z.of_nat b)) v
            = Ok (take a t ++ v ++ drop (a + (b - a)) t)) as Hset.
  { intros t v d' Ht Hv. unfold setslice.
    destruct (Hclamp t (proj1 Ht)) as [-> ->].
    rewrite (copy3_same_shape _ _ _ _ _ (shape3_window _ _ _ _ a b Ht Hab) Hv).
    done. }
  unfold update_out_and_lse, deref. rewrite Hout, Hlse. bind_step.
  unfold getslice. cbn [fst snd].
  rewrite !slice_inside by lia.
  rewrite Hupd. bind_step.
  rewrite (Hset _ _ _ Hso Hsso). bind_step.
  rewrite lookup_insert_ne, Hlse by done. bind_step.
  rewrite (Hset _ _ _ Hsl Hssl). bind_step.
  eexists _, _, _. split; [ reflexivity | ].
  split; [ by rewrite lookup_insert_ne, lookup_insert_eq | ].
  split; [ by rewrite lookup_insert_eq | ].
  intros i j k o l x c Ho Hl Hx Hc.
  assert (i < b - a)%nat as Hi.
  { apply entry_Some in Hx as (row & _ & Hrow & _).
    apply lookup_lt_Some in Hrow. destruct Hbo as [Hbo _]. lia. }
  rewrite !entry_spliced by (destruct Hsso, Hssl; lia).
  apply Hent; try done; by rewrite entry_window.
Qed.

Lemma sliced_update_merges_witness :
  exists σ' t_out' t_lse',
    update_out_and_lse {[ 0%nat := [[[1%R]]; [[2%R]]]; 1%nat := [[[0%R]]; [[0%R]]] ]}
      (Some 0%nat) (Some 1%nat) [[[3%R]]] [[0%R]]
      (Some (Some (Z.of_nat 1), Some (Z.of_nat 2))) = Ok (σ', (0%nat, 1%nat)) /\
    σ' !! 0%nat = Some t_out' /\ σ' !! 1%nat = Some t_lse' /\
    entry t_out' 1 0 0 = Some (out_entry 2 0 3 0) /\
    entry t_lse' 1 0 0 = Some (lse_entry 0 0).
Proof.
  destruct (sliced_update_merges
              {[ 0%nat := [[[1%R]]; [[2%R]]]; 1%nat := [[[0%R]]; [[0%R]]] ]}
              0%nat 1%nat [[[1%R]]; [[2%R]]] [[[0%R]]; [[0%R]]] [[[3%R]]] [[0%R]]
              1 2 2 1 1)
    as (σ' & t_out' & t_lse' & Hok & Ho & Hl & Hent).
  - done.
  - reflexivity.
  - reflexivity.
  - split; [ reflexivity | repeat constructor ].
  - split; [ reflexivity | repeat constructor ].
  - lia.
  - split; [ reflexivity | repeat constructor ].
  - split; [ reflexivity | repeat constructor ].
  - lia.
  - exists σ', t_out', t_lse'.
    split; [ exact Hok | ]. split; [ exact Ho | ]. split; [ exact Hl | ].
    apply (Hent 0%nat 0%nat 0%nat); reflexivity.
Defined.
End MergeStoreExtras.

Section MergeRejects.
Import Torch Merge.

Lemma collect_raises_shape {A : Type} (l : list (result A)) (e : exn) :
  (forall m e', m ∈ l -> m = Raise e' -> e' = ShapeError) ->
  collect l = Raise e -> e = ShapeError.
Proof.
  induction l as [ | m l IH ]; intros Hl H; [ discriminate | ].
  cbn [collect] in H. destruct m as [ x | e' ] eqn:Em.
  - bind_step in H. destruct (collect l) as [ xs | e'' ] eqn:El.
    + discriminate.
    + bind_step in H. injection H as <-. apply IH; [ | done ].
      intros m' e1 Hin. apply Hl. by right.
  - bind_step in H. injection H as <-. apply (Hl (Raise e')); [ by left | done ].
Qed.

Lemma bzip_raises_shape {A B C : Type} (f : A -> B -> result C)
    (l1 : list A) (l2 : list B) (e : exn) :
  (forall x y e', f x y = Raise e' -> e' = ShapeError) ->
  bzip f l1 l2 = Raise e -> e = ShapeError.
Proof.
  intros Hf. unfold bzip. destruct (decide (length l1 = length l2)).
  - apply collect_raises_shape. intros m e' Hin ->.
    apply elem_of_lookup_zip_with in Hin as (i & x & y & Hxy & _). by eapply Hf.
  - assert (forall (x : A), collect (f x <$> l2) = Raise e -> e = ShapeError) as H1.
    { intros x. apply collect_raises_shape. intros m e' Hin ->.
      apply list_elem_of_fmap in Hin as (y & Hxy & _). by eapply Hf. }
    assert (forall (y : B), collect ((fun a => f a y) <$> l1) = Raise e -> e = ShapeError) as H2.
    { intros y. apply collect_raises_shape. intros m e' Hin ->.
      apply list_elem_of_fmap in Hin as (x & Hxy & _). by eapply Hf. }
    destruct l1 as [ | x [ | x' l1 ] ], l2 as [ | y [ | y' l2 ] ];
      try (intros [=]; congruence); try apply H1; try apply H2.
Qed.

Lemma binop3_raises_shape (op : R -> R -> R) (a b : tensor3) (e : exn) :
  binop3 op a b = Raise e -> e = ShapeError.
Proof.
  unfold binop3. apply bzip_raises_shape. intros x y e'.
  apply bzip_raises_shape. intros x' y' e''.
  apply bzip_raises_shape. intros ? ? ? [=].
Qed.

(** X12.  A block whose token count differs from the accumulator's is rejected:
    unless one of the two counts is 1 (which would broadcast), the
    unsliced update raises a shape error instead of merging. *)
Theorem update_rejects_token_mismatch
    (σ : gmap nat tensor3) (out lse : nat) (t_out t_lse block_out : tensor3)
    (block_lse : tensor2) :
  σ !! out = Some t_out -> σ !! lse = Some t_lse ->
  length t_out ≠ length block_out -> length t_out ≠ 1%nat -> length block_out ≠ 1%nat ->
  update_out_and_lse σ (Some out) (Some lse) block_out block_lse None
    = Raise ShapeError.
Proof.
  intros Hout Hlse Hne H1 H2. unfold update_out_and_lse, deref.
  rewrite Hout, Hlse. bind_step. unfold _update_out_and_lse.
  destruct (binop3 Rminus (unsqueeze (transpose block_lse)) t_lse) as [ d | e ] eqn:Ed.
  - bind_step.
    assert (binop3 Rminus t_out block_out = Raise ShapeError) as ->; [ | done ].
    unfold binop3, bzip. rewrite decide_False by done.
    destruct t_out as [ | x [ | x' t_out ] ], block_out as [ | y [ | y' block_out ] ];
      simpl in *; done.
  - apply binop3_raises_shape in Ed as ->. done.
Qed.

Lemma update_rejects_token_mismatch_witness :
  update_out_and_lse {[ 0%nat := [[[1%R]]; [[2%R]]]; 1%nat := [[[0%R]]; [[0%R]]] ]}
    (Some 0%nat) (Some 1%nat) [[[3%R]]; [[3%R]]; [[3%R]]] [[0%R; 0%R; 0%R]] None
  = Raise ShapeError.
Proof.
  apply (update_rejects_token_mismatch _ 0%nat 1%nat
           [[[1%R]]; [[2%R]]] [[[0%R]]; [[0%R]]]);
    [ reflexivity | reflexivity | simpl; lia | simpl; lia | simpl; lia ].
Defined.
End MergeRejects.

(** ** VarlenLseLayout: packing, padding and rejected inputs *)

Section CollectRaise.
Import Torch.

Lemma collect_raise_at {A : Type} (l : list (result A)) (i : nat) (e : exn) :
  l !! i = Some (Raise e) ->
  (forall j : nat, (j < i)%nat -> exists x, l !! j = Some (Ok x)) ->
  collect l = Raise e.
Proof.
  revert i. induction l as [ | m l IH ]; intros i Hi Hbefore; [ done | ].
  destruct i as [ | i ].
  - injection Hi as ->. done.
  - destruct (Hbefore O ltac:(lia)) as [x Hx]. injection Hx as ->.
    cbn [collect]. bind_step.
    rewrite (IH i); [ done | done | ].
    intros j Hj. apply (Hbefore (S j)). lia.
Qed.

Lemma collect_some_raise {A : Type} (l : list (result A)) (i : nat) (e : exn) :
  l !! i = Some (Raise e) -> exists e', collect l = Raise e'.
Proof.
  revert i. induction l as [ | m l IH ]; intros i Hi; [ done | ].
  destruct m as [ x | e0 ]; [ | by eexists ].
  destruct i as [ | i ]; [ done | ].
  destruct (IH i Hi) as [e' He']. exists e'.
  cbn [collect]. bind_step. by rewrite He'.
Qed.

Lemma bcopy_raises_shape {A B : Type} (f : A -> B -> result A)
    (dst : list A) (src : list B) (e : exn) :
  (forall x y e', f x y = Raise e' -> e' = ShapeError) ->
  bcopy f dst src = Raise e -> e = ShapeError.
Proof.
  intros Hf. unfold bcopy. destruct (decide (length src = length dst)).
  - apply collect_raises_shape. intros m e' Hin ->.
    apply elem_of_lookup_zip_with in Hin as (i & x & y & Hxy & _). by eapply Hf.
  - destruct src as [ | y [ | y' src ] ]; try (intros [=]; congruence).
    apply collect_raises_shape. intros m e' Hin ->.
    apply list_elem_of_fmap in Hin as (x & Hxy & _). by eapply Hf.
Qed.
End CollectRaise.

Section LseExtras.
Import Torch Partition VarlenLse.

(** X13.  Packing a padded lse: on a valid batch [flatten_varlen_lse] returns
    a tensor of shape (nheads, total tokens), and token [p] of sequence [i]
    sits, for every head, at column [cu_seqlens[i] + p]. *)
Theorem flatten_packs {V : Type} (lse : list (list (list V))) (cu_seqlens : list Z)
    (nheads max_len : nat) :
  valid_batch lse cu_seqlens nheads max_len ->
  exists packed,
    flatten_varlen_lse lse cu_seqlens = Ok packed /\
    shape2 packed nheads (boundary cu_seqlens (length lse)) /\
    forall (i h p : nat) (v : V),
      (i < length lse)%nat -> Z.of_nat p < seq_len cu_seqlens i ->
      entry lse i h p = Some v ->
      (row ← packed !! h; row !! (boundary cu_seqlens i + p)%nat) = Some v.
Proof.
  intros Hvalid.
  destruct (flatten_packed lse cu_seqlens nheads max_len Hvalid)
    as (packed & Hok & Hshape & Hent).
  exists packed. split; [ done | ]. split; [ done | ].
  intros i h p v Hi Hp Hv. apply Hent; [ done | lia | done ].
Qed.

Lemma flatten_packs_witness :
  exists packed,
    flatten_varlen_lse [[[1; 2; 0]; [3; 4; 0]]; [[5; 6; 7]; [8; 9; 10]]] [0; 2; 5]
      = Ok packed /\
    shape2 packed 2 5 /\
    (row ← packed !! 1%nat; row !! 4%nat) = Some 10.
Proof.
  destruct (flatten_packs
              [[[1; 2; 0]; [3; 4; 0]]; [[5; 6; 7]; [8; 9; 10]]] [0; 2; 5] 2 3)
    as (packed & Hflat & Hshape & Hent).
  - unfold valid_batch. split; [ done | ]. split; [ simpl; lia | ].
    split; [ done | ]. split; [ done | ].
    split; [ split; [ done | repeat constructor ] | ].
    split; [ lia | ].
    intros [ | [ | i ] ] Hi; simpl in Hi; vm_compute; try discriminate; lia.
  - exists packed. split; [ exact Hflat | ]. split; [ exact Hshape | ].
    apply (Hent 1%nat 1%nat 2%nat 10); [ simpl; lia | vm_compute; done | done ].
Defined.



(** X15.  The padding of [unflatten_varlen_lse] is not initialised: past the
    end of a sequence the result holds what [torch.empty] left there,
    neither zeros nor values of the input. *)
Theorem unflatten_padding_uninit {V : Type} (uninit : nat -> nat -> nat -> V)
    (acc : list (list (list V))) (cu_seqlens : list Z)
    (num_seq nheads : nat) (max_seqlen : Z) :
  head cu_seqlens = Some 0 -> nondecreasing cu_seqlens ->
  length cu_seqlens = S num_seq ->
  shape3 acc (boundary cu_seqlens num_seq) nheads 1 -> acc <> [] ->
  0 <= max_seqlen ->
  (forall i : nat, (i < num_seq)%nat -> seq_len cu_seqlens i <= max_seqlen) ->
  exists out,
    unflatten_varlen_lse uninit (Rank3 acc) cu_seqlens max_seqlen = Ok out /\
    forall i h p : nat,
      (i < num_seq)%nat -> (h < nheads)%nat ->
      seq_len cu_seqlens i <= Z.of_nat p < max_seqlen ->
      entry out i h p = Some (uninit i p h).
Proof.
  intros Hhead Hnd Hlen Hacc Hne Hmax Hfit.
  assert (shape_m2 (Rank3 acc) = nheads) as Hm2.
  { destruct acc as [ | row0 acc' ]; [ done | ].
    exact (shape_m2_acc _ _ _ _ Hacc 0%nat row0 eq_refl). }
  set (M := Z.to_nat max_seqlen).
  set (new_lse := torch_empty uninit num_seq M nheads).
  assert (forall i : nat, (i < num_seq)%nat ->
            new_lse !! i
            = Some ((fun p => (fun h => uninit i p h) <$> seq 0 nheads) <$> seq 0 M))
    as Hnew.
  { intros i Hi. unfold new_lse, torch_empty.
    rewrite list_lookup_fmap, lookup_seq_lt by done. done. }
  assert (forall i : nat, (i < num_seq)%nat ->
            shape2 ((fun p => (fun h => uninit i p h) <$> seq 0 nheads) <$> seq 0 M)
              M nheads) as Hshape.
  { intros i Hi. split; [ by rewrite length_fmap, length_seq | ].
    apply Forall_fmap, Forall_true. intros p. simpl.
    by rewrite length_fmap, length_seq. }
  exists ((fun m : list (list V) => transpose m) <$> imap (written acc cu_seqlens) new_lse).
  split.
  - rewrite (unflatten_unfold _ _ _ num_seq) by done. rewrite Hm2.
    fold M. fold new_lse.
    rewrite (collect_imap _ (written acc cu_seqlens)); [ done | ].
    intros i new_i Hi.
    assert (i < num_seq)%nat as Hlt.
    { apply lookup_lt_Some in Hi. unfold new_lse, torch_empty in Hi.
      by rewrite length_fmap, length_seq in Hi. }
    rewrite (Hnew i Hlt) in Hi. injection Hi as <-.
    eapply unflatten_body_written; try eassumption. rewrite Hm2. by apply Hshape.
  - intros i h p Hi Hh Hp.
    pose proof (seq_len_nonneg cu_seqlens i Hnd ltac:(lia)) as Hn0.
    pose proof (boundary_succ cu_seqlens i Hhead Hnd ltac:(lia)) as Hsucc.
    pose proof (boundary_mono cu_seqlens num_seq Hhead Hnd Hlen (S i) num_seq
                  ltac:(lia) ltac:(lia)) as Hmono.
    specialize (Hfit i Hi).
    set (new_i := (fun p => (fun h => uninit i p h) <$> seq 0 nheads) <$> seq 0 M).
    assert (shape2 (written acc cu_seqlens i new_i) M nheads) as Hw.
    { eapply written_shape; [ exact Hlen | | | ].
      - by apply Hshape.
      - apply Forall_take, Forall_drop. destruct Hacc as [_ Hall].
        eapply Forall_impl; [ exact Hall | ]. by intros row [? _].
      - rewrite length_drop. destruct Hacc as [-> _]. lia. }
    assert ((row ← written acc cu_seqlens i new_i !! p; row !! h) = Some (uninit i p h))
      as Hrow.
    { unfold written. rewrite lookup_app_r.
      2:{ rewrite length_zip_with, !length_take, length_drop.
          destruct Hacc as [-> _]. unfold new_i.
          rewrite length_fmap, length_seq. lia. }
      rewrite length_zip_with, !length_take, length_drop.
      destruct Hacc as [-> _]. unfold new_i at 1 2.
      rewrite length_fmap, length_seq, lookup_drop.
      replace (_ + (p - _))%nat with p by (unfold M; lia).
      unfold new_i. rewrite list_lookup_fmap, lookup_seq_lt by (unfold M; lia).
      simpl. rewrite list_lookup_fmap, lookup_seq_lt by done. done. }
    pose proof (transpose_lookup _ _ _ _ _ _ Hw Hrow) as Ht.
    unfold entry.
    rewrite list_lookup_fmap, list_lookup_imap, (Hnew i Hi). simpl.
    fold new_i. exact Ht.
Qed.

Lemma unflatten_padding_uninit_witness :
  exists out,
    unflatten_varlen_lse (fun _ _ _ => -1) (Rank3 [[[1]]; [[2]]; [[3]]]) [0; 1; 3] 2
      = Ok out /\
    entry out 0 0 1 = Some (-1).
Proof.
  destruct (unflatten_padding_uninit (fun _ _ _ => -1)
              [[[1]]; [[2]]; [[3]]] [0; 1; 3] 2 1 2)
    as (out & Hok & Hent).
  - reflexivity.
  - simpl. lia.
  - reflexivity.
  - split; [ reflexivity | repeat constructor ].
  - discriminate.
  - lia.
  - intros [ | [ | i ] ] Hi; vm_compute; try discriminate; lia.
  - exists out. split; [ exact Hok | ].
    apply (Hent 0%nat 0%nat 1%nat); [ lia | lia | vm_compute; split; [ discriminate | done ] ].
Defined.

(** X16.  A sequence longer than [max_seqlen] is not truncated: its rows do
    not fit the padded buffer, and [unflatten_varlen_lse] raises a shape
    error. *)
Theorem unflatten_rejects_long_sequence {V : Type} (uninit : nat -> nat -> nat -> V)
    (acc : list (list (list V))) (cu_seqlens : list Z)
    (num_seq nheads i : nat) (max_seqlen : Z) :
  head cu_seqlens = Some 0 -> nondecreasing cu_seqlens ->
  length cu_seqlens = S num_seq ->
  shape3 acc (boundary cu_seqlens num_seq) nheads 1 ->
  (i < num_seq)%nat ->
  0 <= max_seqlen < seq_len cu_seqlens i -> 1 < seq_len cu_seqlens i ->
  unflatten_varlen_lse uninit (Rank3 acc) cu_seqlens max_seqlen = Raise ShapeError.
Proof.
  intros Hhead Hnd Hlen Hacc Hi Hlong Htwo.
  rewrite (unflatten_unfold _ _ _ num_seq) by (done || lia).
  set (M := Z.to_nat max_seqlen).
  set (new_lse := torch_empty uninit num_seq M (shape_m2 (Rank3 acc))).
  assert (forall (j : nat) (new_j : list (list V)) (e : exn),
            (j < num_seq)%nat ->
            unflatten_body (Rank3 acc) cu_seqlens j new_j = Raise e -> e = ShapeError)
    as Honly.
  { intros j new_j e Hj. unfold unflatten_body.
    rewrite getitem_boundary by lia. bind_step.
    replace (Z.of_nat j + 1) with (Z.of_nat (S j)) by lia.
    rewrite getitem_boundary by lia. bind_step.
    destruct (copy_rows _ _) as [ new | e' ] eqn:Ecopy; [ done | ].
    bind_step. intros [= <-]. unfold copy_rows in Ecopy.
    eapply bcopy_raises_shape; [ | exact Ecopy ].
    intros x y e1. apply bcopy_raises_shape.
    intros ? [ | ? [ | ? ? ] ] ? [=]; done. }
  assert (exists new_i, new_lse !! i = Some new_i /\ length new_i = M)
    as (new_i & Hnew & HlenM).
  { destruct (torch_empty_lookup uninit num_seq M (shape_m2 (Rank3 acc)) i Hi)
      as (new_i & Hnew & [HlenM _]). by exists new_i. }
  assert (unflatten_body (Rank3 acc) cu_seqlens i new_i = Raise ShapeError) as Hraise.
  { unfold unflatten_body.
    rewrite getitem_boundary by lia. bind_step.
    replace (Z.of_nat i + 1) with (Z.of_nat (S i)) by lia.
    rewrite getitem_boundary by lia. bind_step.
    pose proof (boundary_nonneg cu_seqlens i Hhead Hnd) as Hb0.
    pose proof (boundary_nonneg cu_seqlens (S i) Hhead Hnd) as Hb1.
    pose proof (boundary_succ cu_seqlens i Hhead Hnd ltac:(lia)) as Hsucc.
    pose proof (boundary_mono cu_seqlens num_seq Hhead Hnd Hlen (S i) num_seq
                  ltac:(lia) ltac:(lia)) as Hmono.
    fold (seq_len cu_seqlens i).
    set (n := Z.to_nat (seq_len cu_seqlens i)) in *.
    assert (Py.clamp (length new_i) (Z.of_nat (length new_i))
              (Some (seq_len cu_seqlens i)) = M) as ->.
    { unfold Py.clamp. rewrite decide_False by lia. unfold M. lia. }
    assert (rows (Rank3 acc) (default 0 (cu_seqlens !! i)) (default 0 (cu_seqlens !! S i))
            = take n (drop (boundary cu_seqlens i) acc)) as ->.
    { unfold rows, boundary in *.
      rewrite <- (Z2Nat.id (default 0 (cu_seqlens !! i))) at 1 by done.
      rewrite <- (Z2Nat.id (default 0 (cu_seqlens !! S i))) by done.
      rewrite slice_inside by (destruct Hacc as [-> _]; unfold boundary; lia).
      f_equal. unfold n, seq_len. lia. }
    assert (length (take n (drop (boundary cu_seqlens i) acc)) = n) as Hsrc.
    { rewrite length_take, length_drop. destruct Hacc as [-> _]. lia. }
    unfold copy_rows, bcopy.
    rewrite decide_False by (rewrite Hsrc, length_take; unfold M in *; lia).
    destruct (take n (drop (boundary cu_seqlens i) acc)) as [ | y [ | y' src ] ];
      simpl in Hsrc; [ done | lia | done ]. }
  destruct (collect_some_raise (imap (unflatten_body (Rank3 acc) cu_seqlens) new_lse)
              i ShapeError) as [e He].
  { by rewrite list_lookup_imap, Hnew; simpl; rewrite Hraise. }
  fold M. fold new_lse. rewrite He. bind_step. f_equal.
  eapply collect_raises_shape; [ | exact He ].
  intros m e' Hin ->. apply list_elem_of_lookup in Hin as [j Hj].
  rewrite list_lookup_imap in Hj.
  destruct (new_lse !! j) as [ new_j | ] eqn:Hnj; [ | done ].
  simpl in Hj. injection Hj as Hj.
  eapply (Honly j new_j); [ | done ].
  apply lookup_lt_Some in Hnj. unfold new_lse, torch_empty in Hnj.
  by rewrite length_fmap, length_seq in Hnj.
Qed.

Lemma unflatten_rejects_long_sequence_witness :
  unflatten_varlen_lse (fun _ _ _ => -1) (Rank3 [[[1]]; [[2]]; [[3]]]) [0; 1; 3] 1
  = Raise ShapeError.
Proof.
  apply (unflatten_rejects_long_sequence (fun _ _ _ => -1)
           [[[1]]; [[2]]; [[3]]] [0; 1; 3] 2 1 1).
  - reflexivity.
  - simpl. lia.
  - reflexivity.
  - split; [ reflexivity | repeat constructor ].
  - lia.
  - vm_compute. split; [ discriminate | done ].
  - vm_compute. done.
Defined.
End LseExtras.

(** ** AttentionStepEngine: windows, buffers and rejected strides *)

Section EngineForwardExtras.
Import Torch Engine EngineWindows.
Local Open Scope nat_scope.
Context {V Hyper Group : Type}.
Variable all_gathered : nat -> list (list (list V)) -> list (list (list V)).
Variable _flash_attn_varlen_forward :
  list (list (list V)) -> list (list (list V)) -> list (list (list V)) ->
  list Z -> list Z -> Z -> Z -> Hyper -> list (list (list V)) * list (list V).

Lemma window_has_next (n stride a : nat) :
  stride ≠ 0 -> a < n -> (a * stride + stride < n * stride <-> S a < n).
Proof. intros Hs Ha. nia. Qed.

Lemma forward_body_step (c0 n : nat) q k v cu_q cu_k max_q max_k
    (stride : nat) (lks : Z * Z) (hyper : Hyper)
    (a : nat) (s : forward_state (V := V) (Group := Group)) :
  stride ≠ 0 -> dim1 k = n * stride -> a < n ->
  f_kv_buffer s ≠ f_kv_buffer_copy s ->
  AllGatherComm.handles (f_comm s)
    = [ ((f_kv_buffer_copy s, Slot0),
         all_gathered (c0 + 2 * a) (heads k (a * stride) (a * stride + stride)));
        ((f_kv_buffer_copy s, Slot1),
         all_gathered (c0 + 2 * a + 1) (heads v (a * stride) (a * stride + stride))) ] ->
  collectives (f_world s) = c0 + 2 * a + 2 ->
  exists s',
    forward_body all_gathered _flash_attn_varlen_forward
      q k v cu_q cu_k max_q max_k stride lks hyper s (a * stride) = Ok s' /\
    out_list s' = out_list s ++
      [(window_call all_gathered _flash_attn_varlen_forward
          c0 q k v cu_q cu_k max_q max_k stride lks hyper a).1] /\
    lse_list s' = lse_list s ++
      [(window_call all_gathered _flash_attn_varlen_forward
          c0 q k v cu_q cu_k max_q max_k stride lks hyper a).2] /\
    f_kv_buffer s' = f_kv_buffer_copy s /\
    f_kv_buffer_copy s' = f_kv_buffer s /\
    (if decide (S a < n)
     then AllGatherComm.handles (f_comm s')
          = [ ((f_kv_buffer s, Slot0),
               all_gathered (c0 + 2 * S a)
                 (heads k (S a * stride) (S a * stride + stride)));
              ((f_kv_buffer s, Slot1),
               all_gathered (c0 + 2 * S a + 1)
                 (heads v (S a * stride) (S a * stride + stride))) ] /\
          collectives (f_world s') = c0 + 2 * S a + 2
     else AllGatherComm.handles (f_comm s') = [] /\
          collectives (f_world s') = c0 + 2 * a + 2).
Proof.
  intros Hs Hk Ha Hne Hh Hc.
  destruct s as [[g hs] w kb kbc ol ll]. cbn [f_comm f_world f_kv_buffer
    f_kv_buffer_copy out_list lse_list AllGatherComm.handles] in *. subst hs.
  unfold forward_body, AllGatherComm.wait.
  cbn [f_comm f_world f_kv_buffer f_kv_buffer_copy out_list lse_list
       AllGatherComm.handles AllGatherComm.group AllGatherComm.wait_all handle_wait
       fst snd].
  unfold handle_wait. bind_step. cbn [fst snd].
  set (t0 := all_gathered (c0 + 2 * a) (heads k (a * stride) (a * stride + stride))).
  set (t1 := all_gathered (c0 + 2 * a + 1) (heads v (a * stride) (a * stride + stride))).
  set (w2 := store (store w kbc Slot0 t0) kbc Slot1 t1).
  assert (buffers w2 kbc Slot0 = t0) as Hb0.
  { unfold w2, store. cbn [buffers].
    rewrite decide_False by (intros [_ [=]]). by rewrite decide_True. }
  assert (buffers w2 kbc Slot1 = t1) as Hb1.
  { unfold w2, store. cbn [buffers]. by rewrite decide_True. }
  assert (collectives w2 = c0 + 2 * a + 2) as Hc2 by done.
  pose proof (window_has_next n stride a Hs Ha) as Hnext. rewrite <- Hk in Hnext.
  assert (window_call all_gathered _flash_attn_varlen_forward
            c0 q k v cu_q cu_k max_q max_k stride lks hyper a
          = _flash_attn_varlen_forward
              (heads q ((a * stride * dim1 q) `div` dim1 k)
                 (((a * stride + stride) * dim1 q) `div` dim1 k))
              (Py.slice (buffers w2 kbc Slot0) (Some lks.1) (Some lks.2))
              (Py.slice (buffers w2 kbc Slot1) (Some lks.1) (Some lks.2))
              cu_q cu_k max_q max_k hyper) as Hcall.
  { unfold window_call. by rewrite Hb0, Hb1. }
  destruct (decide (a * stride + stride < dim1 k)) as [ Hlt | Hge ].
  - destruct (decide (S a < n)) as [ Hn1 | Hn1 ]; [ | by apply Hnext in Hlt ].
    unfold gather_window, AllGatherComm.all_gather, all_gather_into_tensor.
    bind_step. cbn [buffers collectives AllGatherComm.handles AllGatherComm.group].
    rewrite Hcall.
    destruct (_flash_attn_varlen_forward _ _ _ _ _ _ _ _) as [out lse].
    eexists. split; [ reflexivity | ].
    cbn [f_comm f_world f_kv_buffer f_kv_buffer_copy out_list lse_list
         AllGatherComm.handles collectives fst snd].
    do 4 (split; [ done | ]). split.
    + rewrite Hc2. cbn [app].
      replace (S a * stride) with (a * stride + stride) by lia.
      replace (c0 + 2 * S a) with (c0 + 2 * a + 2) by lia.
      replace (c0 + 2 * a + 2 + 1) with (S (c0 + 2 * a + 2)) by lia.
      done.
    + rewrite Hc2. lia.
  - destruct (decide (S a < n)) as [ Hn1 | Hn1 ]; [ by apply Hnext in Hn1 | ].
    bind_step. rewrite Hcall.
    destruct (_flash_attn_varlen_forward _ _ _ _ _ _ _ _) as [out lse].
    eexists. split; [ reflexivity | ]. done.
Qed.

Lemma forward_loop_windows (c0 n : nat) q k v cu_q cu_k max_q max_k
    (stride : nat) (lks : Z * Z) (hyper : Hyper) :
  stride ≠ 0 -> dim1 k = n * stride ->
  forall (m a : nat) (s : forward_state (V := V) (Group := Group)),
    a + S m = n ->
    f_kv_buffer s ≠ f_kv_buffer_copy s ->
    AllGatherComm.handles (f_comm s)
      = [ ((f_kv_buffer_copy s, Slot0),
           all_gathered (c0 + 2 * a) (heads k (a * stride) (a * stride + stride)));
          ((f_kv_buffer_copy s, Slot1),
           all_gathered (c0 + 2 * a + 1) (heads v (a * stride) (a * stride + stride))) ] ->
    collectives (f_world s) = c0 + 2 * a + 2 ->
    exists s',
      for_each (forward_body all_gathered _flash_attn_varlen_forward
                  q k v cu_q cu_k max_q max_k stride lks hyper) s
        ((fun j => j * stride) <$> seq a (S m)) = Ok s' /\
      out_list s' = out_list s ++
        ((fun j => (window_call all_gathered _flash_attn_varlen_forward
                      c0 q k v cu_q cu_k max_q max_k stride lks hyper j).1)
           <$> seq a (S m)) /\
      lse_list s' = lse_list s ++
        ((fun j => (window_call all_gathered _flash_attn_varlen_forward
                      c0 q k v cu_q cu_k max_q max_k stride lks hyper j).2)
           <$> seq a (S m)) /\
      AllGatherComm.handles (f_comm s') = [] /\
      collectives (f_world s') = c0 + 2 * n.
Proof.
  intros Hs Hk. induction m as [ | m IH ]; intros a s Han Hne Hh Hc.
  - destruct (forward_body_step c0 n q k v cu_q cu_k max_q max_k stride lks hyper
                a s Hs Hk ltac:(lia) Hne Hh Hc)
      as (s1 & Hstep & Ho & Hl & _ & _ & Hrest).
    rewrite decide_False in Hrest by lia. destruct Hrest as [Hh1 Hc1].
    exists s1. cbn [seq fmap list_fmap for_each]. rewrite Hstep. bind_step.
    do 3 (split; [ done | ]). split; [ done | lia ].
  - destruct (forward_body_step c0 n q k v cu_q cu_k max_q max_k stride lks hyper
                a s Hs Hk ltac:(lia) Hne Hh Hc)
      as (s1 & Hstep & Ho & Hl & Hkb & Hkbc & Hrest).
    rewrite decide_True in Hrest by lia. destruct Hrest as [Hh1 Hc1].
    destruct (IH (S a) s1) as (s' & Hloop & Ho' & Hl' & Hh' & Hc').
    + lia.
    + rewrite Hkb, Hkbc. done.
    + by rewrite Hkbc.
    + done.
    + exists s'. rewrite <- cons_seq. rewrite fmap_cons. cbn [for_each].
      rewrite Hstep. bind_step.
      split; [ exact Hloop | ].
      rewrite Ho', Hl', Ho, Hl, <- !app_assoc. done.
Qed.

End EngineForwardExtras.


Section EngineRejects.
Import Torch Engine.
Local Open Scope nat_scope.
Context {V Hyper Group : Type}.
Variable all_gathered : nat -> list (list (list V)) -> list (list (list V)).
Variable reduce_scattered : nat -> list (list (list V)) -> list (list (list V)).
Variable zero : V.
Variable _flash_attn_varlen_forward :
  list (list (list V)) -> list (list (list V)) -> list (list (list V)) ->
  list Z -> list Z -> Z -> Z -> Hyper -> list (list (list V)) * list (list V).
Variable _flash_attn_varlen_backward :
  @backward_args V Hyper -> list (list (list V)) * list (list (list V)) * list (list (list V)).


(** X20.  One window of the backward pass writes its own heads only: in [dq]
    the heads outside the window's query range keep their contents, and,
    when the stride is not the whole of the key heads, so do the heads of
    [dk] and [dv] outside [i, i + heads_k_stride).  (The keys have at
    least one head: the window ranges divide by their number.) *)
Theorem backward_window_frame dout q k v out softmax_lse cu_q cu_k max_q max_k
    (heads_k_stride : nat) (local_k_slice : Z * Z) (hyper : Hyper)
    (s s' : backward_state (V := V) (Group := Group)) (i : nat) :
  0 < dim1 k ->
  backward_body all_gathered reduce_scattered zero _flash_attn_varlen_backward
    dout q k v out softmax_lse cu_q cu_k max_q max_k heads_k_stride local_k_slice hyper
    s i = Ok s' ->
  let q_left := i * dim1 q / dim1 k in
  let q_right := (i + heads_k_stride) * dim1 q / dim1 k in
  (forall (j h : nat) row, dq s !! j = Some row -> ~ (q_left <= h < q_right) ->
     exists row', dq s' !! j = Some row' /\ length row' = length row /\
                  row' !! h = row !! h) /\
  (heads_k_stride ≠ dim1 k ->
   forall (j h : nat) row, ~ (i <= h < i + heads_k_stride) ->
     (dk s !! j = Some row ->
      exists row', dk s' !! j = Some row' /\ length row' = length row /\
                   row' !! h = row !! h) /\
     (dv s !! j = Some row ->
      exists row', dv s' !! j = Some row' /\ length row' = length row /\
                   row' !! h = row !! h)).
Proof.
  assert (forall (t new : list (list (list V))) (a b j h : nat) row,
            t !! j = Some row -> ~ (a <= h < b) ->
            exists row', write_heads t a b new !! j = Some row' /\
                         length row' = length row /\ row' !! h = row !! h) as Hframe.
  { intros t new a b j h row Hrow Hh. unfold write_heads.
    rewrite list_lookup_imap, Hrow. simpl. eexists. split; [ reflexivity | ].
    assert (length (take a row ++
              overwrite (take (b - a) (drop a row)) (default [] (new !! j)) ++
              drop (a + (b - a)) row) = length row) as Hlen.
    { rewrite !length_app, overwrite_length, !length_take, !length_drop. lia. }
    split; [ exact Hlen | ].
    destruct (decide (h < length row)) as [ Hlt | Hge ].
    2:{ rewrite !lookup_ge_None_2 by lia. done. }
    destruct (decide (h < a)) as [ Hha | Hha ].
    - rewrite lookup_app_l by (rewrite length_take; lia).
      apply lookup_take_lt. lia.
    - rewrite lookup_app_r by (rewrite length_take; lia).
      rewrite lookup_app_r
        by (rewrite overwrite_length, !length_take, length_drop; lia).
      rewrite lookup_drop, overwrite_length, !length_take, length_drop.
      f_equal. lia. }
  unfold backward_body. intros _ H. cbv zeta.
  bind_ok H. destruct a as [c w]. bind_ok H. destruct a as [c1 w1].
  destruct (_flash_attn_varlen_backward _) as [[dq_i dk_i] dv_i].
  simpl in H.
  case_decide as Hstride; injection H as <-; cbn [dq dk dv]; split.
  - intros j h row Hrow Hh. by apply Hframe.
  - intros _ j h row Hh. split; intros Hrow; by apply Hframe.
  - intros j h row Hrow Hh. by apply Hframe.
  - intros Hne. done.
Qed.
End EngineRejects.


Lemma backward_window_frame_witness :
  let kernel := fun args : @Engine.backward_args Z unit =>
    ((fun row : list (list Z) => (fun _ : list Z => [7]) <$> row) <$> Engine.b_dq args,
     [[[5]]], [[[6]]]) in
  let w := {| Engine.buffers := fun _ _ => []; Engine.collectives := O |} in
  let s := {| Engine.b_comm := AllGatherComm.init (Handle := Engine.buffer * Engine.slot * list (list (list Z))) (None : option unit);
              Engine.b_world := w;
              Engine.b_kv_buffer := Engine.BufferA;
              Engine.b_kv_buffer_copy := Engine.BufferB;
              Engine.dkv_buffer := ([[[9]]; [[9]]], [[[9]]; [[9]]]);
              Engine.kv_contiguous_buffer := ([[[9]]], [[[9]]]);
              Engine.dq := [[[8]; [9]]];
              Engine.dk := [[[8]; [9]]];
              Engine.dv := [[[8]; [9]]];
              Engine.trace := [] |} in
  exists s' row',
    Engine.backward_body (fun _ x => x ++ x) (fun _ x => take 1 x) 0 kernel
      [[[1]; [2]]] [[[1]; [2]]] [[[1]; [2]]] [[[1]; [2]]] [[[1]; [2]]] [[0]; [0]]
      [0; 1] [0; 1] 1 1 1%nat (0, 1) () s 0%nat = Ok s' /\
    Engine.dq s' !! 0%nat = Some row' /\ row' !! 1%nat = Some [9].
Proof.
  intros kernel w s.
  assert (exists s',
    Engine.backward_body (fun _ x => x ++ x) (fun _ x => take 1 x) 0 kernel
      [[[1]; [2]]] [[[1]; [2]]] [[[1]; [2]]] [[[1]; [2]]] [[[1]; [2]]] [[0]; [0]]
      [0; 1] [0; 1] 1 1 1%nat (0, 1) () s 0%nat = Ok s') as [s' E].
  { eexists. reflexivity. }
  pose proof E as E'.
  apply backward_window_frame in E' as [Hdq _]; [ | simpl; lia ].
  destruct (Hdq 0%nat 1%nat [[8]; [9]] eq_refl) as (row' & Hrow & _ & Hh).
  - simpl. lia.
  - exists s', row'. split; [ exact E | ]. split; [ exact Hrow | exact Hh ].
Defined.

Section LseReverse.
Import Torch Partition VarlenLse.

Lemma token_sequence (cu : list Z) (n k q : nat) :
  head cu = Some 0 -> nondecreasing cu -> length cu = S n ->
  (k <= n)%nat -> (q < boundary cu k)%nat ->
  exists i p : nat,
    (i < k)%nat /\ q = (boundary cu i + p)%nat /\ (p < Z.to_nat (seq_len cu i))%nat.
Proof.
  intros Hhead Hnd Hlen. induction k as [ | k IH ]; intros Hk Hq.
  - unfold boundary in Hq. rewrite <- head_lookup, Hhead in Hq. simpl in Hq. lia.
  - rewrite boundary_succ in Hq by (done || lia).
    destruct (decide (q < boundary cu k)%nat) as [ Hlt | Hge ].
    + destruct (IH ltac:(lia) Hlt) as (i & p & Hi & Hqp & Hp).
      exists i, p. split; [ lia | done ].
    + exists k, (q - boundary cu k)%nat. split; [ lia | ]. split; lia.
Qed.

Lemma unflatten_shape {V : Type} (uninit : nat -> nat -> nat -> V)
    (acc : list (list (list V))) (cu : list Z) (num_seq nheads : nat) (max_seqlen : Z) :
  head cu = Some 0 -> nondecreasing cu -> length cu = S num_seq ->
  shape3 acc (boundary cu num_seq) nheads 1 -> acc <> [] ->
  0 < max_seqlen ->
  (forall i : nat, (i < num_seq)%nat -> seq_len cu i <= max_seqlen) ->
  exists out,
    unflatten_varlen_lse uninit (Rank3 acc) cu max_seqlen = Ok out /\
    shape3 out num_seq nheads (Z.to_nat max_seqlen).
Proof.
  intros Hhead Hnd Hlen Hacc Hne Hmax Hfit.
  assert (shape_m2 (Rank3 acc) = nheads) as Hm2.
  { destruct acc as [ | row0 acc' ]; [ done | ].
    exact (shape_m2_acc _ _ _ _ Hacc 0%nat row0 eq_refl). }
  set (M := Z.to_nat max_seqlen).
  set (new_lse := torch_empty uninit num_seq M nheads).
  assert (length new_lse = num_seq) as Hnl.
  { unfold new_lse, torch_empty. by rewrite length_fmap, length_seq. }
  assert (forall (i : nat) new_i, new_lse !! i = Some new_i ->
            (i < num_seq)%nat /\ shape2 new_i M nheads) as Hnew.
  { intros i new_i Hi.
    assert (i < num_seq)%nat as Hlt by (rewrite <- Hnl; by eapply lookup_lt_Some).
    split; [ done | ].
    destruct (torch_empty_lookup uninit num_seq M nheads i Hlt) as (new_i' & Hn & Hs).
    change (new_lse !! i = Some new_i') in Hn. congruence. }
  exists ((fun m : list (list V) => transpose m) <$> imap (written acc cu) new_lse).
  split.
  - rewrite (unflatten_unfold _ _ _ num_seq) by (done || lia). rewrite Hm2.
    fold M. fold new_lse.
    rewrite (collect_imap _ (written acc cu)); [ done | ].
    intros i new_i Hi. destruct (Hnew i new_i Hi) as [Hlt Hs].
    eapply unflatten_body_written; try eassumption. by rewrite Hm2.
  - split; [ by rewrite length_fmap, length_imap | ].
    apply Forall_fmap, Forall_lookup. intros i row Hrow.
    rewrite list_lookup_imap in Hrow.
    destruct (new_lse !! i) as [ new_i | ] eqn:Hi; [ | done ].
    simpl in Hrow. injection Hrow as <-.
    destruct (Hnew i new_i Hi) as [Hlt Hs].
    pose proof (seq_len_nonneg cu i Hnd ltac:(lia)) as Hn0.
    pose proof (boundary_succ cu i Hhead Hnd ltac:(lia)) as Hsucc.
    pose proof (boundary_mono cu num_seq Hhead Hnd Hlen (S i) num_seq
                  ltac:(lia) ltac:(lia)) as Hmono.
    assert (shape2 (written acc cu i new_i) M nheads) as Hw.
    { eapply written_shape; [ exact Hlen | done | | ].
      - apply Forall_take, Forall_drop. destruct Hacc as [_ Hall].
        eapply Forall_impl; [ exact Hall | ]. by intros r [? _].
      - rewrite length_drop. destruct Hacc as [-> _]. lia. }
    simpl. apply (transpose_shape _ _ _ Hw). unfold M. lia.
Qed.

(** X17.  The round trip in the other direction is exact: a packed lse of
    shape (nheads, total tokens), brought to the accumulator layout,
    padded by [unflatten_varlen_lse] and packed again by
    [flatten_varlen_lse], comes back unchanged, whatever the padding
    holds. *)
Theorem lse_unflatten_flatten {V : Type} (uninit : nat -> nat -> nat -> V)
    (packed : list (list V)) (cu_seqlens : list Z)
    (num_seq nheads : nat) (max_seqlen : Z) :
  head cu_seqlens = Some 0 -> nondecreasing cu_seqlens ->
  length cu_seqlens = S num_seq ->
  shape2 packed nheads (boundary cu_seqlens num_seq) ->
  (0 < nheads)%nat -> (0 < boundary cu_seqlens num_seq)%nat ->
  (forall i : nat, (i < num_seq)%nat -> seq_len cu_seqlens i <= max_seqlen) ->
  exists out,
    unflatten_varlen_lse uninit (to_accumulator_layout packed) cu_seqlens max_seqlen
      = Ok out /\
    flatten_varlen_lse out cu_seqlens = Ok packed.
Proof.
  intros Hhead Hnd Hlen Hp Hh Htot Hfit.
  set (total := boundary cu_seqlens num_seq) in *.
  pose proof (shape3_unsqueeze _ _ _ (transpose_shape _ _ _ Hp Hh)) as Hacc.
  set (acc := unsqueeze (transpose packed)) in *.
  assert (acc <> []) as Hne.
  { destruct Hacc as [Hl _]. destruct acc; [ simpl in Hl; lia | done ]. }
  destruct (token_sequence cu_seqlens num_seq num_seq 0 Hhead Hnd Hlen ltac:(lia) Htot)
    as (i0 & p0 & Hi0 & _ & Hp0).
  assert (0 < max_seqlen) as Hmax by (specialize (Hfit i0 Hi0); lia).
  destruct (unflatten_shape uninit acc cu_seqlens num_seq nheads max_seqlen
              Hhead Hnd Hlen Hacc Hne Hmax Hfit) as (out & Hun & Hshape).
  destruct (unflatten_written uninit acc cu_seqlens num_seq nheads max_seqlen
              Hhead Hnd Hlen Hacc Hfit ltac:(lia)) as (out' & Hun' & _ & Hent).
  rewrite Hun in Hun'. injection Hun' as <-.
  exists out. split; [ exact Hun | ].
  pose proof Hshape as [Hlo _].
  assert (valid_batch out cu_seqlens nheads (Z.to_nat max_seqlen)) as Hvalid.
  { unfold valid_batch. rewrite Hlo.
    split; [ done | ]. split; [ done | ]. split; [ done | ].
    split; [ destruct out; [ simpl in Hlo; lia | done ] | ].
    split; [ done | ]. split; [ done | ].
    intros i Hi. specialize (Hfit i Hi). lia. }
  destruct (flatten_packed out cu_seqlens nheads (Z.to_nat max_seqlen) Hvalid)
    as (packed' & Hflat & Hp' & Hent').
  rewrite Hflat. f_equal. rewrite Hlo in Hp', Hent'. fold total in Hp'.
  destruct Hp as [Hr Hc], Hp' as [Hr' Hc'].
  apply list_eq_same_length with nheads; [ done | done | ].
  intros h row' row Hh' Hrow' Hrow.
  rewrite Forall_lookup in Hc, Hc'.
  pose proof (Hc _ _ Hrow) as Hlr. pose proof (Hc' _ _ Hrow') as Hlr'.
  apply list_eq_same_length with total; [ done | done | ].
  intros t x y Ht Hx Hy.
  destruct (token_sequence cu_seqlens num_seq num_seq t Hhead Hnd Hlen ltac:(lia) Ht)
    as (i & p & Hi & -> & Hpi).
  assert ((r ← packed' !! h; r !! (boundary cu_seqlens i + p)%nat) = Some y) as Hgoal.
  { apply Hent'; [ done | done | ]. apply Hent; [ done | done | ].
    apply entry_unsqueeze. eapply transpose_lookup; [ split; [ exact Hr | ] | ].
    - apply Forall_lookup. exact Hc.
    - by rewrite Hrow. }
  rewrite Hrow' in Hgoal. simpl in Hgoal. congruence.
Qed.

Lemma lse_unflatten_flatten_witness :
  exists out,
    unflatten_varlen_lse (fun _ _ _ => -1) (to_accumulator_layout [[1; 2; 3]; [4; 5; 6]])
      [0; 1; 3] 2 = Ok out /\
    flatten_varlen_lse out [0; 1; 3] = Ok [[1; 2; 3]; [4; 5; 6]].
Proof.
  apply (lse_unflatten_flatten (fun _ _ _ => -1) [[1; 2; 3]; [4; 5; 6]] [0; 1; 3] 2 2 2).
  - reflexivity.
  - simpl. lia.
  - reflexivity.
  - split; [ reflexivity | repeat constructor ].
  - lia.
  - vm_compute. lia.
  - intros [ | [ | i ] ] Hi; vm_compute; try discriminate; lia.
Defined.
End LseReverse.
